(** * MPModelProtoExporter: LP and MPS text export of a linear model

    A shallow embedding of [linear_solver/model_exporter.cc]
    (operations_research::MPModelProtoExporter) and the properties of the
    exporter that follow from it.

    - C++ [double] is Rocq's primitive binary64 [float]; comparisons are the
      IEEE ones ([PrimFloat.eqb], so that [NaN != x] holds and [-0.0 == 0.0]).
      A [float] has one NaN, without a sign: where a statement fixes the text
      printed for a value, the value is taken not to be a NaN.
    - C++ [int] is [Z]; the sizes of the repeated fields of the proto are
      taken to fit in an [int] where that matters.
    - [std::string] is [string], any character in it, NUL included; an
      output parameter [std::string* output] is a [string] passed in and
      returned.  A string handed to a [%s] conversion goes through [c_str()]
      and is printed up to its first NUL.
    - The members of the exporter object are a record threaded through the
      methods that change them.
    - [LOG(DFATAL)] is the non-debug build's: it logs and the method goes on
      to its [return false]. *)

From Stdlib Require Import ZArith List String Ascii Bool Lia Floats Uint63.
Import ListNotations.

Local Open Scope string_scope.
Local Open Scope Z_scope.

(** ** Characters and text helpers *)

(** The line feed, written [\n] in the source. *)
Definition nl : string := String (ascii_of_nat 10) EmptyString.

(** The one-character strings the source passes to [AppendComments]. *)
Definition backslash : string := String (ascii_of_nat 92) EmptyString.
Definition star : string := String (ascii_of_nat 42) EmptyString.

Definition size (s : string) : Z := Z.of_nat (String.length s).

Fixpoint replicate (n : nat) (c : ascii) : string :=
  match n with
  | O => EmptyString
  | S n' => String c (replicate n' c)
  end.

Fixpoint contains_char (c : ascii) (s : string) : bool :=
  match s with
  | EmptyString => false
  | String d r => Ascii.eqb c d || contains_char c r
  end.

(** [s.find_first_of(chars) != npos] *)
Fixpoint has_any_of (chars s : string) : bool :=
  match s with
  | EmptyString => false
  | String c r => contains_char c chars || has_any_of chars r
  end.

(** [s.c_str()] as a [%s] conversion reads it: the characters before the
    first NUL of [s], all of [s] when it has none. *)
Fixpoint c_str (s : string) : string :=
  match s with
  | EmptyString => EmptyString
  | String c r =>
      if Ascii.eqb c Ascii.zero then EmptyString else String c (c_str r)
  end.

Fixpoint strip_trailing_zeros (s : string) : string :=
  match s with
  | EmptyString => EmptyString
  | String c r =>
      match strip_trailing_zeros r with
      | EmptyString => if Ascii.eqb c "0" then EmptyString
                       else String c EmptyString
      | r' => String c r'
      end
  end.

(** ** The conversions of [StringPrintf] that the exporter uses

    [StringPrintf] and [StringAppendF] (base/stringprintf.h, wrappers of the
    C library's [vsnprintf]) are not in the file; the conversions below follow
    C99 7.19.6.1 for the conversion specifications that occur in the
    exporter's format strings. *)
Module Printf.

(** [%-Ns]: left-justified in a field of [w] characters. *)
Definition pad_right (w : nat) (s : string) : string :=
  s ++ replicate (w - String.length s) " ".

(** [%Ns] and [%*s]: right-justified in a field of [w] characters. *)
Definition pad_left (w : nat) (s : string) : string :=
  replicate (w - String.length s) " " ++ s.

Definition digit_char (d : Z) : ascii := ascii_of_nat (48 + Z.to_nat d).

Fixpoint decimal_digits (fuel : nat) (n : Z) (acc : string) : string :=
  let acc' := String (digit_char (n mod 10)) acc in
  match fuel with
  | O => acc'
  | S f => if n <? 10 then acc' else decimal_digits f (n / 10) acc'
  end.

(** The decimal digits of a non-negative integer. *)
Definition decimal (n : Z) : string :=
  decimal_digits (Z.to_nat (Z.log2 n)) n EmptyString.

(** [%d] *)
Definition fmt_d (n : Z) : string :=
  if n <? 0 then "-" ++ decimal (- n) else decimal n.

(** [%0*d] with the field width [w] passed as an argument: zeros are
    inserted after the sign up to the width. *)
Definition fmt_0d (w : Z) (n : Z) : string :=
  if n <? 0
  then "-" ++ replicate (Z.to_nat w - 1 - String.length (decimal (- n))) "0"
           ++ decimal (- n)
  else replicate (Z.to_nat w - String.length (decimal n)) "0" ++ decimal n.

(** *** Floating-point conversions

    A finite non-zero double is [m * 2^e], here the fraction [num / den]. *)
Definition fraction (m : positive) (e : Z) : Z * Z :=
  if 0 <=? e then (Z.pos m * 2 ^ e, 1) else (Z.pos m, 2 ^ (- e)).

(** [10^x <= num / den] *)
Definition pow10_le (x num den : Z) : bool :=
  if 0 <=? x then 10 ^ x * den <=? num else den <=? num * 10 ^ (- x).

Fixpoint exp_down (fuel : nat) (num den x : Z) : Z :=
  match fuel with
  | O => x
  | S f => if pow10_le x num den then x else exp_down f num den (x - 1)
  end.

Fixpoint exp_up (fuel : nat) (num den x : Z) : Z :=
  match fuel with
  | O => x
  | S f => if pow10_le (x + 1) num den then exp_up f num den (x + 1) else x
  end.

(** The decimal exponent [x] with [10^x <= num / den < 10^(x+1)]; a double
    lies between [10^-324] and [10^309]. *)
Definition decimal_exponent (num den : Z) : Z :=
  exp_up 400 num den (exp_down 400 num den 0).

(** Round [n / d] to the nearest integer, ties to even. *)
Definition round_half_even (n d : Z) : Z :=
  let q := n / d in
  let r := n mod d in
  if 2 * r <? d then q
  else if 2 * r =? d then (if Z.even q then q else q + 1)
  else q + 1.

(** [num / den] rounded to [p] significant decimal digits: the digits as an
    integer in [[10^(p-1), 10^p)] and the exponent of the first digit. *)
Definition significant (p : Z) (num den : Z) : Z * Z :=
  let x := decimal_exponent num den in
  let k := x - p + 1 in
  let q := if 0 <=? k then round_half_even num (den * 10 ^ k)
           else round_half_even (num * 10 ^ (- k)) den in
  if q =? 10 ^ p then (10 ^ (p - 1), x + 1) else (q, x).

Definition with_point (int_part frac : string) : string :=
  match strip_trailing_zeros frac with
  | EmptyString => int_part
  | f => int_part ++ "." ++ f
  end.

Definition exponent_suffix (x : Z) : string :=
  "E" ++ (if x <? 0 then "-" else "+") ++ fmt_0d 2 (Z.abs x).

(** The body of [%.pG] for a positive finite value, without its sign. *)
Definition G_body (precision : Z) (num den : Z) : string :=
  let p := if precision =? 0 then 1 else precision in
  let '(q, x) := significant p num den in
  let ds := decimal q in
  if (x <? -4) || (p <=? x)
  then with_point (substring 0 1 ds)
                  (substring 1 (String.length ds - 1) ds)
       ++ exponent_suffix x
  else if 0 <=? x
  then with_point (substring 0 (Z.to_nat (x + 1)) ds)
                  (substring (Z.to_nat (x + 1))
                             (String.length ds - Z.to_nat (x + 1)) ds)
  else with_point "0" (replicate (Z.to_nat (- x - 1)) "0" ++ ds).

Definition sign_text (plus negative : bool) : string :=
  if negative then "-" else if plus then "+" else "".

(** [%.pG], and [%+.pG] when [plus] is set.  The text of a NaN is the one
    of a NaN whose sign bit is clear; the C library writes a minus sign
    before it when the bit is set. *)
Definition fmt_G (plus : bool) (precision : Z) (v : float) : string :=
  match Prim2SF v with
  | S754_nan => sign_text plus false ++ "NAN"
  | S754_infinity s => sign_text plus s ++ "INF"
  | S754_zero s => sign_text plus s ++ "0"
  | S754_finite s m e =>
      let '(num, den) := fraction m e in
      sign_text plus s ++ G_body precision num den
  end.

(** [%.0f], with the same remark on a NaN. *)
Definition fmt_f0 (v : float) : string :=
  match Prim2SF v with
  | S754_nan => "nan"
  | S754_infinity s => sign_text false s ++ "inf"
  | S754_zero s => sign_text false s ++ "0"
  | S754_finite s m e =>
      let '(num, den) := fraction m e in
      sign_text false s ++ decimal (round_half_even num den)
  end.

End Printf.

(** ** [ceil], [floor] and [round] of <cmath>

    Computed exactly on the decoded double [(-1)^s * m * 2^e]; a double with
    [e >= 0], an infinity, a zero or a NaN is its own result. *)
Definition float_of_Z (k : Z) : float := PrimFloat.of_uint63 (Uint63.of_Z k).

Definition signed (s : bool) (k : Z) : float :=
  if s then PrimFloat.opp (float_of_Z k) else float_of_Z k.

Definition floor (x : float) : float :=
  match Prim2SF x with
  | S754_finite s m e =>
      if 0 <=? e then x
      else let d := 2 ^ (- e) in
           let q := Z.pos m / d in
           signed s (if s && negb (Z.pos m mod d =? 0) then q + 1 else q)
  | _ => x
  end.

Definition ceil (x : float) : float :=
  match Prim2SF x with
  | S754_finite s m e =>
      if 0 <=? e then x
      else let d := 2 ^ (- e) in
           let q := Z.pos m / d in
           signed s (if negb s && negb (Z.pos m mod d =? 0) then q + 1 else q)
  | _ => x
  end.

(** Halfway cases away from zero. *)
Definition round (x : float) : float :=
  match Prim2SF x with
  | S754_finite s m e =>
      if 0 <=? e then x
      else let d := 2 ^ (- e) in
           signed s ((2 * Z.pos m + d) / (2 * d))
  | _ => x
  end.

(** [a != b] on doubles. *)
Definition fne (a b : float) : bool := negb (PrimFloat.eqb a b).

(** ** The model (linear_solver.proto), as far as the exporter reads it

    An optional proto field is an [option]; [has_name] and [name] are the
    generated accessors ([name()] of an unset field is the empty string). *)
Module MPVariableProto.
Record t := mk {
  opt_name : option string;
  lower_bound : float;
  upper_bound : float;
  is_integer : bool;
  objective_coefficient : float }.
Definition has_name (v : t) : bool :=
  match opt_name v with Some _ => true | None => false end.
Definition name (v : t) : string :=
  match opt_name v with Some s => s | None => "" end.
(** The default instance of the message. *)
Definition default : t := mk None neg_infinity infinity false 0%float.
End MPVariableProto.

Module MPConstraintProto.
(** [row] pairs [var_index(i)] with [coefficient(i)]: the two repeated
    fields are read in parallel up to [var_index_size()]. *)
Record t := mk {
  opt_name : option string;
  lower_bound : float;
  upper_bound : float;
  row : list (Z * float) }.
Definition has_name (c : t) : bool :=
  match opt_name c with Some _ => true | None => false end.
Definition name (c : t) : string :=
  match opt_name c with Some s => s | None => "" end.
Definition default : t := mk None neg_infinity infinity [].
End MPConstraintProto.

Module MPModelProto.
Record t := mk {
  opt_name : option string;
  maximize : bool;
  objective_offset : float;
  variables : list MPVariableProto.t;
  constraints : list MPConstraintProto.t }.
Definition has_name (m : t) : bool :=
  match opt_name m with Some _ => true | None => false end.
Definition name (m : t) : string :=
  match opt_name m with Some s => s | None => "" end.
Definition variable_size (m : t) : Z :=
  Z.of_nat (List.length (variables m)).
Definition constraint_size (m : t) : Z :=
  Z.of_nat (List.length (constraints m)).
Definition variable (m : t) (i : Z) : MPVariableProto.t :=
  nth (Z.to_nat i) (variables m) MPVariableProto.default.
Definition constraint (m : t) (i : Z) : MPConstraintProto.t :=
  nth (Z.to_nat i) (constraints m) MPConstraintProto.default.
End MPModelProto.

(** The command-line flags that change the text ([lp_log_invalid_name] only
    switches log messages). *)
Record Flags := {
  lp_shows_unused_variables : bool;
  lp_max_line_length : Z }.

Definition default_flags : Flags :=
  {| lp_shows_unused_variables := false; lp_max_line_length := 10000 |}.

(** [for (int i = 0; i < n; ++i)] visits [range n]. *)
Definition range (n : Z) : list Z := map Z.of_nat (seq 0 (Z.to_nat n)).

(** ** The exporter object *)
Record MPModelProtoExporter := mkExporter {
  proto_ : MPModelProto.t;
  num_integer_variables_ : Z;
  num_binary_variables_ : Z;
  num_continuous_variables_ : Z;
  num_digits_for_variables_ : Z;
  num_digits_for_constraints_ : Z;
  current_mps_column_ : Z;
  use_fixed_mps_format_ : bool;
  use_obfuscated_names_ : bool;
  setup_done_ : bool }.

(** The constructor. *)
Definition new_exporter (proto : MPModelProto.t) : MPModelProtoExporter :=
  mkExporter proto 0 0 0 0 0 0 false false false.

Definition kMaxNameLength : Z := 255.
Definition kForbiddenChars : string := " +-*/<>=:" ++ backslash.
Definition kForbiddenFirstChars : string := "$.0123456789".

Definition CheckNameValidity (name : string) : bool :=
  match name with
  | EmptyString => false
  | String c0 _ =>
      if kMaxNameLength <? size name then false
      else if has_any_of kForbiddenChars name then false
      else if contains_char c0 kForbiddenFirstChars then false
      else true
  end.

Definition GetVariableName (e : MPModelProtoExporter) (var_index : Z)
    : string :=
  let var_proto := MPModelProto.variable (proto_ e) var_index in
  if use_obfuscated_names_ e || negb (MPVariableProto.has_name var_proto)
  then "V" ++ Printf.fmt_0d (num_digits_for_variables_ e) var_index
  else MPVariableProto.name var_proto.

Definition GetConstraintName (e : MPModelProtoExporter) (cst_index : Z)
    : string :=
  let ct_proto := MPModelProto.constraint (proto_ e) cst_index in
  if use_obfuscated_names_ e || negb (MPConstraintProto.has_name ct_proto)
  then "C" ++ Printf.fmt_0d (num_digits_for_constraints_ e) cst_index
  else MPConstraintProto.name ct_proto.

(** [std::vector<T>]: [v[i] = x] and [v[i]] for an index within the size;
    the exporter only indexes after its range check. *)
Fixpoint vector_set {A} (i : nat) (x : A) (v : list A) : list A :=
  match v, i with
  | [], _ => []
  | _ :: r, O => x :: r
  | y :: r, S i' => y :: vector_set i' x r
  end.

(** A loop whose body may [return false]: the state reached is handed back
    with the flag, since what the body wrote through [output] stays written. *)
Fixpoint for_each {I S} (body : I -> S -> bool * S) (l : list I) (s : S)
    : bool * S :=
  match l with
  | [] => (true, s)
  | i :: r =>
      match body i s with
      | (true, s') => for_each body r s'
      | (false, s') => (false, s')
      end
  end.

(** ** LineBreaker

    [Append] compares the two [int] members.  [WillFit] adds [s.size()], a
    [size_t], to [line_size_], so that its comparison is the unsigned one of
    64 bits: a negative [max_line_size_] counts as a very large one there. *)
Definition to_size_t (n : Z) : Z := n mod 2 ^ 64.

Module LineBreaker.
Record t := mk {
  max_line_size_ : Z;
  line_size_ : Z;
  output_ : string }.

Definition new (max_line_size : Z) : t := mk max_line_size 0 "".

Definition Append (s : string) (b : t) : t :=
  let line_size := line_size_ b + size s in
  if max_line_size_ b <? line_size
  then mk (max_line_size_ b) (size s) (output_ b ++ nl ++ " " ++ s)
  else mk (max_line_size_ b) line_size (output_ b ++ s).

Definition WillFit (s : string) (b : t) : bool :=
  to_size_t (line_size_ b + size s) <? to_size_t (max_line_size_ b).

Definition Consume (n : Z) (b : t) : t :=
  mk (max_line_size_ b) (line_size_ b + n) (output_ b).

Definition GetOutput (b : t) : string := output_ b.
End LineBreaker.

(** What an export call hands back: the exporter object after the call, the
    caller's [output] string after the call, and how the call returned.
    [Done] is [return true]; a [Failed] is one of the two [return false]
    that can be reached ([Setup] always returns true). *)
Inductive Failure := InvalidName | OutOfRangeReference.
Inductive Outcome := Done | Failed (why : Failure).

Definition returned (o : Outcome) : bool :=
  match o with Done => true | Failed _ => false end.

Definition IsBoolean (var : MPVariableProto.t) : bool :=
  MPVariableProto.is_integer var
  && PrimFloat.eqb (ceil (MPVariableProto.lower_bound var)) 0
  && PrimFloat.eqb (floor (MPVariableProto.upper_bound var)) 1.

(** The body of the loop of [Setup]: the counters
    [(num_binary_variables_, num_integer_variables_)]. *)
Definition SetupCount (counts : Z * Z) (var : MPVariableProto.t) : Z * Z :=
  let '(num_binary_variables, num_integer_variables) := counts in
  if MPVariableProto.is_integer var
  then if IsBoolean var
       then (num_binary_variables + 1, num_integer_variables)
       else (num_binary_variables, num_integer_variables + 1)
  else counts.

Definition Setup (e : MPModelProtoExporter) : MPModelProtoExporter * bool :=
  let m := proto_ e in
  let num_digits_for_constraints :=
    size (Printf.fmt_d (MPModelProto.constraint_size m)) in
  let num_digits_for_variables :=
    size (Printf.fmt_d (MPModelProto.variable_size m)) in
  let '(num_binary_variables, num_integer_variables) :=
    fold_left SetupCount (MPModelProto.variables m) (0, 0) in
  (mkExporter m num_integer_variables num_binary_variables
     (MPModelProto.variable_size m - num_binary_variables
      - num_integer_variables)
     num_digits_for_variables num_digits_for_constraints
     (current_mps_column_ e) (use_fixed_mps_format_ e)
     (use_obfuscated_names_ e) (setup_done_ e), true).

Definition CheckAllNamesValidity (e : MPModelProtoExporter) : bool :=
  forallb (fun i => CheckNameValidity (GetVariableName e i))
          (range (MPModelProto.variable_size (proto_ e)))
  && forallb (fun i => CheckNameValidity (GetConstraintName e i))
             (range (MPModelProto.constraint_size (proto_ e))).

(** Assignments to members of the exporter. *)
Definition set_flags (obfuscated fixed_format : bool)
    (e : MPModelProtoExporter) : MPModelProtoExporter :=
  mkExporter (proto_ e) (num_integer_variables_ e) (num_binary_variables_ e)
    (num_continuous_variables_ e) (num_digits_for_variables_ e)
    (num_digits_for_constraints_ e) (current_mps_column_ e)
    fixed_format obfuscated true.

Definition set_column (c : Z) (e : MPModelProtoExporter)
    : MPModelProtoExporter :=
  mkExporter (proto_ e) (num_integer_variables_ e) (num_binary_variables_ e)
    (num_continuous_variables_ e) (num_digits_for_variables_ e)
    (num_digits_for_constraints_ e) c
    (use_fixed_mps_format_ e) (use_obfuscated_names_ e) (setup_done_ e).

(** [if (!setup_done_) { if (!Setup()) return false; }] *)
Definition ensure_setup (e : MPModelProtoExporter)
    : MPModelProtoExporter * bool :=
  if setup_done_ e then (e, true) else Setup e.

Definition WriteLpTerm (e : MPModelProtoExporter) (var_index : Z)
    (coefficient : float) : bool * string :=
  if (var_index <? 0)
     || (MPModelProto.variable_size (proto_ e) <=? var_index)
  then (false, "")
  else if fne coefficient 0
  then (true, Printf.fmt_G true 16 coefficient ++ " "
              ++ c_str (GetVariableName e var_index) ++ " ")
  else (true, "").

Section WithFlags.

Variable FLAGS : Flags.

Definition AppendComments (e : MPModelProtoExporter) (separator : string)
    (output : string) : string :=
  let sep := c_str separator in
  let output := output ++ sep ++ " Generated by MPModelProtoExporter" ++ nl in
  let output := output ++ sep ++ "   " ++ Printf.pad_right 16 "Name" ++ " : "
      ++ (if MPModelProto.has_name (proto_ e)
          then c_str (MPModelProto.name (proto_ e)) else "NoName") ++ nl in
  let output := output ++ sep ++ "   " ++ Printf.pad_right 16 "Format" ++ " : "
      ++ (if use_fixed_mps_format_ e then "Fixed" else "Free") ++ nl in
  let output := output ++ sep ++ "   " ++ Printf.pad_right 16 "Constraints"
      ++ " : " ++ Printf.fmt_d (MPModelProto.constraint_size (proto_ e))
      ++ nl in
  let output := output ++ sep ++ "   " ++ Printf.pad_right 16 "Variables"
      ++ " : " ++ Printf.fmt_d (MPModelProto.variable_size (proto_ e)) ++ nl in
  let output := output ++ sep ++ "     " ++ Printf.pad_right 14 "Binary"
      ++ " : " ++ Printf.fmt_d (num_binary_variables_ e) ++ nl in
  let output := output ++ sep ++ "     " ++ Printf.pad_right 14 "Integer"
      ++ " : " ++ Printf.fmt_d (num_integer_variables_ e) ++ nl in
  let output := output ++ sep ++ "     " ++ Printf.pad_right 14 "Continuous"
      ++ " : " ++ Printf.fmt_d (num_continuous_variables_ e) ++ nl in
  if lp_shows_unused_variables FLAGS
  then output ++ sep ++ " Unused variables are shown" ++ nl
  else output.

(** *** LP format *)

(** The body of the loop over the variables that builds the objective. *)
Definition LpObjectiveTerm (e : MPModelProtoExporter) (var_index : Z)
    (s : LineBreaker.t * list bool) : bool * (LineBreaker.t * list bool) :=
  let '(obj_line_breaker, show_variable) := s in
  let coeff := MPVariableProto.objective_coefficient
                 (MPModelProto.variable (proto_ e) var_index) in
  match WriteLpTerm e var_index coeff with
  | (false, _) => (false, s)
  | (true, term) =>
      (true, (LineBreaker.Append term obj_line_breaker,
              vector_set (Z.to_nat var_index)
                (fne coeff 0 || lp_shows_unused_variables FLAGS)
                show_variable))
  end.

(** The body of the loop over one constraint's row. *)
Definition LpConstraintTerm (e : MPModelProtoExporter) (entry : Z * float)
    (s : LineBreaker.t * list bool) : bool * (LineBreaker.t * list bool) :=
  let '(line_breaker, show_variable) := s in
  let '(var_index, coeff) := entry in
  match WriteLpTerm e var_index coeff with
  | (false, _) => (false, s)
  | (true, term) =>
      (true, (LineBreaker.Append term line_breaker,
              vector_set (Z.to_nat var_index)
                (fne coeff 0 || lp_shows_unused_variables FLAGS)
                show_variable))
  end.

Definition kNumFormattingChars : Z := 10.

(** What is appended to [output] for a constraint once its terms are in
    [line_breaker]. *)
Definition LpConstraintLines (name : string) (lb ub : float)
    (line_breaker : LineBreaker.t) (output : string) : string :=
  if PrimFloat.eqb lb ub
  then
    let line_breaker :=
      LineBreaker.Append (" = " ++ Printf.fmt_G false 16 ub ++ nl)
                         line_breaker in
    output ++ " " ++ name ++ ": " ++ LineBreaker.GetOutput line_breaker
  else
    let output :=
      if fne ub infinity
      then
        let rhs_name := if fne lb neg_infinity then name ++ "_rhs" else name in
        let output := output ++ " " ++ rhs_name ++ ": "
                      ++ LineBreaker.GetOutput line_breaker in
        let relation := " <= " ++ Printf.fmt_G false 16 ub ++ nl in
        let output := if LineBreaker.WillFit relation line_breaker
                      then output else output ++ nl ++ " " in
        output ++ relation
      else output in
    if fne lb neg_infinity
    then
      let lhs_name := if fne ub infinity then name ++ "_lhs" else name in
      let output := output ++ " " ++ lhs_name ++ ": "
                    ++ LineBreaker.GetOutput line_breaker in
      let relation := " >= " ++ Printf.fmt_G false 16 lb ++ nl in
      let output := if LineBreaker.WillFit relation line_breaker
                    then output else output ++ nl ++ " " in
      output ++ relation
    else output.

(** The body of the loop over the constraints. *)
Definition LpConstraint (e : MPModelProtoExporter) (cst_index : Z)
    (s : string * list bool) : bool * (string * list bool) :=
  let '(output, show_variable) := s in
  let ct_proto := MPModelProto.constraint (proto_ e) cst_index in
  let name := GetConstraintName e cst_index in
  let line_breaker := LineBreaker.new (lp_max_line_length FLAGS) in
  let line_breaker :=
    LineBreaker.Consume (kNumFormattingChars + size name) line_breaker in
  match for_each (LpConstraintTerm e) (MPConstraintProto.row ct_proto)
                 (line_breaker, show_variable) with
  | (false, _) => (false, s)
  | (true, (line_breaker, show_variable)) =>
      (true, (LpConstraintLines name (MPConstraintProto.lower_bound ct_proto)
                (MPConstraintProto.upper_bound ct_proto) line_breaker output,
              show_variable))
  end.

Definition shown (show_variable : list bool) (var_index : Z) : bool :=
  nth (Z.to_nat var_index) show_variable false.

(** The line of the Bounds section for a variable that is shown. *)
Definition LpBoundLine (e : MPModelProtoExporter) (var_index : Z) : string :=
  let var_proto := MPModelProto.variable (proto_ e) var_index in
  let lb := MPVariableProto.lower_bound var_proto in
  let ub := MPVariableProto.upper_bound var_proto in
  if MPVariableProto.is_integer var_proto
     && PrimFloat.eqb lb (round lb) && PrimFloat.eqb ub (round ub)
  then " " ++ Printf.fmt_f0 lb ++ " <= "
       ++ c_str (GetVariableName e var_index)
       ++ " <= " ++ Printf.fmt_f0 ub ++ nl
  else
    (if fne lb neg_infinity
     then " " ++ Printf.fmt_G false 16 lb ++ " <= " else "")
    ++ c_str (GetVariableName e var_index)
    ++ (if fne ub infinity
        then " <= " ++ Printf.fmt_G false 16 ub else "")
    ++ nl.

Definition LpBound (e : MPModelProtoExporter) (show_variable : list bool)
    (output : string) (var_index : Z) : string :=
  if shown show_variable var_index
  then output ++ LpBoundLine e var_index else output.

Definition LpBinary (e : MPModelProtoExporter) (show_variable : list bool)
    (output : string) (var_index : Z) : string :=
  if shown show_variable var_index
  then if IsBoolean (MPModelProto.variable (proto_ e) var_index)
       then output ++ " " ++ c_str (GetVariableName e var_index) ++ nl
       else output
  else output.

Definition LpGeneral (e : MPModelProtoExporter) (show_variable : list bool)
    (output : string) (var_index : Z) : string :=
  if shown show_variable var_index
  then let var_proto := MPModelProto.variable (proto_ e) var_index in
       if MPVariableProto.is_integer var_proto && negb (IsBoolean var_proto)
       then output ++ " " ++ c_str (GetVariableName e var_index) ++ nl
       else output
  else output.

(** From the Bounds section to the end of the text. *)
Definition LpTail (e : MPModelProtoExporter) (show_variable : list bool)
    (output : string) : string :=
  let m := proto_ e in
  let vars := range (MPModelProto.variable_size m) in
  let output := output ++ "Bounds" ++ nl in
  let output := if fne (MPModelProto.objective_offset m) 0
                then output ++ " 1 <= Constant <= 1" ++ nl else output in
  let output := fold_left (LpBound e show_variable) vars output in
  let output :=
    if 0 <? num_binary_variables_ e
    then fold_left (LpBinary e show_variable) vars (output ++ "Binaries" ++ nl)
    else output in
  let output :=
    if 0 <? num_integer_variables_ e
    then fold_left (LpGeneral e show_variable) vars (output ++ "Generals" ++ nl)
    else output in
  output ++ "End" ++ nl.

(** The text of the LP export, from [output->clear()] on, for the exporter
    object as the assignments at the head of the method leave it. *)
Definition LpRender (e : MPModelProtoExporter) : string * Outcome :=
  let m := proto_ e in
  let output := "" in
  let output := AppendComments e backslash output in
  let output :=
    output ++ (if MPModelProto.maximize m then "Maximize" else "Minimize")
    ++ nl in
  let obj_line_breaker := LineBreaker.new (lp_max_line_length FLAGS) in
  let obj_line_breaker := LineBreaker.Append " Obj: " obj_line_breaker in
  let obj_line_breaker :=
    if fne (MPModelProto.objective_offset m) 0
    then LineBreaker.Append
           (Printf.fmt_G true 16 (MPModelProto.objective_offset m)
            ++ " Constant ") obj_line_breaker
    else obj_line_breaker in
  let show_variable :=
    repeat (lp_shows_unused_variables FLAGS)
           (Z.to_nat (MPModelProto.variable_size m)) in
  match for_each (LpObjectiveTerm e) (range (MPModelProto.variable_size m))
                 (obj_line_breaker, show_variable) with
  | (false, _) => (output, Failed OutOfRangeReference)
  | (true, (obj_line_breaker, show_variable)) =>
      let output := output ++ LineBreaker.GetOutput obj_line_breaker
                    ++ nl ++ "Subject to" ++ nl in
      match for_each (LpConstraint e)
                     (range (MPModelProto.constraint_size m))
                     (output, show_variable) with
      | (false, (output, _)) => (output, Failed OutOfRangeReference)
      | (true, (output, show_variable)) =>
          (LpTail e show_variable output, Done)
      end
  end.

Definition ExportModelAsLpFormat (obfuscated : bool)
    (e : MPModelProtoExporter) (output : string)
    : MPModelProtoExporter * string * Outcome :=
  if negb obfuscated && negb (CheckAllNamesValidity e)
  then (e, output, Failed InvalidName)
  else
    let '(e, _) := ensure_setup e in
    let e := set_flags obfuscated (use_fixed_mps_format_ e) e in
    let '(output, outcome) := LpRender e in
    (e, output, outcome).

(** *** MPS format *)

Definition kFixedMpsDoubleWidth : Z := 12.

(** The loop of [AppendMpsPair] that lowers the precision until the value
    fits the field; it is entered with precision 12 and has stopped by
    precision 1. *)
Fixpoint fit_value (precision : nat) (value : float) : string :=
  let value_str := Printf.fmt_G false (Z.of_nat precision) value in
  match precision with
  | O => value_str
  | S precision' =>
      if kFixedMpsDoubleWidth <? size value_str
      then fit_value precision' value
      else value_str
  end.

Definition AppendMpsPair (e : MPModelProtoExporter) (name : string)
    (value : float) (output : string) : string :=
  if use_fixed_mps_format_ e
  then output ++ "  " ++ Printf.pad_right 8 (c_str name) ++ "  "
       ++ Printf.pad_left 12 (fit_value 12 value) ++ " "
  else output ++ "  " ++ Printf.pad_right 16 (c_str name) ++ "  "
       ++ Printf.pad_left 21 (Printf.fmt_G false 16 value) ++ " ".

Definition AppendMpsLineHeader (e : MPModelProtoExporter) (id name : string)
    (output : string) : string :=
  if use_fixed_mps_format_ e
  then output ++ " " ++ Printf.pad_right 2 (c_str id) ++ " "
       ++ Printf.pad_right 8 (c_str name)
  else output ++ " " ++ Printf.pad_right 2 (c_str id) ++ "  "
       ++ Printf.pad_right 16 (c_str name).

Definition AppendMpsLineHeaderWithNewLine (e : MPModelProtoExporter)
    (id name : string) (output : string) : string :=
  AppendMpsLineHeader e id name output ++ nl.

Definition AppendNewLineIfTwoColumns (s : MPModelProtoExporter * string)
    : MPModelProtoExporter * string :=
  let '(e, output) := s in
  let column := current_mps_column_ e + 1 in
  if column =? 2
  then (set_column 0 e, output ++ nl)
  else (set_column column e, output).

Definition AppendMpsTermWithContext (head_name name : string) (value : float)
    (s : MPModelProtoExporter * string) : MPModelProtoExporter * string :=
  let '(e, output) := s in
  let output := if current_mps_column_ e =? 0
                then AppendMpsLineHeader e "" head_name output else output in
  AppendNewLineIfTwoColumns (e, AppendMpsPair e name value output).

Definition AppendMpsBound (e : MPModelProtoExporter)
    (bound_type name : string) (value : float) (output : string) : string :=
  AppendMpsPair e name value (AppendMpsLineHeader e bound_type "BOUND" output)
  ++ nl.

Definition kMpsFieldSize : Z := 8.

Definition CanUseFixedMpsFormat (e : MPModelProtoExporter) : bool :=
  if use_obfuscated_names_ e
  then (num_digits_for_constraints_ e <? kMpsFieldSize)
       && (num_digits_for_variables_ e <? kMpsFieldSize)
  else
    forallb (fun ct_proto =>
               negb (kMpsFieldSize <? size (MPConstraintProto.name ct_proto)))
            (MPModelProto.constraints (proto_ e))
    && forallb (fun var_proto =>
                  negb (kMpsFieldSize <? size (MPVariableProto.name var_proto)))
               (MPModelProto.variables (proto_ e)).

Definition Transpose := list (list (Z * float)).

(** The body of the loop over the variables in [AppendMpsColumns]. *)
Definition AppendMpsColumn (integrality : bool) (transpose : Transpose)
    (s : MPModelProtoExporter * string) (var_index : Z)
    : MPModelProtoExporter * string :=
  let '(e, output) := s in
  let var_proto := MPModelProto.variable (proto_ e) var_index in
  if negb (Bool.eqb (MPVariableProto.is_integer var_proto) integrality)
  then s
  else
    let var_name := GetVariableName e var_index in
    let s := (set_column 0 e, output) in
    let s :=
      if fne (MPVariableProto.objective_coefficient var_proto) 0
      then AppendMpsTermWithContext var_name "COST"
             (MPVariableProto.objective_coefficient var_proto) s
      else s in
    let s :=
      fold_left
        (fun s (cst_index_and_coeff : Z * float) =>
           AppendMpsTermWithContext var_name
             (GetConstraintName e (fst cst_index_and_coeff))
             (snd cst_index_and_coeff) s)
        (nth (Z.to_nat var_index) transpose []) s in
    AppendNewLineIfTwoColumns s.

Definition AppendMpsColumns (integrality : bool) (transpose : Transpose)
    (s : MPModelProtoExporter * string) : MPModelProtoExporter * string :=
  let '(e, output) := s in
  fold_left (AppendMpsColumn integrality transpose)
            (range (MPModelProto.variable_size (proto_ e)))
            (set_column 0 e, output).

(** The body of the loop of the ROWS section. *)
Definition MpsRow (e : MPModelProtoExporter) (rows_section : string)
    (cst_index : Z) : string :=
  let ct_proto := MPModelProto.constraint (proto_ e) cst_index in
  let lb := MPConstraintProto.lower_bound ct_proto in
  let ub := MPConstraintProto.upper_bound ct_proto in
  let cst_name := GetConstraintName e cst_index in
  if PrimFloat.eqb lb ub
  then AppendMpsLineHeaderWithNewLine e "E" cst_name rows_section
  else if PrimFloat.eqb lb neg_infinity
  then AppendMpsLineHeaderWithNewLine e "L" cst_name rows_section
  else AppendMpsLineHeaderWithNewLine e "G" cst_name rows_section.

(** The body of the inner loop that builds the transpose. *)
Definition TransposeEntry (e : MPModelProtoExporter) (cst_index : Z)
    (entry : Z * float) (transpose : Transpose) : bool * Transpose :=
  let '(var_index, coeff) := entry in
  if (var_index <? 0)
     || (MPModelProto.variable_size (proto_ e) <=? var_index)
  then (false, transpose)
  else if fne coeff 0
  then (true, vector_set (Z.to_nat var_index)
                (nth (Z.to_nat var_index) transpose []
                 ++ [(cst_index, coeff)])%list transpose)
  else (true, transpose).

Definition TransposeRow (e : MPModelProtoExporter) (cst_index : Z)
    (transpose : Transpose) : bool * Transpose :=
  for_each (TransposeEntry e cst_index)
    (MPConstraintProto.row (MPModelProto.constraint (proto_ e) cst_index))
    transpose.

Definition BuildTranspose (e : MPModelProtoExporter) : bool * Transpose :=
  for_each (TransposeRow e)
    (range (MPModelProto.constraint_size (proto_ e)))
    (repeat [] (Z.to_nat (MPModelProto.variable_size (proto_ e)))).

(** The body of the loop of the RHS section. *)
Definition MpsRhs (s : MPModelProtoExporter * string) (cst_index : Z)
    : MPModelProtoExporter * string :=
  let e := fst s in
  let ct_proto := MPModelProto.constraint (proto_ e) cst_index in
  let lb := MPConstraintProto.lower_bound ct_proto in
  let ub := MPConstraintProto.upper_bound ct_proto in
  let cst_name := GetConstraintName e cst_index in
  if fne lb neg_infinity
  then AppendMpsTermWithContext "RHS" cst_name lb s
  else if fne ub infinity
  then AppendMpsTermWithContext "RHS" cst_name ub s
  else s.

(** The body of the loop of the RANGES section. *)
Definition MpsRange (s : MPModelProtoExporter * string) (cst_index : Z)
    : MPModelProtoExporter * string :=
  let e := fst s in
  let ct_proto := MPModelProto.constraint (proto_ e) cst_index in
  let range := PrimFloat.abs (MPConstraintProto.upper_bound ct_proto
                              - MPConstraintProto.lower_bound ct_proto) in
  if fne range 0 && fne range infinity
  then AppendMpsTermWithContext "RANGE" (GetConstraintName e cst_index) range s
  else s.

(** The body of the loop of the BOUNDS section. *)
Definition MpsBound (e : MPModelProtoExporter) (bounds_section : string)
    (var_index : Z) : string :=
  let var_proto := MPModelProto.variable (proto_ e) var_index in
  let lb := MPVariableProto.lower_bound var_proto in
  let ub := MPVariableProto.upper_bound var_proto in
  let var_name := GetVariableName e var_index in
  if MPVariableProto.is_integer var_proto
  then
    if IsBoolean var_proto
    then AppendMpsLineHeader e "BV" "BOUND" bounds_section
         ++ "  " ++ c_str var_name ++ nl
    else
      let bounds_section :=
        if fne lb 0 then AppendMpsBound e "LI" var_name lb bounds_section
        else bounds_section in
      if fne ub infinity
      then AppendMpsBound e "UI" var_name ub bounds_section
      else bounds_section
  else
    if PrimFloat.eqb lb neg_infinity && PrimFloat.eqb ub infinity
    then AppendMpsLineHeader e "FR" "BOUND" bounds_section
         ++ "  " ++ c_str var_name ++ nl
    else if PrimFloat.eqb lb ub
    then AppendMpsBound e "FX" var_name lb bounds_section
    else
      let bounds_section :=
        if fne lb 0 then AppendMpsBound e "LO" var_name lb bounds_section
        else if PrimFloat.eqb ub infinity
        then AppendMpsLineHeader e "PL" "BOUND" bounds_section
             ++ "  " ++ c_str var_name ++ nl
        else bounds_section in
      if fne ub infinity
      then AppendMpsBound e "UP" var_name ub bounds_section
      else bounds_section.

Definition is_empty (s : string) : bool :=
  match s with EmptyString => true | _ => false end.

(** [if (!section.empty()) *output += title + section] *)
Definition append_section (title section output : string) : string :=
  if is_empty section then output else output ++ title ++ nl ++ section.

Definition kIntMarker (a b c : string) : string :=
  "  " ++ Printf.pad_right 10 a ++ Printf.pad_right 36 b
  ++ Printf.pad_right 10 c ++ nl.

(** The text up to and including the ROWS section, which is in [output]
    when the transpose is built. *)
Definition MpsHead (e : MPModelProtoExporter) : string :=
  let m := proto_ e in
  let output := AppendComments e star "" in
  let output := output ++ Printf.pad_right 14 "NAME"
                ++ c_str (MPModelProto.name m) ++ nl in
  let rows_section := AppendMpsLineHeaderWithNewLine e "N" "COST" "" in
  let rows_section :=
    fold_left (MpsRow e) (range (MPModelProto.constraint_size m))
              rows_section in
  append_section "ROWS" rows_section output.

(** From the COLUMNS section to the end of the text. *)
Definition MpsTail (e : MPModelProtoExporter) (transpose : Transpose)
    (output : string) : MPModelProtoExporter * string :=
  let m := proto_ e in
  let csts := range (MPModelProto.constraint_size m) in
  let '(e, columns_section) := AppendMpsColumns true transpose (e, "") in
  let columns_section :=
    if is_empty columns_section then columns_section
    else kIntMarker "INTSTART" "'MARKER'" "'INTORG'" ++ columns_section
         ++ kIntMarker "INTEND" "'MARKER'" "'INTEND'" in
  let '(e, columns_section) :=
    AppendMpsColumns false transpose (e, columns_section) in
  let output := append_section "COLUMNS" columns_section output in
  let '(e, rhs_section) :=
    AppendNewLineIfTwoColumns (fold_left MpsRhs csts (set_column 0 e, "")) in
  let output := append_section "RHS" rhs_section output in
  let '(e, ranges_section) :=
    AppendNewLineIfTwoColumns (fold_left MpsRange csts (set_column 0 e, "")) in
  let output := append_section "RANGES" ranges_section output in
  let e := set_column 0 e in
  let bounds_section :=
    fold_left (MpsBound e) (range (MPModelProto.variable_size m)) "" in
  let output := append_section "BOUNDS" bounds_section output in
  (e, output ++ "ENDATA" ++ nl).

(** The text of the MPS export, from [output->clear()] on. *)
Definition MpsRender (e : MPModelProtoExporter)
    : MPModelProtoExporter * string * Outcome :=
  let e := set_column 0 e in
  let output := MpsHead e in
  match BuildTranspose e with
  | (false, _) => (e, output, Failed OutOfRangeReference)
  | (true, transpose) =>
      let '(e, output) := MpsTail e transpose output in
      (e, output, Done)
  end.

Definition ExportModelAsMpsFormat (fixed_format obfuscated : bool)
    (e : MPModelProtoExporter) (output : string)
    : MPModelProtoExporter * string * Outcome :=
  if negb obfuscated && negb (CheckAllNamesValidity e)
  then (e, output, Failed InvalidName)
  else
    let '(e, _) := ensure_setup e in
    let e := set_flags obfuscated fixed_format e in
    let e := if fixed_format && negb (CanUseFixedMpsFormat e)
             then set_flags obfuscated false e else e in
    MpsRender e.

End WithFlags.

(** ** Text of the MPS entries, for the statements below *)

(** The value field of an MPS entry. *)
Definition mps_value_text (e : MPModelProtoExporter) (value : float) : string :=
  if use_fixed_mps_format_ e
  then Printf.pad_left 12 (fit_value 12 value)
  else Printf.pad_left 21 (Printf.fmt_G false 16 value).

(** A name field followed by a value field; the name is printed up to its
    first NUL. *)
Definition mps_pair (e : MPModelProtoExporter) (name : string) (value : float)
    : string :=
  "  " ++ (if use_fixed_mps_format_ e then Printf.pad_right 8 (c_str name)
           else Printf.pad_right 16 (c_str name))
  ++ "  " ++ mps_value_text e value ++ " ".

(** The first two fields of an MPS line, each printed up to its first NUL. *)
Definition mps_line_header (e : MPModelProtoExporter) (id name : string)
    : string :=
  if use_fixed_mps_format_ e
  then " " ++ Printf.pad_right 2 (c_str id) ++ " "
       ++ Printf.pad_right 8 (c_str name)
  else " " ++ Printf.pad_right 2 (c_str id) ++ "  "
       ++ Printf.pad_right 16 (c_str name).

(** A row of the BOUNDS section that carries a value. *)
Definition mps_bound_row (e : MPModelProtoExporter) (bound_type name : string)
    (value : float) : string :=
  mps_line_header e bound_type "BOUND" ++ mps_pair e name value ++ nl.

(** Every row index of the model is within the variables. *)
Definition row_in_range (m : MPModelProto.t) (entry : Z * float) : bool :=
  (0 <=? fst entry) && (fst entry <? MPModelProto.variable_size m).

Definition all_in_range (m : MPModelProto.t) : bool :=
  forallb (fun ct => forallb (row_in_range m) (MPConstraintProto.row ct))
          (MPModelProto.constraints m).

(** An entry of some row that is out of range. *)
Definition out_of_range_entry (m : MPModelProto.t) (entry : Z * float) : Prop :=
  exists ct, In ct (MPModelProto.constraints m)
             /\ In entry (MPConstraintProto.row ct)
             /\ (fst entry < 0 \/ MPModelProto.variable_size m <= fst entry).

(** Every name that is declared passes [CheckNameValidity]. *)
Definition declared_names_valid (m : MPModelProto.t) : Prop :=
  (forall v n, In v (MPModelProto.variables m) ->
               MPVariableProto.opt_name v = Some n ->
               CheckNameValidity n = true)
  /\ (forall c n, In c (MPModelProto.constraints m) ->
                  MPConstraintProto.opt_name c = Some n ->
                  CheckNameValidity n = true).

(** The sizes of the repeated fields are C++ [int]s. *)
Definition fits_int (m : MPModelProto.t) : Prop :=
  MPModelProto.variable_size m < 2 ^ 31
  /\ MPModelProto.constraint_size m < 2 ^ 31.

(** The three components of what an export call hands back. *)
Definition exporter_of (r : MPModelProtoExporter * string * Outcome) :=
  fst (fst r).
Definition output_of (r : MPModelProtoExporter * string * Outcome) : string :=
  snd (fst r).
Definition outcome_of (r : MPModelProtoExporter * string * Outcome) : Outcome :=
  snd r.

(** The exporter objects a caller can hold: a new one, or one on which the
    export methods were called, with any flags and arguments. *)
Inductive reachable (m : MPModelProto.t) : MPModelProtoExporter -> Prop :=
  | reachable_new : reachable m (new_exporter m)
  | reachable_lp : forall FLAGS obfuscated e output,
      reachable m e ->
      reachable m
        (exporter_of (ExportModelAsLpFormat FLAGS obfuscated e output))
  | reachable_mps : forall FLAGS fixed_format obfuscated e output,
      reachable m e ->
      reachable m
        (exporter_of
           (ExportModelAsMpsFormat FLAGS fixed_format obfuscated e output)).

(** Lines of text, each ended by a line feed. *)
Fixpoint unlines (ls : list string) : string :=
  match ls with
  | [] => ""
  | l :: r => l ++ nl ++ unlines r
  end.

(** The lines of a text: the pieces between its line feeds. *)
Fixpoint lines_of (s : string) : list string :=
  match s with
  | EmptyString => [""]
  | String c r =>
      if Ascii.eqb c (ascii_of_nat 10) then "" :: lines_of r
      else match lines_of r with
           | [] => [String c ""]
           | l :: ls => String c l :: ls
           end
  end.

(** Tokens handed to [LineBreaker::Append] one after the other. *)
Definition AppendAll (tokens : list string) (b : LineBreaker.t)
    : LineBreaker.t :=
  fold_left (fun b s => LineBreaker.Append s b) tokens b.

(** The texts that hold the tokens in order, whole, each one either next to
    the one before it or after a line break (a line feed and a space). *)
Inductive Unsplit : list string -> string -> Prop :=
  | Unsplit_nil : Unsplit [] ""
  | Unsplit_same_line : forall s tokens text,
      Unsplit tokens text -> Unsplit (s :: tokens) (s ++ text)
  | Unsplit_new_line : forall s tokens text,
      Unsplit tokens text -> Unsplit (s :: tokens) (nl ++ " " ++ s ++ text).

(** *** The LP text up to a constraint

    What the LP export has appended to [output] when it enters the loop
    over the constraints, and what it appends for one constraint whose
    indices are within range. *)

(** The term [WriteLpTerm] writes for an index within range; the name goes
    through [%s]. *)
Definition lp_term (e : MPModelProtoExporter) (var_index : Z)
    (coefficient : float) : string :=
  if fne coefficient 0
  then Printf.fmt_G true 16 coefficient ++ " "
       ++ c_str (GetVariableName e var_index) ++ " "
  else "".

(** The tokens handed to the line breaker of the objective. *)
Definition lp_objective_tokens (e : MPModelProtoExporter) : list string :=
  let m := proto_ e in
  let offset :=
    if fne (MPModelProto.objective_offset m) 0
    then [Printf.fmt_G true 16 (MPModelProto.objective_offset m)
          ++ " Constant "]
    else [] in
  let terms :=
    map (fun var_index =>
           lp_term e var_index
             (MPVariableProto.objective_coefficient
                (MPModelProto.variable m var_index)))
      (range (MPModelProto.variable_size m)) in
  " Obj: " :: List.app offset terms.

(** The comments, the objective and the title of the constraints. *)
Definition lp_head (FLAGS : Flags) (e : MPModelProtoExporter) : string :=
  AppendComments FLAGS e backslash ""
  ++ (if MPModelProto.maximize (proto_ e) then "Maximize" else "Minimize")
  ++ nl
  ++ LineBreaker.GetOutput
       (AppendAll (lp_objective_tokens e)
          (LineBreaker.new (lp_max_line_length FLAGS)))
  ++ nl ++ "Subject to" ++ nl.

(** The lines of one constraint, its terms being in [line_breaker]: the
    name (whole: it is appended as a [std::string]), the terms as the line
    breaker has wrapped them, and the relation, on a line of its own when
    [WillFit] refuses it; one line for an equality or a single bound, two
    lines, under the names suffixed [_rhs] and [_lhs], for a range. *)
Definition lp_constraint_lines (name : string) (lb ub : float)
    (line_breaker : LineBreaker.t) : string :=
  let terms := LineBreaker.GetOutput line_breaker in
  let line (suffix relation : string) :=
    " " ++ name ++ suffix ++ ": " ++ terms
    ++ (if LineBreaker.WillFit relation line_breaker then "" else nl ++ " ")
    ++ relation in
  if PrimFloat.eqb lb ub
  then " " ++ name ++ ": "
       ++ LineBreaker.GetOutput
            (LineBreaker.Append (" = " ++ Printf.fmt_G false 16 ub ++ nl)
               line_breaker)
  else
    (if fne ub infinity
     then line (if fne lb neg_infinity then "_rhs" else "")
               (" <= " ++ Printf.fmt_G false 16 ub ++ nl)
     else "")
    ++ (if fne lb neg_infinity
        then line (if fne ub infinity then "_lhs" else "")
                  (" >= " ++ Printf.fmt_G false 16 lb ++ nl)
        else "").

Definition lp_constraint_text (FLAGS : Flags) (e : MPModelProtoExporter)
    (cst_index : Z) : string :=
  let ct_proto := MPModelProto.constraint (proto_ e) cst_index in
  let name := GetConstraintName e cst_index in
  lp_constraint_lines name (MPConstraintProto.lower_bound ct_proto)
    (MPConstraintProto.upper_bound ct_proto)
    (AppendAll
       (map (fun entry : Z * float => lp_term e (fst entry) (snd entry))
          (MPConstraintProto.row ct_proto))
       (LineBreaker.Consume (kNumFormattingChars + size name)
          (LineBreaker.new (lp_max_line_length FLAGS)))).

Fixpoint concat_texts (texts : list string) : string :=
  match texts with
  | [] => ""
  | t :: r => t ++ concat_texts r
  end.

(** *** The MPS text up to the transpose

    The comments, the NAME line and the ROWS section, which has the row of
    the objective and one row for each constraint: E for an equality, L for
    a constraint without a lower bound, G otherwise. *)
Definition mps_row_type (lb ub : float) : string :=
  if PrimFloat.eqb lb ub then "E"
  else if PrimFloat.eqb lb neg_infinity then "L" else "G".

Definition mps_row_text (e : MPModelProtoExporter) (cst_index : Z) : string :=
  let ct_proto := MPModelProto.constraint (proto_ e) cst_index in
  mps_line_header e
    (mps_row_type (MPConstraintProto.lower_bound ct_proto)
       (MPConstraintProto.upper_bound ct_proto))
    (GetConstraintName e cst_index)
  ++ nl.

Definition mps_head (FLAGS : Flags) (e : MPModelProtoExporter) : string :=
  AppendComments FLAGS e star ""
  ++ "NAME          " ++ c_str (MPModelProto.name (proto_ e)) ++ nl
  ++ "ROWS" ++ nl
  ++ mps_line_header e "N" "COST" ++ nl
  ++ concat_texts
       (map (mps_row_text e)
          (range (MPModelProto.constraint_size (proto_ e)))).

(** No number of the model is a NaN. *)
Definition not_nan (x : float) : bool := negb (PrimFloat.is_nan x).

Definition numbers_not_nan (m : MPModelProto.t) : bool :=
  not_nan (MPModelProto.objective_offset m)
  && forallb (fun var => not_nan (MPVariableProto.lower_bound var)
                         && not_nan (MPVariableProto.upper_bound var)
                         && not_nan (MPVariableProto.objective_coefficient var))
       (MPModelProto.variables m)
  && forallb (fun ct => not_nan (MPConstraintProto.lower_bound ct)
                        && not_nan (MPConstraintProto.upper_bound ct)
                        && forallb (fun entry : Z * float =>
                                      not_nan (snd entry))
                             (MPConstraintProto.row ct))
       (MPModelProto.constraints m).

(** The digit widths of the exporter are the ones [Setup] computes. *)
Definition setup_state (e : MPModelProtoExporter) : Prop :=
  num_digits_for_variables_ e
  = size (Printf.fmt_d (MPModelProto.variable_size (proto_ e)))
  /\ num_digits_for_constraints_ e
     = size (Printf.fmt_d (MPModelProto.constraint_size (proto_ e))).


(** Every name of the proto, [name()] being empty where none is declared,
    has at most 8 characters. *)
Definition declared_names_fit (m : MPModelProto.t) : Prop :=
  (forall ct, In ct (MPModelProto.constraints m) ->
              size (MPConstraintProto.name ct) <= 8)
  /\ (forall var, In var (MPModelProto.variables m) ->
                  size (MPVariableProto.name var) <= 8).


(** The digit widths of an exporter before and after [Setup]. *)
Definition widths_known (e : MPModelProtoExporter) : Prop :=
  (setup_done_ e = false
   /\ num_digits_for_variables_ e = 0 /\ num_digits_for_constraints_ e = 0)
  \/ (setup_done_ e = true /\ setup_state e).

Fixpoint all_chars (p : ascii -> bool) (s : string) : bool :=
  match s with
  | EmptyString => true
  | String c r => p c && all_chars p r
  end.

Definition is_digit (c : ascii) : bool := contains_char c "0123456789".

(** A text that ends with a line feed, and one that is empty or does. *)
Definition terminated (s : string) : Prop := exists before, s = before ++ nl.
Definition closed (s : string) : Prop := s = "" \/ terminated s.

(** The last line of a text is [line]. *)
Definition last_line_is (line text : string) : Prop :=
  exists before, text = before ++ nl ++ line ++ nl.

(** Two exporter objects that differ at most in [current_mps_column_]. *)
Definition same_but_column (e e' : MPModelProtoExporter) : Prop :=
  e' = set_column (current_mps_column_ e') e.

(** In a section written two entries to the line, the text is closed
    whenever the next entry starts a line. *)
Definition column_closed (s : MPModelProtoExporter * string) : Prop :=
  (current_mps_column_ (fst s) = 0 /\ closed (snd s))
  \/ current_mps_column_ (fst s) = 1.

(** The number that a string of decimal digits writes. *)
Definition digit_value (c : ascii) : Z := Z.of_nat (nat_of_ascii c) - 48.

Fixpoint parse_decimal_from (acc : Z) (s : string) : Z :=
  match s with
  | EmptyString => acc
  | String c r => parse_decimal_from (10 * acc + digit_value c) r
  end.

Definition parse_decimal (s : string) : Z := parse_decimal_from 0 s.


(** A token without a line feed in it. *)
Definition no_line_feed (s : string) : bool :=
  negb (contains_char (ascii_of_nat 10) s).

(** How an export call returns, read off the model and the exporter: the
    name check comes first, then the range check. *)
Definition expected_outcome (obfuscated : bool) (e : MPModelProtoExporter)
    : Outcome :=
  if negb obfuscated && negb (CheckAllNamesValidity e)
  then Failed InvalidName
  else if all_in_range (proto_ e) then Done
  else Failed OutOfRangeReference.

(** The model with another objective sense and offset, everything else the
    same, and the exporter object with that model in place of its own. *)
Definition with_objective (maximize : bool) (objective_offset : float)
    (m : MPModelProto.t) : MPModelProto.t :=
  MPModelProto.mk (MPModelProto.opt_name m) maximize objective_offset
    (MPModelProto.variables m) (MPModelProto.constraints m).

Definition other_objective (maximize : bool) (objective_offset : float)
    (e : MPModelProtoExporter) : MPModelProtoExporter :=
  mkExporter (with_objective maximize objective_offset (proto_ e))
    (num_integer_variables_ e) (num_binary_variables_ e)
    (num_continuous_variables_ e) (num_digits_for_variables_ e)
    (num_digits_for_constraints_ e) (current_mps_column_ e)
    (use_fixed_mps_format_ e) (use_obfuscated_names_ e) (setup_done_ e).

Definition other_objective_state (maximize : bool) (objective_offset : float)
    (s : MPModelProtoExporter * string) : MPModelProtoExporter * string :=
  (other_objective maximize objective_offset (fst s), snd s).

(** ** Sample models *)

Module Samples.
Local Open Scope float_scope.

(** A continuous and an integer variable fixed at 5, an integer variable
    on [[0, +inf)], and a constraint ranged on [[2, 7]]. *)
Definition x := MPVariableProto.mk (Some "x") 5 5 false 1.
Definition k := MPVariableProto.mk (Some "k") 5 5 true 0.
Definition n := MPVariableProto.mk (Some "n") 0 infinity true 2.
Definition c :=
  MPConstraintProto.mk (Some "c") 2 7 [(0%Z, 1); (2%Z, -3.5)].
Definition model : MPModelProto.t :=
  MPModelProto.mk (Some "sample") false 0 [x; k; n] [c].

(** A model whose only constraint refers to a variable 3 that does not
    exist, with the coefficient 0. *)
Definition dangling : MPModelProto.t :=
  MPModelProto.mk (Some "dangling") false 0 [x]
    [MPConstraintProto.mk (Some "c") 2 7 [(0%Z, 1); (3%Z, 0)]].

(** Two variables in the objective, to be exported with a line length
    of 10. *)
Definition two_terms : MPModelProto.t :=
  MPModelProto.mk None false 0
    [MPVariableProto.mk (Some "x") 0 infinity false 1;
     MPVariableProto.mk (Some "y") 0 infinity false 1] [].
Definition narrow : Flags :=
  {| lp_shows_unused_variables := false; lp_max_line_length := 10 |}.


(** A model with a variable name that the name check refuses. *)
Definition ill_named : MPModelProto.t :=
  MPModelProto.mk (Some "ill") false 0
    [MPVariableProto.mk (Some "a b") 0 infinity false 1] [].

(** The same with a constraint that refers to a variable 3 that does not
    exist, with the coefficient 0. *)
Definition ill_named_dangling : MPModelProto.t :=
  MPModelProto.mk (Some "ill") false 0
    [MPVariableProto.mk (Some "a b") 0 infinity false 1]
    [MPConstraintProto.mk (Some "c") 2 7 [(0%Z, 1); (3%Z, 0)]].

(** A model with a variable name of nine characters. *)
Definition long_named : MPModelProto.t :=
  MPModelProto.mk (Some "long") false 0
    [MPVariableProto.mk (Some "quantity1") 0 infinity false 1] [].

(** Constraints without a name: bounded above, bounded below, not bounded. *)
Definition one_sided : MPModelProto.t :=
  MPModelProto.mk None false 0 [x]
    [MPConstraintProto.mk None neg_infinity 10 [(0%Z, 1)];
     MPConstraintProto.mk None 2.5 infinity [(0%Z, 1)];
     MPConstraintProto.mk None neg_infinity infinity [(0%Z, 1)]].



(** The exporter as the MPS export of [model] leaves it. *)
Definition exporter : MPModelProtoExporter :=
  exporter_of
    (ExportModelAsMpsFormat default_flags true false (new_exporter model) "").
End Samples.

(** * Properties *)

(** ** Strings *)

Lemma append_assoc (a b c : string) : (a ++ b) ++ c = a ++ (b ++ c).
Proof. induction a as [|x a IH]; simpl; [reflexivity | now rewrite IH]. Qed.

Lemma append_nil_r (a : string) : a ++ "" = a.
Proof. induction a as [|x a IH]; simpl; [reflexivity | now rewrite IH]. Qed.

Lemma length_append (a b : string) :
  String.length (a ++ b) = (String.length a + String.length b)%nat.
Proof. induction a as [|x a IH]; simpl; [reflexivity | now rewrite IH]. Qed.

Lemma length_replicate (n : nat) (c : ascii) :
  String.length (replicate n c) = n.
Proof. induction n as [|n IH]; simpl; [reflexivity | now rewrite IH]. Qed.

Lemma size_append (a b : string) : size (a ++ b) = size a + size b.
Proof. unfold size. rewrite length_append. lia. Qed.

Ltac assoc := repeat rewrite append_assoc.


(** What is printed of a string is never longer than the string. *)
Lemma c_str_size (s : string) : size (c_str s) <= size s.
Proof.
  unfold size. induction s as [|c s IH]; [reflexivity|]. cbn [c_str].
  destruct (Ascii.eqb c Ascii.zero); cbn [String.length]; lia.
Qed.

(** ** The text of the MPS helpers *)

Lemma AppendMpsPair_text e name value output :
  AppendMpsPair e name value output = output ++ mps_pair e name value.
Proof.
  unfold AppendMpsPair, mps_pair, mps_value_text.
  destruct (use_fixed_mps_format_ e); reflexivity.
Qed.

Lemma AppendMpsLineHeader_text e id name output :
  AppendMpsLineHeader e id name output = output ++ mps_line_header e id name.
Proof.
  unfold AppendMpsLineHeader, mps_line_header.
  destruct (use_fixed_mps_format_ e); reflexivity.
Qed.

Lemma AppendMpsBound_text e bound_type name value output :
  AppendMpsBound e bound_type name value output
  = output ++ mps_bound_row e bound_type name value.
Proof.
  unfold AppendMpsBound, mps_bound_row.
  rewrite AppendMpsPair_text, AppendMpsLineHeader_text. now assoc.
Qed.

(** ** Doubles that the statements name *)

Local Open Scope float_scope.



Lemma IsBoolean_unbounded var :
  MPVariableProto.upper_bound var = infinity -> IsBoolean var = false.
Proof.
  intros H. unfold IsBoolean. rewrite H.
  change (PrimFloat.eqb (floor infinity) 1) with false.
  apply andb_false_r.
Qed.


(** ** The bounds of a variable (C2, C10) *)

(** C10.  An integer variable whose lower bound equals 0 and whose upper
    bound is +infinity is not boolean-shaped, and the loop of the BOUNDS
    section of the MPS export appends nothing for it: no LI row since the
    lower bound is 0, no UI row since the upper bound is infinite, and the
    PL and FR rows are on the branch of the continuous variables. *)
Theorem C10_integer_nonnegative_has_no_bound_row :
  forall (e : MPModelProtoExporter) (var_index : Z) (bounds_section : string),
    let var := MPModelProto.variable (proto_ e) var_index in
    MPVariableProto.is_integer var = true ->
    PrimFloat.eqb (MPVariableProto.lower_bound var) 0 = true ->
    MPVariableProto.upper_bound var = infinity ->
    IsBoolean var = false
    /\ MpsBound e bounds_section var_index = bounds_section.
Proof.
  intros e var_index bounds_section var Hint Hlb Hub.
  assert (Hbool : IsBoolean var = false) by now apply IsBoolean_unbounded.
  split; [exact Hbool|].
  unfold MpsBound. fold var.
  rewrite Hint, Hbool. unfold fne. rewrite Hlb, Hub. reflexivity.
Qed.

Lemma C10_witness :
  IsBoolean (MPModelProto.variable (proto_ Samples.exporter) 2) = false
  /\ MpsBound Samples.exporter "" 2 = "".
Proof.
  apply (C10_integer_nonnegative_has_no_bound_row Samples.exporter 2 "");
    reflexivity.
Defined.




(** ** Obfuscated names (C7) *)

(** C7.  With the obfuscate flag set, neither export returns through the
    name check, whatever the exporter object and the names of the model:
    the check is not evaluated. *)
Theorem C7_obfuscated_export_never_fails_on_names :
  forall (FLAGS : Flags) (fixed_format : bool) (e : MPModelProtoExporter)
         (output : string),
    outcome_of (ExportModelAsLpFormat FLAGS true e output)
    <> Failed InvalidName
    /\ outcome_of (ExportModelAsMpsFormat FLAGS fixed_format true e output)
       <> Failed InvalidName.
Proof.
  intros FLAGS fixed_format e output. split.
  - unfold ExportModelAsLpFormat. cbn [negb andb].
    destruct (ensure_setup e) as [e1 b].
    destruct (LpRender _ _) as [out [|why]] eqn:Hr; [discriminate|].
    unfold LpRender in Hr.
    destruct (for_each _ _ _) as [[|] [lbk sv]];
      [|injection Hr as _ <-; discriminate].
    destruct (for_each _ _ _) as [[|] [out' sv']];
      injection Hr as _ <-; discriminate.
  - unfold ExportModelAsMpsFormat. cbn [negb andb].
    destruct (ensure_setup e) as [e1 b]. unfold MpsRender.
    destruct (BuildTranspose _) as [[|] t]; [|discriminate].
    destruct (MpsTail _ _ _); discriminate.
Qed.

Local Close Scope float_scope.

(** ** Loops with an early return *)

Lemma for_each_succeeds {I S} (body : I -> S -> bool * S) (l : list I) :
  (forall i s, In i l -> fst (body i s) = true) ->
  forall s, fst (for_each body l s) = true.
Proof.
  induction l as [|i l IH]; intros Hbody s; [reflexivity|].
  cbn [for_each]. pose proof (Hbody i s (or_introl eq_refl)) as Hi.
  destruct (body i s) as [[|] s']; [|discriminate].
  apply IH. intros j t Hj. apply Hbody. now right.
Qed.

Lemma for_each_fails {I S} (body : I -> S -> bool * S) (l : list I) (i : I) :
  In i l -> (forall s, fst (body i s) = false) ->
  forall s, fst (for_each body l s) = false.
Proof.
  induction l as [|j l IH]; intros Hin Hbody s; [destruct Hin|].
  cbn [for_each]. destruct (body j s) as [[|] s'] eqn:Hj; [|reflexivity].
  destruct Hin as [->|Hin]; [|now apply IH].
  specialize (Hbody s). rewrite Hj in Hbody. discriminate.
Qed.

(** What a loop hands back satisfies every invariant of its body. *)
Lemma for_each_invariant {I S} (P : S -> Prop) (body : I -> S -> bool * S)
    (l : list I) :
  (forall i s, In i l -> P s -> P (snd (body i s))) ->
  forall s, P s -> P (snd (for_each body l s)).
Proof.
  induction l as [|i l IH]; intros Hbody s Hs; [exact Hs|].
  cbn [for_each]. pose proof (Hbody i s (or_introl eq_refl) Hs) as Hi.
  destruct (body i s) as [[|] s']; [|exact Hi].
  apply IH; [|exact Hi]. intros j t Hj. apply Hbody. now right.
Qed.

Lemma forallb_false_ex {A} (f : A -> bool) (l : list A) :
  forallb f l = false -> exists x, In x l /\ f x = false.
Proof.
  induction l as [|a l IH]; [discriminate|]. cbn [forallb].
  destruct (f a) eqn:Ha.
  - intros H. destruct (IH H) as (x & Hx & Hfx). exists x.
    split; [now right | exact Hfx].
  - intros _. exists a. split; [now left | exact Ha].
Qed.

Lemma In_range (n i : Z) : In i (range n) <-> 0 <= i < n.
Proof.
  unfold range. rewrite in_map_iff. split.
  - intros (k & <- & Hk). apply in_seq in Hk. lia.
  - intros Hi. exists (Z.to_nat i). split; [lia|]. apply in_seq. lia.
Qed.

Lemma In_constraints_index (m : MPModelProto.t) (ct : MPConstraintProto.t) :
  In ct (MPModelProto.constraints m) ->
  exists cst_index,
    In cst_index (range (MPModelProto.constraint_size m))
    /\ MPModelProto.constraint m cst_index = ct.
Proof.
  intros Hin.
  destruct (In_nth _ _ MPConstraintProto.default Hin) as (k & Hk & Hnth).
  exists (Z.of_nat k). split.
  - apply In_range. unfold MPModelProto.constraint_size. lia.
  - unfold MPModelProto.constraint. now rewrite Nat2Z.id.
Qed.

Lemma In_variables_index (m : MPModelProto.t) (v : MPVariableProto.t) :
  In v (MPModelProto.variables m) ->
  exists var_index,
    In var_index (range (MPModelProto.variable_size m))
    /\ MPModelProto.variable m var_index = v.
Proof.
  intros Hin.
  destruct (In_nth _ _ MPVariableProto.default Hin) as (k & Hk & Hnth).
  exists (Z.of_nat k). split.
  - apply In_range. unfold MPModelProto.variable_size. lia.
  - unfold MPModelProto.variable. now rewrite Nat2Z.id.
Qed.

Lemma constraint_In (m : MPModelProto.t) (cst_index : Z) :
  In cst_index (range (MPModelProto.constraint_size m)) ->
  In (MPModelProto.constraint m cst_index) (MPModelProto.constraints m).
Proof.
  intros Hi. apply In_range in Hi. unfold MPModelProto.constraint.
  apply nth_In. unfold MPModelProto.constraint_size in Hi. lia.
Qed.

Lemma variable_In (m : MPModelProto.t) (var_index : Z) :
  In var_index (range (MPModelProto.variable_size m)) ->
  In (MPModelProto.variable m var_index) (MPModelProto.variables m).
Proof.
  intros Hi. apply In_range in Hi. unfold MPModelProto.variable.
  apply nth_In. unfold MPModelProto.variable_size in Hi. lia.
Qed.

Lemma all_in_range_false (m : MPModelProto.t) :
  all_in_range m = false <-> exists entry, out_of_range_entry m entry.
Proof.
  unfold all_in_range, out_of_range_entry. split.
  - intros H. apply forallb_false_ex in H. destruct H as (ct & Hct & H).
    apply forallb_false_ex in H. destruct H as (entry & Hentry & H).
    exists entry, ct. repeat split; try assumption.
    unfold row_in_range in H. lia.
  - intros (entry & ct & Hct & Hentry & H).
    destruct (forallb _ (MPModelProto.constraints m)) eqn:Hall; [|reflexivity].
    rewrite forallb_forall in Hall. specialize (Hall ct Hct).
    rewrite forallb_forall in Hall. specialize (Hall entry Hentry).
    unfold row_in_range in Hall. lia.
Qed.

(** ** The exporter object through [Setup] *)

Lemma Setup_proto e : proto_ (fst (Setup e)) = proto_ e.
Proof. unfold Setup. now destruct (fold_left _ _ _). Qed.

Lemma ensure_setup_proto e : proto_ (fst (ensure_setup e)) = proto_ e.
Proof.
  unfold ensure_setup. destruct (setup_done_ e); [reflexivity|].
  apply Setup_proto.
Qed.

(** ** References out of range (C1, C9) *)

Lemma WriteLpTerm_out_of_range e var_index coefficient :
  var_index < 0 \/ MPModelProto.variable_size (proto_ e) <= var_index ->
  WriteLpTerm e var_index coefficient = (false, "").
Proof.
  intros H. unfold WriteLpTerm.
  destruct ((var_index <? 0) || _)%bool eqn:Hc; [reflexivity | lia].
Qed.

Lemma WriteLpTerm_in_range e var_index coefficient :
  0 <= var_index < MPModelProto.variable_size (proto_ e) ->
  fst (WriteLpTerm e var_index coefficient) = true.
Proof.
  intros H. unfold WriteLpTerm.
  destruct ((var_index <? 0) || _)%bool eqn:Hc; [lia|].
  now destruct (fne coefficient 0%float).
Qed.

Lemma TransposeEntry_out_of_range e cst_index var_index coefficient transpose :
  var_index < 0 \/ MPModelProto.variable_size (proto_ e) <= var_index ->
  TransposeEntry e cst_index (var_index, coefficient) transpose
  = (false, transpose).
Proof.
  intros H. unfold TransposeEntry.
  destruct ((var_index <? 0) || _)%bool eqn:Hc; [reflexivity | lia].
Qed.

Lemma LpConstraint_out_of_range FLAGS e cst_index entry s :
  In entry
     (MPConstraintProto.row (MPModelProto.constraint (proto_ e) cst_index)) ->
  fst entry < 0 \/ MPModelProto.variable_size (proto_ e) <= fst entry ->
  LpConstraint FLAGS e cst_index s = (false, s).
Proof.
  intros Hentry Hout. unfold LpConstraint. destruct s as [output show_variable].
  match goal with |- context [for_each ?b ?l ?s0] =>
    pose proof (for_each_fails b l entry Hentry) as Hf;
    specialize (fun H => Hf H s0);
    destruct (for_each b l s0) as [[|] [lbk sv]] end; [|reflexivity].
  cbn [fst] in Hf. discriminate Hf. intros [lbk' sv'].
  unfold LpConstraintTerm. destruct entry as [var_index coeff].
  now rewrite WriteLpTerm_out_of_range.
Qed.

Lemma LpObjective_succeeds FLAGS e s :
  fst (for_each (LpObjectiveTerm FLAGS e)
         (range (MPModelProto.variable_size (proto_ e))) s) = true.
Proof.
  apply for_each_succeeds. intros i [lbk sv] Hi. apply In_range in Hi.
  unfold LpObjectiveTerm.
  pose proof (WriteLpTerm_in_range e i
    (MPVariableProto.objective_coefficient
       (MPModelProto.variable (proto_ e) i)) Hi) as Hw.
  now destruct (WriteLpTerm _ _ _) as [[|] term].
Qed.

Lemma BuildTranspose_out_of_range e entry :
  out_of_range_entry (proto_ e) entry ->
  fst (BuildTranspose e) = false.
Proof.
  intros (ct & Hct & Hentry & Hout).
  destruct (In_constraints_index _ _ Hct) as (cst_index & Hidx & Heq).
  unfold BuildTranspose. apply (for_each_fails _ _ cst_index Hidx).
  intros t. unfold TransposeRow. rewrite Heq.
  apply (for_each_fails _ _ entry Hentry). intros t'.
  destruct entry as [var_index coeff].
  now rewrite TransposeEntry_out_of_range.
Qed.

Lemma is_empty_append (a b : string) :
  is_empty (a ++ b) = is_empty a && is_empty b.
Proof. now destruct a. Qed.

Lemma is_empty_false (a : string) : is_empty a = false -> a <> "".
Proof. now intros H ->. Qed.

Lemma AppendComments_text FLAGS e sep output :
  exists rest,
    AppendComments FLAGS e sep output
    = output ++ c_str sep ++ " Generated by MPModelProtoExporter" ++ nl
      ++ rest.
Proof.
  unfold AppendComments.
  destruct (lp_shows_unused_variables FLAGS); eexists; assoc; reflexivity.
Qed.

Lemma AppendComments_nonempty FLAGS e sep :
  is_empty (AppendComments FLAGS e sep "") = false.
Proof.
  destruct (AppendComments_text FLAGS e sep "") as (rest & ->).
  cbn [append]. rewrite is_empty_append. cbn. apply andb_false_r.
Qed.

Lemma LpConstraintLines_extends name lb ub line_breaker output :
  exists text,
    LpConstraintLines name lb ub line_breaker output = output ++ text.
Proof.
  unfold LpConstraintLines.
  destruct (PrimFloat.eqb lb ub); [eexists; reflexivity|].
  destruct (fne ub infinity), (fne lb neg_infinity);
    repeat match goal with
           | |- context [LineBreaker.WillFit ?r ?b] =>
               destruct (LineBreaker.WillFit r b)
           end;
    eexists; assoc; try reflexivity.
  symmetry. apply append_nil_r.
Qed.

Lemma LpConstraint_extends FLAGS e cst_index output show_variable :
  exists text,
    fst (snd (LpConstraint FLAGS e cst_index (output, show_variable)))
    = output ++ text.
Proof.
  unfold LpConstraint.
  destruct (for_each _ _ _) as [[|] [lbk sv]]; cbn [fst snd].
  - apply LpConstraintLines_extends.
  - exists "". symmetry. apply append_nil_r.
Qed.

Lemma LpConstraints_extend FLAGS e csts output show_variable :
  exists text,
    fst (snd (for_each (LpConstraint FLAGS e) csts (output, show_variable)))
    = output ++ text.
Proof.
  apply (for_each_invariant (fun s => exists text, fst s = output ++ text)).
  - intros i [out sv] _ (text & Hs). cbn [fst] in Hs. subst out.
    destruct (LpConstraint_extends FLAGS e i (output ++ text) sv) as (t & ->).
    exists (text ++ t). now assoc.
  - exists "". symmetry. apply append_nil_r.
Qed.

(** The LP text when a row has an entry out of range: the method returns
    false from the loop over the constraints, and [output] holds what the
    method had appended until then. *)
Lemma LpRender_out_of_range FLAGS e entry :
  out_of_range_entry (proto_ e) entry ->
  snd (LpRender FLAGS e) = Failed OutOfRangeReference
  /\ exists rest,
       fst (LpRender FLAGS e) = AppendComments FLAGS e backslash "" ++ rest.
Proof.
  intros (ct & Hct & Hentry & Hout).
  destruct (In_constraints_index _ _ Hct) as (cst_index & Hidx & Heq).
  unfold LpRender.
  match goal with |- context [for_each (LpObjectiveTerm FLAGS e) ?l ?s0] =>
    pose proof (LpObjective_succeeds FLAGS e s0) as Hobj;
    destruct (for_each (LpObjectiveTerm FLAGS e) l s0) as [[|] [lbk sv]]
  end; [|discriminate Hobj].
  match goal with |- context [for_each (LpConstraint FLAGS e) ?l (?o, sv)] =>
    pose proof (for_each_fails (LpConstraint FLAGS e) l cst_index Hidx) as Hf;
    specialize (fun H => Hf H (o, sv));
    destruct (LpConstraints_extend FLAGS e l o sv) as (text & Htext);
    destruct (for_each (LpConstraint FLAGS e) l (o, sv)) as [[|] [out sv']]
  end.
  - cbn [fst] in Hf. discriminate Hf. intros s.
    rewrite (LpConstraint_out_of_range FLAGS e cst_index entry s);
      [reflexivity| now rewrite Heq | exact Hout].
  - cbn [fst snd] in *. split; [reflexivity|]. subst out.
    eexists. assoc. reflexivity.
Qed.

Lemma MpsRender_out_of_range FLAGS e entry :
  out_of_range_entry (proto_ e) entry ->
  MpsRender FLAGS e
  = (set_column 0 e, MpsHead FLAGS (set_column 0 e),
     Failed OutOfRangeReference).
Proof.
  intros Hentry. unfold MpsRender.
  pose proof (BuildTranspose_out_of_range (set_column 0 e) entry Hentry) as Hf.
  now destruct (BuildTranspose (set_column 0 e)) as [[|] t].
Qed.

Lemma MpsHead_nonempty FLAGS e : is_empty (MpsHead FLAGS e) = false.
Proof.
  unfold MpsHead, append_section, AppendMpsLineHeaderWithNewLine.
  match goal with |- context [is_empty (fold_left ?f ?l ?a)] =>
    destruct (is_empty (fold_left f l a)) end;
    rewrite !is_empty_append, AppendComments_nonempty; reflexivity.
Qed.


(** Past the name check, the LP export of a model with an entry out of range
    returns false from the loop over the constraints. *)
Lemma lp_export_out_of_range FLAGS obfuscated e output entry :
  out_of_range_entry (proto_ e) entry ->
  negb obfuscated && negb (CheckAllNamesValidity e) = false ->
  let r := ExportModelAsLpFormat FLAGS obfuscated e output in
  outcome_of r = Failed OutOfRangeReference
  /\ exists rest,
       output_of r = AppendComments FLAGS (exporter_of r) backslash "" ++ rest.
Proof.
  intros Hentry Hgate. unfold ExportModelAsLpFormat. rewrite Hgate.
  pose proof (ensure_setup_proto e) as Hproto.
  destruct (ensure_setup e) as [e1 b]. cbn [fst] in Hproto.
  set (e2 := set_flags obfuscated (use_fixed_mps_format_ e1) e1).
  assert (Hentry2 : out_of_range_entry (proto_ e2) entry)
    by (subst e2; cbn [set_flags proto_]; now rewrite Hproto).
  destruct (LpRender_out_of_range FLAGS e2 entry Hentry2) as (Ho & rest & Hr).
  destruct (LpRender FLAGS e2) as [out o]. cbn [fst snd] in *.
  unfold outcome_of, output_of, exporter_of. cbn [fst snd].
  split; [exact Ho | now exists rest].
Qed.

(** The MPS export returns false while it builds the transpose, with the
    comments and the NAME and ROWS sections in [output]. *)
Lemma mps_export_out_of_range FLAGS fixed_format obfuscated e output entry :
  out_of_range_entry (proto_ e) entry ->
  negb obfuscated && negb (CheckAllNamesValidity e) = false ->
  let r := ExportModelAsMpsFormat FLAGS fixed_format obfuscated e output in
  outcome_of r = Failed OutOfRangeReference
  /\ output_of r = MpsHead FLAGS (exporter_of r).
Proof.
  intros Hentry Hgate. unfold ExportModelAsMpsFormat. rewrite Hgate.
  pose proof (ensure_setup_proto e) as Hproto.
  destruct (ensure_setup e) as [e1 b]. cbn [fst] in Hproto.
  match goal with |- context [MpsRender FLAGS ?e2] =>
    assert (Hproto2 : proto_ e2 = proto_ e)
      by (destruct (fixed_format && _); exact Hproto);
    assert (Hentry2 : out_of_range_entry (proto_ e2) entry)
      by (now rewrite Hproto2);
    rewrite (MpsRender_out_of_range FLAGS e2 entry Hentry2)
  end.
  split; reflexivity.
Qed.

Lemma gate_passes obfuscated e :
  obfuscated = true \/ CheckAllNamesValidity e = true ->
  negb obfuscated && negb (CheckAllNamesValidity e) = false.
Proof. intros [-> | ->]; [reflexivity | apply andb_false_r]. Qed.

(** *** The LP text when the loop over the constraints returns *)

Lemma WriteLpTerm_text e var_index coefficient :
  0 <= var_index < MPModelProto.variable_size (proto_ e) ->
  WriteLpTerm e var_index coefficient
  = (true, lp_term e var_index coefficient).
Proof.
  intros H. unfold WriteLpTerm, lp_term.
  destruct ((var_index <? 0) || _)%bool eqn:Hc; [lia|].
  now destruct (fne coefficient 0%float).
Qed.

Lemma for_each_app {I S} (body : I -> S -> bool * S) (l1 l2 : list I) (s : S) :
  for_each body (l1 ++ l2)%list s
  = match for_each body l1 s with
    | (true, s') => for_each body l2 s'
    | (false, s') => (false, s')
    end.
Proof.
  revert s. induction l1 as [|i l1 IH]; intros s; [reflexivity|].
  cbn [for_each List.app].
  destruct (body i s) as [[|] s']; [apply IH | reflexivity].
Qed.

Lemma LpObjective_text FLAGS e (l : list Z) :
  (forall i, In i l -> 0 <= i < MPModelProto.variable_size (proto_ e)) ->
  forall b sv,
  exists sv',
    for_each (LpObjectiveTerm FLAGS e) l (b, sv)
    = (true,
       (AppendAll
          (map (fun i => lp_term e i
                           (MPVariableProto.objective_coefficient
                              (MPModelProto.variable (proto_ e) i))) l) b,
        sv')).
Proof.
  induction l as [|i l IH]; intros Hl b sv; [now exists sv|].
  cbn [for_each map]. unfold LpObjectiveTerm at 1.
  rewrite WriteLpTerm_text by (apply Hl; now left).
  match goal with |- context [for_each _ l (?b1, ?sv1)] =>
    destruct (IH (fun j Hj => Hl j (or_intror Hj)) b1 sv1) as (sv' & Heq)
  end.
  exists sv'. rewrite Heq. reflexivity.
Qed.

Lemma LpConstraintTerms_text FLAGS e (row : list (Z * float)) :
  forallb (row_in_range (proto_ e)) row = true ->
  forall b sv,
  exists sv',
    for_each (LpConstraintTerm FLAGS e) row (b, sv)
    = (true,
       (AppendAll
          (map (fun entry : Z * float => lp_term e (fst entry) (snd entry))
             row) b,
        sv')).
Proof.
  induction row as [|[var_index coeff] row IH]; intros Hrow b sv;
    [now exists sv|].
  cbn [forallb] in Hrow. apply andb_true_iff in Hrow.
  destruct Hrow as (Hentry & Hrow). unfold row_in_range in Hentry.
  cbn [fst] in Hentry.
  cbn [for_each map fst snd]. unfold LpConstraintTerm at 1.
  rewrite WriteLpTerm_text by lia.
  match goal with |- context [for_each _ row (?b1, ?sv1)] =>
    destruct (IH Hrow b1 sv1) as (sv' & Heq)
  end.
  exists sv'. rewrite Heq. reflexivity.
Qed.

(** What the export appends for a constraint once its terms are wrapped. *)
Lemma LpConstraintLines_text name lb ub line_breaker output :
  LpConstraintLines name lb ub line_breaker output
  = output ++ lp_constraint_lines name lb ub line_breaker.
Proof.
  unfold LpConstraintLines, lp_constraint_lines.
  destruct (PrimFloat.eqb lb ub); [reflexivity|].
  destruct (fne ub infinity), (fne lb neg_infinity);
    repeat match goal with
           | |- context [LineBreaker.WillFit ?r ?b] =>
               destruct (LineBreaker.WillFit r b)
           end;
    assoc; first [reflexivity | symmetry; apply append_nil_r].
Qed.

Lemma LpConstraint_text FLAGS e cst_index output show_variable :
  forallb (row_in_range (proto_ e))
    (MPConstraintProto.row (MPModelProto.constraint (proto_ e) cst_index))
  = true ->
  exists show_variable',
    LpConstraint FLAGS e cst_index (output, show_variable)
    = (true, (output ++ lp_constraint_text FLAGS e cst_index, show_variable')).
Proof.
  intros Hrow. unfold LpConstraint, lp_constraint_text.
  match goal with |- context [for_each _ _ (?b, show_variable)] =>
    destruct (LpConstraintTerms_text FLAGS e _ Hrow b show_variable)
      as (sv' & Heq)
  end.
  exists sv'. rewrite Heq. now rewrite LpConstraintLines_text.
Qed.

Lemma LpConstraints_text FLAGS e (l : list Z) :
  (forall i, In i l ->
             forallb (row_in_range (proto_ e))
               (MPConstraintProto.row (MPModelProto.constraint (proto_ e) i))
             = true) ->
  forall output show_variable,
  exists show_variable',
    for_each (LpConstraint FLAGS e) l (output, show_variable)
    = (true,
       (output ++ concat_texts (map (lp_constraint_text FLAGS e) l),
        show_variable')).
Proof.
  induction l as [|i l IH]; intros Hl output sv.
  - exists sv. cbn [for_each map concat_texts]. now rewrite append_nil_r.
  - cbn [for_each map concat_texts].
    destruct (LpConstraint_text FLAGS e i output sv (Hl i (or_introl eq_refl)))
      as (sv1 & ->).
    destruct (IH (fun j Hj => Hl j (or_intror Hj))
                (output ++ lp_constraint_text FLAGS e i) sv1) as (sv' & ->).
    exists sv'. now assoc.
Qed.

(** The first element of a list on which a test fails. *)
Lemma forallb_first_false {A} (f : A -> bool) (d : A) (l : list A) :
  forallb f l = false ->
  exists k : nat,
    (k < List.length l)%nat
    /\ (forall j, (j < k)%nat -> f (nth j l d) = true)
    /\ f (nth k l d) = false.
Proof.
  induction l as [|a l IH]; [discriminate|]. cbn [forallb].
  destruct (f a) eqn:Ha.
  - intros H. destruct (IH H) as (k & Hk & Hbefore & Hat).
    exists (S k). cbn [List.length nth]. split; [lia|]. split; [|exact Hat].
    intros [|j] Hj; [exact Ha | apply Hbefore; lia].
  - intros _. exists O. cbn [List.length nth].
    split; [lia|]. split; [intros j Hj; lia | exact Ha].
Qed.

(** The first constraint with an index out of range. *)
Lemma first_out_of_range (m : MPModelProto.t) :
  all_in_range m = false ->
  exists k,
    0 <= k < MPModelProto.constraint_size m
    /\ (forall j, 0 <= j < k ->
                  forallb (row_in_range m)
                    (MPConstraintProto.row (MPModelProto.constraint m j))
                  = true)
    /\ forallb (row_in_range m)
         (MPConstraintProto.row (MPModelProto.constraint m k)) = false.
Proof.
  intros H. unfold all_in_range in H.
  destruct (forallb_first_false _ MPConstraintProto.default _ H)
    as (k & Hk & Hbefore & Hat).
  exists (Z.of_nat k). unfold MPModelProto.constraint_size,
                         MPModelProto.constraint.
  split; [lia|]. split.
  - intros j Hj. apply Hbefore. lia.
  - now rewrite Nat2Z.id.
Qed.

Lemma range_split (n k : Z) :
  0 <= k < n -> exists rest, range n = (range k ++ k :: rest)%list.
Proof.
  intros H. unfold range.
  replace (Z.to_nat n)
    with (Z.to_nat k + S (Z.to_nat n - S (Z.to_nat k)))%nat by lia.
  rewrite seq_app, map_app. cbn [seq map Nat.add].
  rewrite Z2Nat.id by lia. eexists. reflexivity.
Qed.

(** The LP text when constraint [k] is the first one with an index out of
    range: the method returns false in the loop over the row of [k], and
    [output] holds the comments, the objective, the title of the
    constraints and the lines of the constraints before [k]. *)
Lemma LpRender_partial_text FLAGS e k :
  0 <= k < MPModelProto.constraint_size (proto_ e) ->
  (forall j, 0 <= j < k ->
             forallb (row_in_range (proto_ e))
               (MPConstraintProto.row (MPModelProto.constraint (proto_ e) j))
             = true) ->
  forallb (row_in_range (proto_ e))
    (MPConstraintProto.row (MPModelProto.constraint (proto_ e) k)) = false ->
  LpRender FLAGS e
  = (lp_head FLAGS e
     ++ concat_texts (map (lp_constraint_text FLAGS e) (range k)),
     Failed OutOfRangeReference).
Proof.
  intros Hk Hbefore Hat. unfold LpRender. cbv zeta.
  assert (Hvars : forall i,
            In i (range (MPModelProto.variable_size (proto_ e))) ->
            0 <= i < MPModelProto.variable_size (proto_ e))
    by (intros i Hi; now apply In_range).
  match goal with
  | |- context [for_each (LpObjectiveTerm FLAGS e) ?l (?b0, ?sv0)] =>
      destruct (LpObjective_text FLAGS e l Hvars b0 sv0) as (sv1 & Hobj);
      rewrite Hobj
  end.
  destruct (range_split _ k Hk) as (rest & Hsplit). rewrite Hsplit.
  rewrite for_each_app.
  assert (Hrows : forall i, In i (range k) ->
            forallb (row_in_range (proto_ e))
              (MPConstraintProto.row (MPModelProto.constraint (proto_ e) i))
            = true)
    by (intros i Hi; apply Hbefore; now apply In_range).
  match goal with
  | |- context [for_each (LpConstraint FLAGS e) (range k) (?o, sv1)] =>
      destruct (LpConstraints_text FLAGS e (range k) Hrows o sv1)
        as (sv2 & Hcs);
      rewrite Hcs
  end.
  cbn [for_each].
  apply forallb_false_ex in Hat. destruct Hat as (entry & Hentry & Hout).
  rewrite (LpConstraint_out_of_range FLAGS e k entry _ Hentry)
    by (unfold row_in_range in Hout; lia).
  f_equal. unfold lp_head, lp_objective_tokens, AppendAll.
  cbn [fold_left]. rewrite fold_left_app.
  destruct (fne (MPModelProto.objective_offset (proto_ e)) 0%float);
    cbn [fold_left]; now assoc.
Qed.

Lemma lp_export_partial_text FLAGS obfuscated e output :
  negb obfuscated && negb (CheckAllNamesValidity e) = false ->
  all_in_range (proto_ e) = false ->
  let r := ExportModelAsLpFormat FLAGS obfuscated e output in
  exists k,
    0 <= k < MPModelProto.constraint_size (proto_ e)
    /\ (forall j, 0 <= j < k ->
                  forallb (row_in_range (proto_ e))
                    (MPConstraintProto.row
                       (MPModelProto.constraint (proto_ e) j)) = true)
    /\ forallb (row_in_range (proto_ e))
         (MPConstraintProto.row (MPModelProto.constraint (proto_ e) k))
       = false
    /\ output_of r
       = lp_head FLAGS (exporter_of r)
         ++ concat_texts
              (map (lp_constraint_text FLAGS (exporter_of r)) (range k)).
Proof.
  intros Hgate Hrange r.
  destruct (first_out_of_range _ Hrange) as (k & Hk & Hbefore & Hat).
  exists k. split; [exact Hk|]. split; [exact Hbefore|]. split; [exact Hat|].
  subst r. unfold ExportModelAsLpFormat. rewrite Hgate.
  pose proof (ensure_setup_proto e) as Hproto.
  destruct (ensure_setup e) as [e1 b]. cbn [fst] in Hproto.
  set (e2 := set_flags obfuscated (use_fixed_mps_format_ e1) e1).
  assert (Hproto2 : proto_ e2 = proto_ e) by exact Hproto.
  rewrite <- Hproto2 in Hk, Hbefore, Hat.
  rewrite (LpRender_partial_text FLAGS e2 k Hk Hbefore Hat). reflexivity.
Qed.

Lemma export_fails_on_names FLAGS fixed_format obfuscated e output :
  negb obfuscated && negb (CheckAllNamesValidity e) = true ->
  ExportModelAsLpFormat FLAGS obfuscated e output
  = (e, output, Failed InvalidName)
  /\ ExportModelAsMpsFormat FLAGS fixed_format obfuscated e output
     = (e, output, Failed InvalidName).
Proof.
  intros Hgate. unfold ExportModelAsLpFormat, ExportModelAsMpsFormat.
  now rewrite Hgate.
Qed.

(** The text that is in [output] when the MPS export builds the transpose. *)
Lemma MpsRow_text e rows_section cst_index :
  MpsRow e rows_section cst_index = rows_section ++ mps_row_text e cst_index.
Proof.
  unfold MpsRow, mps_row_text, mps_row_type.
  destruct (PrimFloat.eqb _ _);
    [|destruct (PrimFloat.eqb _ _)];
    unfold AppendMpsLineHeaderWithNewLine;
    rewrite AppendMpsLineHeader_text; now assoc.
Qed.

Lemma MpsRows_text e (l : list Z) rows_section :
  fold_left (MpsRow e) l rows_section
  = rows_section ++ concat_texts (map (mps_row_text e) l).
Proof.
  revert rows_section. induction l as [|i l IH]; intros rows_section.
  - symmetry. apply append_nil_r.
  - cbn [fold_left map concat_texts]. rewrite IH, MpsRow_text. now assoc.
Qed.

Lemma mps_line_header_nonempty e id name :
  is_empty (mps_line_header e id name) = false.
Proof. unfold mps_line_header. now destruct (use_fixed_mps_format_ e). Qed.

Lemma MpsHead_text FLAGS e : MpsHead FLAGS e = mps_head FLAGS e.
Proof.
  unfold MpsHead, mps_head, append_section, AppendMpsLineHeaderWithNewLine.
  cbv zeta. rewrite MpsRows_text, AppendMpsLineHeader_text.
  rewrite !is_empty_append, mps_line_header_nonempty. cbn [andb is_empty].
  now assoc.
Qed.

(** C1, as the code has it.  When some row of the model has a variable index
    out of range, both exports return false.  When the name check returns
    first (the names are not obfuscated and one of them is refused), the
    caller's output string is left as it was.  Otherwise the return is the
    one of the out-of-range check, and the output string is not empty then:
    the LP export leaves in it the comments, the objective, the title
    [Subject to] and the lines of the constraints before the first one that
    has an index out of range; the MPS export leaves in it the comments and
    the NAME and ROWS sections.  (The LP text holds numbers of the model;
    it is spelled out for a model without a NaN.) *)
Theorem C1_out_of_range_fails_and_leaves_partial_text :
  forall (FLAGS : Flags) (fixed_format obfuscated : bool)
         (e : MPModelProtoExporter) (output : string),
    all_in_range (proto_ e) = false ->
    let lp := ExportModelAsLpFormat FLAGS obfuscated e output in
    let mps := ExportModelAsMpsFormat FLAGS fixed_format obfuscated e output in
    returned (outcome_of lp) = false
    /\ returned (outcome_of mps) = false
    /\ (obfuscated = false -> CheckAllNamesValidity e = false ->
        lp = (e, output, Failed InvalidName)
        /\ mps = (e, output, Failed InvalidName))
    /\ (obfuscated = true \/ CheckAllNamesValidity e = true ->
        outcome_of lp = Failed OutOfRangeReference
        /\ (exists k,
              0 <= k < MPModelProto.constraint_size (proto_ e)
              /\ (forall j, 0 <= j < k ->
                    forallb (row_in_range (proto_ e))
                      (MPConstraintProto.row
                         (MPModelProto.constraint (proto_ e) j)) = true)
              /\ forallb (row_in_range (proto_ e))
                   (MPConstraintProto.row
                      (MPModelProto.constraint (proto_ e) k)) = false
              /\ (numbers_not_nan (proto_ e) = true ->
                  output_of lp
                  = lp_head FLAGS (exporter_of lp)
                    ++ concat_texts
                         (map (lp_constraint_text FLAGS (exporter_of lp))
                            (range k))))
        /\ (exists rest,
              output_of lp
              = AppendComments FLAGS (exporter_of lp) backslash "" ++ rest)
        /\ output_of lp <> ""
        /\ outcome_of mps = Failed OutOfRangeReference
        /\ output_of mps = mps_head FLAGS (exporter_of mps)
        /\ output_of mps <> "").
Proof.
  intros FLAGS fixed_format obfuscated e output Hrange lp mps.
  pose proof Hrange as Hentry. apply all_in_range_false in Hentry.
  destruct Hentry as (entry & Hentry).
  assert (Hpast : negb obfuscated && negb (CheckAllNamesValidity e) = false ->
                  outcome_of lp = Failed OutOfRangeReference
                  /\ (exists rest,
                        output_of lp
                        = AppendComments FLAGS (exporter_of lp) backslash ""
                          ++ rest)
                  /\ outcome_of mps = Failed OutOfRangeReference
                  /\ output_of mps = MpsHead FLAGS (exporter_of mps)).
  { intros Hgate.
    destruct (lp_export_out_of_range FLAGS obfuscated e output entry
                Hentry Hgate) as (Hlp & Hout).
    destruct (mps_export_out_of_range FLAGS fixed_format obfuscated e output
                entry Hentry Hgate) as (Hmps & Hhead).
    repeat split; assumption. }
  destruct (negb obfuscated && negb (CheckAllNamesValidity e)) eqn:Hgate.
  - destruct (export_fails_on_names FLAGS fixed_format obfuscated e output
                Hgate) as (Hlp & Hmps).
    fold lp in Hlp. fold mps in Hmps. rewrite Hlp, Hmps.
    split; [reflexivity|]. split; [reflexivity|].
    split; [intros _ _; split; reflexivity|].
    intros Hnames. apply gate_passes in Hnames. congruence.
  - destruct (Hpast eq_refl) as (Hlp & (rest & Hout) & Hmps & Hhead).
    split; [now rewrite Hlp|]. split; [now rewrite Hmps|].
    split; [intros -> Hcheck; rewrite Hcheck in Hgate; discriminate|].
    intros _. split; [exact Hlp|]. split.
    + destruct (lp_export_partial_text FLAGS obfuscated e output Hgate Hrange)
        as (k & Hk & Hbefore & Hat & Htext).
      exists k. split; [exact Hk|]. split; [exact Hbefore|].
      split; [exact Hat|]. intros _. exact Htext.
    + split; [now exists rest|]. split.
      * apply is_empty_false. rewrite Hout, is_empty_append.
        now rewrite AppendComments_nonempty.
      * split; [exact Hmps|]. split; [now rewrite <- MpsHead_text|].
        apply is_empty_false. rewrite Hhead. apply MpsHead_nonempty.
Qed.

Lemma C1_witness :
  let lp := ExportModelAsLpFormat default_flags false
              (new_exporter Samples.dangling) "" in
  let mps := ExportModelAsMpsFormat default_flags true false
               (new_exporter Samples.dangling) "" in
  outcome_of lp = Failed OutOfRangeReference
  /\ output_of lp = lp_head default_flags (exporter_of lp)
  /\ output_of lp <> ""
  /\ outcome_of mps = Failed OutOfRangeReference
  /\ output_of mps = mps_head default_flags (exporter_of mps)
  /\ output_of mps <> "".
Proof.
  destruct (C1_out_of_range_fails_and_leaves_partial_text default_flags true
              false (new_exporter Samples.dangling) "" eq_refl)
    as (_ & _ & _ & H).
  destruct (H (or_intror eq_refl))
    as (H1 & (k & Hk & _ & _ & Htext) & _ & H2 & H3 & H4 & H5).
  split; [exact H1|]. split.
  - change (MPModelProto.constraint_size
              (proto_ (new_exporter Samples.dangling))) with 1 in Hk.
    assert (k = 0) as -> by lia.
    rewrite (Htext eq_refl). apply append_nil_r.
  - exact (conj H2 (conj H3 (conj H4 H5))).
Defined.

(** C1 fails as it is stated: the only constraint of [Samples.dangling]
    refers to a variable 3 of a model with one variable; both exports return
    false, and the output string they hand back is not empty but holds the
    text built until the entry was met. *)
Lemma C1_counterexample :
  let lp := ExportModelAsLpFormat default_flags false
              (new_exporter Samples.dangling) "" in
  let mps := ExportModelAsMpsFormat default_flags true false
               (new_exporter Samples.dangling) "" in
  all_in_range Samples.dangling = false
  /\ returned (outcome_of lp) = false
  /\ output_of lp
     = unlines [backslash ++ " Generated by MPModelProtoExporter";
                backslash ++ "   Name             : dangling";
                backslash ++ "   Format           : Free";
                backslash ++ "   Constraints      : 1";
                backslash ++ "   Variables        : 1";
                backslash ++ "     Binary         : 0";
                backslash ++ "     Integer        : 0";
                backslash ++ "     Continuous     : 1";
                "Minimize";
                " Obj: +1 x ";
                "Subject to"]
  /\ output_of lp <> ""
  /\ returned (outcome_of mps) = false
  /\ output_of mps
     = unlines ["* Generated by MPModelProtoExporter";
                "*   Name             : dangling";
                "*   Format           : Fixed";
                "*   Constraints      : 1";
                "*   Variables        : 1";
                "*     Binary         : 0";
                "*     Integer        : 0";
                "*     Continuous     : 1";
                "NAME          dangling";
                "ROWS";
                " N  COST    ";
                " G  c       "]
  /\ output_of mps <> "".
Proof.
  vm_compute. repeat split; discriminate.
Qed.

(** C9, as the code has it.  An entry of a row whose variable index is out
    of range makes both exports return false whatever the coefficient paired
    with the index is, 0 included: [WriteLpTerm] and the loop that builds
    the transpose test the index before they look at the coefficient.  The
    return is the one of the out-of-range check when the export gets past
    the name check (the names are obfuscated, or they pass the check), and
    the one of the name check otherwise. *)
Theorem C9_out_of_range_checked_before_zero_coefficient :
  forall (FLAGS : Flags) (fixed_format obfuscated : bool)
         (e : MPModelProtoExporter) (output : string)
         (ct : MPConstraintProto.t) (var_index : Z) (coefficient : float),
    In ct (MPModelProto.constraints (proto_ e)) ->
    In (var_index, coefficient) (MPConstraintProto.row ct) ->
    var_index < 0 \/ MPModelProto.variable_size (proto_ e) <= var_index ->
    let lp := ExportModelAsLpFormat FLAGS obfuscated e output in
    let mps := ExportModelAsMpsFormat FLAGS fixed_format obfuscated e output in
    WriteLpTerm e var_index 0%float = (false, "")
    /\ WriteLpTerm e var_index coefficient = (false, "")
    /\ (forall cst_index transpose,
          TransposeEntry e cst_index (var_index, 0%float) transpose
          = (false, transpose)
          /\ TransposeEntry e cst_index (var_index, coefficient) transpose
             = (false, transpose))
    /\ returned (outcome_of lp) = false
    /\ returned (outcome_of mps) = false
    /\ (obfuscated = true \/ CheckAllNamesValidity e = true ->
        outcome_of lp = Failed OutOfRangeReference
        /\ outcome_of mps = Failed OutOfRangeReference)
    /\ (obfuscated = false -> CheckAllNamesValidity e = false ->
        outcome_of lp = Failed InvalidName
        /\ outcome_of mps = Failed InvalidName).
Proof.
  intros FLAGS fixed_format obfuscated e output ct var_index coefficient
         Hct Hentry Hout lp mps.
  assert (Hoor : out_of_range_entry (proto_ e) (var_index, coefficient))
    by (exists ct; repeat split; assumption).
  assert (Hpast : negb obfuscated && negb (CheckAllNamesValidity e) = false ->
                  outcome_of lp = Failed OutOfRangeReference
                  /\ outcome_of mps = Failed OutOfRangeReference).
  { intros Hgate. split.
    - apply (lp_export_out_of_range FLAGS obfuscated e output _ Hoor Hgate).
    - apply (mps_export_out_of_range FLAGS fixed_format obfuscated e output
               _ Hoor Hgate). }
  split; [now apply WriteLpTerm_out_of_range|].
  split; [now apply WriteLpTerm_out_of_range|].
  split; [intros cst_index transpose;
          split; now apply TransposeEntry_out_of_range|].
  destruct (negb obfuscated && negb (CheckAllNamesValidity e)) eqn:Hgate.
  - subst lp mps. unfold ExportModelAsLpFormat, ExportModelAsMpsFormat.
    rewrite Hgate. split; [reflexivity|]. split; [reflexivity|]. split.
    + intros Hnames. apply gate_passes in Hnames. congruence.
    + intros _ _. split; reflexivity.
  - destruct (Hpast eq_refl) as (Hlp & Hmps). rewrite Hlp, Hmps.
    split; [reflexivity|]. split; [reflexivity|]. split.
    + intros _. split; reflexivity.
    + intros -> Hcheck. rewrite Hcheck in Hgate. discriminate.
Qed.

Lemma C9_witness :
  let lp := ExportModelAsLpFormat default_flags false
              (new_exporter Samples.dangling) "" in
  let mps := ExportModelAsMpsFormat default_flags true false
               (new_exporter Samples.dangling) "" in
  In (3, 0%float)
     (MPConstraintProto.row
        (MPModelProto.constraint Samples.dangling 0))
  /\ outcome_of lp = Failed OutOfRangeReference
  /\ outcome_of mps = Failed OutOfRangeReference.
Proof.
  split; [right; left; reflexivity|].
  assert (Hout : 3 < 0
                 \/ MPModelProto.variable_size
                      (proto_ (new_exporter Samples.dangling)) <= 3)
    by (right; vm_compute; discriminate).
  destruct (C9_out_of_range_checked_before_zero_coefficient
              default_flags true false (new_exporter Samples.dangling)
              "" (MPModelProto.constraint Samples.dangling 0) 3 0%float
              (or_introl eq_refl) (or_intror (or_introl eq_refl)) Hout)
    as (_ & _ & _ & _ & _ & H & _).
  apply H. right. reflexivity.
Defined.

(** C9 fails as it is stated: the only constraint of
    [Samples.ill_named_dangling] refers to a variable 3 of a model with one
    variable, with the coefficient 0, and the variable of the model is named
    [a b].  With the declared names, both exports return false through the
    name check, not through the out-of-range check, which they do not
    reach. *)
Lemma C9_counterexample :
  let e := new_exporter Samples.ill_named_dangling in
  let lp := ExportModelAsLpFormat default_flags false e "" in
  let mps := ExportModelAsMpsFormat default_flags true false e "" in
  In (3, 0%float)
     (MPConstraintProto.row
        (MPModelProto.constraint Samples.ill_named_dangling 0))
  /\ MPModelProto.variable_size Samples.ill_named_dangling = 1
  /\ outcome_of lp = Failed InvalidName
  /\ outcome_of lp <> Failed OutOfRangeReference
  /\ outcome_of mps = Failed InvalidName
  /\ outcome_of mps <> Failed OutOfRangeReference.
Proof.
  cbv zeta. split; [right; left; reflexivity|].
  split; [reflexivity|].
  assert (Hcheck : CheckAllNamesValidity
                     (new_exporter Samples.ill_named_dangling) = false)
    by reflexivity.
  unfold ExportModelAsLpFormat, ExportModelAsMpsFormat. rewrite Hcheck.
  cbn [negb andb outcome_of snd].
  repeat split; discriminate.
Qed.

(** ** LineBreaker (C4) *)

(** Tokens are never split: the text holds them whole and in order, with
    nothing but line breaks between them. *)
Lemma AppendAll_unsplit (tokens : list string) (b : LineBreaker.t) :
  exists text,
    Unsplit tokens text
    /\ LineBreaker.output_ (AppendAll tokens b)
       = LineBreaker.output_ b ++ text.
Proof.
  revert b. induction tokens as [|s tokens IH]; intros b.
  - exists "". split; [constructor | symmetry; apply append_nil_r].
  - cbn [AppendAll fold_left]. fold (AppendAll tokens (LineBreaker.Append s b)).
    destruct (IH (LineBreaker.Append s b)) as (text & Hu & ->).
    unfold LineBreaker.Append.
    destruct (LineBreaker.max_line_size_ b <? _); cbn [LineBreaker.output_].
    + exists (nl ++ " " ++ s ++ text).
      split; [now constructor | now assoc].
    + exists (s ++ text). split; [now constructor | now assoc].
Qed.

(** A break resets the running count to the size of the token that caused
    it, and the break comes before the token. *)
Lemma Append_break (s : string) (b : LineBreaker.t) :
  LineBreaker.max_line_size_ b < LineBreaker.line_size_ b + size s ->
  LineBreaker.line_size_ (LineBreaker.Append s b) = size s
  /\ LineBreaker.output_ (LineBreaker.Append s b)
     = LineBreaker.output_ b ++ nl ++ " " ++ s.
Proof.
  intros H. unfold LineBreaker.Append.
  destruct (LineBreaker.max_line_size_ b <? _) eqn:Hc; [|lia].
  split; reflexivity.
Qed.

(** The running count is within the limit after every [Append], but for a
    token that is longer than the limit by itself. *)
Lemma Append_count (s : string) (b : LineBreaker.t) :
  let b' := LineBreaker.Append s b in
  LineBreaker.line_size_ b' <= LineBreaker.max_line_size_ b'
  \/ (LineBreaker.max_line_size_ b' < size s
      /\ LineBreaker.line_size_ b' = size s).
Proof.
  unfold LineBreaker.Append.
  destruct (LineBreaker.max_line_size_ b <? _) eqn:Hc;
    cbn [LineBreaker.line_size_ LineBreaker.max_line_size_]; lia.
Qed.

(** C4 on the code.  With a maximum line size of 3 and the tokens [ab] and
    [abc], neither longer than 3, the second line of the text is [ abc],
    of length 4: the space that follows the line feed of a break is on the
    line, and the running count is reset to the size of the token alone.
    Through the LP export: with [lp_max_line_length] 10, the objective of
    [Samples.two_terms] has the line [ +1 x +1 y ] of length 11, built from
    tokens of at most 6 characters. *)
Theorem C4_line_longer_than_limit_without_long_token :
  let tokens := ["ab"; "abc"] in
  let b := AppendAll tokens (LineBreaker.new 3) in
  let lp := ExportModelAsLpFormat Samples.narrow false
              (new_exporter Samples.two_terms) "" in
  Forall (fun s => size s <= 3) tokens
  /\ LineBreaker.GetOutput b = "ab" ++ nl ++ " abc"
  /\ lines_of (LineBreaker.GetOutput b) = ["ab"; " abc"]
  /\ 3 < size " abc"
  /\ LineBreaker.line_size_ b = 3
  /\ outcome_of lp = Done
  /\ nth 10 (lines_of (output_of lp)) "" = " +1 x +1 y "
  /\ 10 < size " +1 x +1 y ".
Proof.
  cbv zeta. split; [repeat constructor; vm_compute; discriminate|].
  vm_compute. repeat split; reflexivity.
Qed.

(** ** Decimal digits *)

Lemma decimal_digits_spec (fuel : nat) :
  forall (n : Z) (acc : string),
    0 <= n < 2 ^ (Z.of_nat fuel + 1) ->
    exists d : nat,
      String.length (Printf.decimal_digits fuel n acc)
      = (d + 1 + String.length acc)%nat
      /\ n < 10 ^ (Z.of_nat d + 1)
      /\ (d = O \/ 10 ^ Z.of_nat d <= n).
Proof.
  induction fuel as [|fuel IH]; intros n acc Hn.
  - exists O. cbn [Printf.decimal_digits String.length].
    change (2 ^ (Z.of_nat 0 + 1)) with 2 in Hn.
    repeat split; [lia | now left].
  - cbn [Printf.decimal_digits]. destruct (n <? 10) eqn:Hlt.
    + exists O. cbn [String.length]. repeat split; [lia | now left].
    + assert (Hdiv : 0 <= n / 10 < 2 ^ (Z.of_nat fuel + 1)).
      { replace (Z.of_nat (S fuel) + 1) with (Z.succ (Z.of_nat fuel + 1)) in Hn
          by lia.
        rewrite Z.pow_succ_r in Hn by lia.
        split; [apply Z.div_pos; lia|].
        apply Z.div_lt_upper_bound; lia. }
      destruct (IH (n / 10)
                  (String (Printf.digit_char (n mod 10)) acc) Hdiv)
        as (d & Hlen & Hub & Hlb).
      exists (S d). rewrite Hlen. cbn [String.length].
      replace (Z.of_nat (S d) + 1) with (Z.succ (Z.of_nat d + 1)) by lia.
      replace (Z.of_nat (S d)) with (Z.succ (Z.of_nat d)) by lia.
      rewrite !Z.pow_succ_r by lia.
      pose proof (Z.div_mod n 10 ltac:(lia)) as Hdm.
      pose proof (Z.mod_pos_bound n 10 ltac:(lia)) as Hmod.
      split; [lia|]. split; [lia|]. right.
      destruct Hlb as [-> | Hlb]; [change (10 ^ Z.of_nat 0) with 1; lia | lia].
Qed.

Lemma decimal_spec (n : Z) :
  0 <= n ->
  exists d : nat,
    String.length (Printf.decimal n) = S d
    /\ n < 10 ^ (Z.of_nat d + 1)
    /\ (d = O \/ 10 ^ Z.of_nat d <= n).
Proof.
  intros Hn. unfold Printf.decimal.
  assert (Hfuel : 0 <= n < 2 ^ (Z.of_nat (Z.to_nat (Z.log2 n)) + 1)).
  { rewrite Z2Nat.id by apply Z.log2_nonneg. split; [exact Hn|].
    destruct (Z.eq_dec n 0) as [-> | Hnz]; [reflexivity|].
    replace (Z.log2 n + 1) with (Z.succ (Z.log2 n)) by lia.
    apply Z.log2_spec. lia. }
  destruct (decimal_digits_spec _ n "" Hfuel) as (d & Hlen & Hub & Hlb).
  exists d. cbn [String.length] in Hlen.
  repeat split; [lia | exact Hub | exact Hlb].
Qed.

(** A number below [10^k] has at most [k] digits. *)
Lemma decimal_length_le (n : Z) (k : nat) :
  0 <= n < 10 ^ Z.of_nat k -> (1 <= k)%nat ->
  (String.length (Printf.decimal n) <= k)%nat.
Proof.
  intros Hn Hk. destruct (decimal_spec n (proj1 Hn)) as (d & -> & _ & Hlb).
  destruct Hlb as [-> | Hlb]; [exact Hk|].
  assert (Z.of_nat d < Z.of_nat k); [|lia].
  apply (Z.pow_lt_mono_r_iff 10); lia.
Qed.

(** A number is below 10 to the number of its digits. *)
Lemma decimal_length_bound (n : Z) :
  0 <= n -> n < 10 ^ Z.of_nat (String.length (Printf.decimal n)).
Proof.
  intros Hn. destruct (decimal_spec n Hn) as (d & -> & Hub & _).
  now replace (Z.of_nat (S d)) with (Z.of_nat d + 1) by lia.
Qed.

Lemma decimal_length_pos (n : Z) :
  0 <= n -> (1 <= String.length (Printf.decimal n))%nat.
Proof. intros Hn. destruct (decimal_spec n Hn) as (d & -> & _). lia. Qed.

Lemma decimal_length_mono (i n : Z) :
  0 <= i <= n ->
  (String.length (Printf.decimal i) <= String.length (Printf.decimal n))%nat.
Proof.
  intros Hi. apply decimal_length_le.
  - pose proof (decimal_length_bound n ltac:(lia)). lia.
  - apply decimal_length_pos. lia.
Qed.

(** ** Fixed MPS format (C5) *)

Lemma fmt_d_nonneg (n : Z) : 0 <= n -> Printf.fmt_d n = Printf.decimal n.
Proof.
  intros H. unfold Printf.fmt_d.
  destruct (n <? 0) eqn:Hc; [lia | reflexivity].
Qed.

Lemma fmt_0d_nonneg (w n : Z) :
  0 <= n ->
  Printf.fmt_0d w n
  = replicate (Z.to_nat w - String.length (Printf.decimal n)) "0"
    ++ Printf.decimal n.
Proof.
  intros H. unfold Printf.fmt_0d.
  destruct (n <? 0) eqn:Hc; [lia | reflexivity].
Qed.

Lemma fmt_0d_size (w n : Z) :
  0 <= n ->
  size (Printf.fmt_0d w n) = Z.max w (size (Printf.decimal n)).
Proof.
  intros H. rewrite fmt_0d_nonneg by exact H. unfold size.
  rewrite length_append, length_replicate. lia.
Qed.


(** A synthetic name has one character and the digit width of the count. *)
Lemma synthetic_name_size (prefix : string) (count i : Z) :
  0 <= i < count ->
  size (prefix ++ Printf.fmt_0d (size (Printf.fmt_d count)) i)
  = size prefix + size (Printf.fmt_d count).
Proof.
  intros Hi. rewrite size_append, fmt_0d_size by lia.
  rewrite fmt_d_nonneg by lia.
  pose proof (decimal_length_mono i count ltac:(lia)). unfold size. lia.
Qed.

Lemma forallb_fit {A} (name : A -> string) (l : list A) :
  forallb (fun x => negb (kMpsFieldSize <? size (name x))) l = true
  <-> forall x, In x l -> size (name x) <= 8.
Proof.
  rewrite forallb_forall. unfold kMpsFieldSize.
  split; intros H x Hx; specialize (H x Hx);
    destruct (8 <? size (name x)) eqn:Hc; cbn in *; try lia; congruence.
Qed.

Lemma CanUseFixedMpsFormat_named (e : MPModelProtoExporter) :
  use_obfuscated_names_ e = false ->
  (CanUseFixedMpsFormat e = true <-> declared_names_fit (proto_ e)).
Proof.
  intros Hobf. unfold CanUseFixedMpsFormat, declared_names_fit.
  rewrite Hobf, andb_true_iff.
  now rewrite (forallb_fit MPConstraintProto.name),
              (forallb_fit MPVariableProto.name).
Qed.











(** ** Name validity of the rendered names *)

Lemma all_chars_append p a b :
  all_chars p (a ++ b) = all_chars p a && all_chars p b.
Proof.
  induction a as [|c a IH]; [reflexivity|].
  cbn [append all_chars]. rewrite IH. apply andb_assoc.
Qed.

Lemma all_chars_replicate p n c :
  p c = true -> all_chars p (replicate n c) = true.
Proof.
  intros Hc. induction n as [|n IH]; [reflexivity|].
  cbn [replicate all_chars]. now rewrite Hc, IH.
Qed.

Lemma digit_char_is_digit (d : Z) :
  0 <= d < 10 -> is_digit (Printf.digit_char d) = true.
Proof.
  intros Hd.
  assert (d = 0 \/ d = 1 \/ d = 2 \/ d = 3 \/ d = 4 \/ d = 5 \/ d = 6
          \/ d = 7 \/ d = 8 \/ d = 9) as H by lia.
  repeat (destruct H as [-> | H]; [reflexivity|]). now subst.
Qed.

Lemma decimal_digits_all_digits fuel :
  forall n acc,
    0 <= n -> all_chars is_digit acc = true ->
    all_chars is_digit (Printf.decimal_digits fuel n acc) = true.
Proof.
  induction fuel as [|fuel IH]; intros n acc Hn Hacc;
    cbn [Printf.decimal_digits];
    assert (Hacc' : all_chars is_digit
                      (String (Printf.digit_char (n mod 10)) acc) = true)
      by (cbn [all_chars]; rewrite Hacc, digit_char_is_digit;
          [reflexivity | apply Z.mod_pos_bound; lia]).
  - exact Hacc'.
  - destruct (n <? 10); [exact Hacc'|].
    apply IH; [apply Z.div_pos; lia | exact Hacc'].
Qed.

Lemma fmt_0d_all_digits (w n : Z) :
  0 <= n -> all_chars is_digit (Printf.fmt_0d w n) = true.
Proof.
  intros Hn. rewrite fmt_0d_nonneg by exact Hn.
  rewrite all_chars_append, all_chars_replicate by reflexivity.
  apply decimal_digits_all_digits; [exact Hn | reflexivity].
Qed.

Lemma is_digit_cases (c : ascii) :
  is_digit c = true ->
  In c ["0"; "1"; "2"; "3"; "4"; "5"; "6"; "7"; "8"; "9"]%char.
Proof.
  unfold is_digit. cbn [contains_char]. rewrite !orb_true_iff, !Ascii.eqb_eq.
  cbn [In]. intuition (try discriminate; auto).
Qed.

Lemma digits_not_forbidden (s : string) :
  all_chars is_digit s = true -> has_any_of kForbiddenChars s = false.
Proof.
  induction s as [|c s IH]; [reflexivity|].
  cbn [all_chars has_any_of]. rewrite andb_true_iff. intros (Hc & Hs).
  rewrite (IH Hs), orb_false_r.
  apply is_digit_cases in Hc. cbn [In] in Hc.
  repeat (destruct Hc as [<- | Hc]; [reflexivity|]). destruct Hc.
Qed.

(** A synthetic name passes the name check: a letter, then digits. *)
Lemma synthetic_name_valid (c : ascii) (w i : Z) :
  contains_char c kForbiddenChars = false ->
  contains_char c kForbiddenFirstChars = false ->
  0 <= i < 2 ^ 31 -> w <= 10 ->
  CheckNameValidity (String c (Printf.fmt_0d w i)) = true.
Proof.
  intros Hc Hfirst Hi Hw. unfold CheckNameValidity.
  assert (Hsize : size (String c (Printf.fmt_0d w i)) <= 11).
  { change (String c (Printf.fmt_0d w i))
      with (String c "" ++ Printf.fmt_0d w i).
    rewrite size_append, fmt_0d_size by lia.
    pose proof (decimal_length_le i 10 ltac:(lia) ltac:(lia)).
    unfold size in *. cbn [String.length]. lia. }
  unfold kMaxNameLength.
  destruct (255 <? _) eqn:Hlen; [lia|].
  cbn [has_any_of]. rewrite Hc, Hfirst.
  now rewrite digits_not_forbidden by (apply fmt_0d_all_digits; lia).
Qed.

Lemma width_at_most_10 (count : Z) :
  0 <= count < 2 ^ 31 -> size (Printf.fmt_d count) <= 10.
Proof.
  intros H. rewrite fmt_d_nonneg by lia.
  pose proof (decimal_length_le count 10 ltac:(lia) ltac:(lia)).
  unfold size. lia.
Qed.

(** The name check holds on every reachable exporter when the declared
    names pass it. *)
Lemma CheckAllNamesValidity_holds (e : MPModelProtoExporter) :
  widths_known e ->
  fits_int (proto_ e) ->
  declared_names_valid (proto_ e) ->
  CheckAllNamesValidity e = true.
Proof.
  intros Hw (Hfv & Hfc) (Hv & Hc). unfold CheckAllNamesValidity.
  assert (Hwv : num_digits_for_variables_ e <= 10).
  { destruct Hw as [(_ & -> & _) | (_ & -> & _)]; [lia|].
    apply width_at_most_10. unfold MPModelProto.variable_size in *. lia. }
  assert (Hwc : num_digits_for_constraints_ e <= 10).
  { destruct Hw as [(_ & _ & ->) | (_ & _ & ->)]; [lia|].
    apply width_at_most_10. unfold MPModelProto.constraint_size in *. lia. }
  rewrite andb_true_iff, !forallb_forall. split; intros i Hi.
  - pose proof (variable_In _ _ Hi) as Hin. apply In_range in Hi.
    unfold GetVariableName, MPVariableProto.has_name, MPVariableProto.name.
    destruct (use_obfuscated_names_ e);
      [apply synthetic_name_valid; try reflexivity; lia|].
    destruct (MPVariableProto.opt_name _) as [n|] eqn:Hn; cbn [orb negb].
    + now apply (Hv _ n Hin).
    + apply synthetic_name_valid; try reflexivity; lia.
  - pose proof (constraint_In _ _ Hi) as Hin. apply In_range in Hi.
    unfold GetConstraintName, MPConstraintProto.has_name,
      MPConstraintProto.name.
    destruct (use_obfuscated_names_ e);
      [apply synthetic_name_valid; try reflexivity; lia|].
    destruct (MPConstraintProto.opt_name _) as [n|] eqn:Hn; cbn [orb negb].
    + now apply (Hc _ n Hin).
    + apply synthetic_name_valid; try reflexivity; lia.
Qed.

(** ** The exporter object along the calls *)

Lemma fold_left_invariant {A B} (P : A -> Prop) (f : A -> B -> A) (l : list B) :
  (forall a b, In b l -> P a -> P (f a b)) ->
  forall a, P a -> P (fold_left f l a).
Proof.
  induction l as [|b l IH]; intros Hf a Ha; [exact Ha|].
  cbn [fold_left]. apply IH.
  - intros a' b' Hb'. apply Hf. now right.
  - apply Hf; [now left | exact Ha].
Qed.

Lemma same_but_column_refl e : same_but_column e e.
Proof. now destruct e. Qed.

Lemma same_but_column_set e e' c :
  same_but_column e e' -> same_but_column e (set_column c e').
Proof. unfold same_but_column. intros ->. reflexivity. Qed.

Lemma same_but_column_fields e e' :
  same_but_column e e' ->
  proto_ e' = proto_ e
  /\ use_fixed_mps_format_ e' = use_fixed_mps_format_ e
  /\ use_obfuscated_names_ e' = use_obfuscated_names_ e
  /\ setup_done_ e' = setup_done_ e
  /\ num_digits_for_variables_ e' = num_digits_for_variables_ e
  /\ num_digits_for_constraints_ e' = num_digits_for_constraints_ e.
Proof. unfold same_but_column. intros ->. repeat split. Qed.

Lemma AppendNewLineIfTwoColumns_exporter e s :
  same_but_column e (fst s) ->
  same_but_column e (fst (AppendNewLineIfTwoColumns s)).
Proof.
  destruct s as [e' output]. cbn [fst]. intros H.
  unfold AppendNewLineIfTwoColumns.
  destruct (_ =? 2); cbn [fst]; now apply same_but_column_set.
Qed.

Lemma AppendMpsTermWithContext_exporter e head_name name value s :
  same_but_column e (fst s) ->
  same_but_column e (fst (AppendMpsTermWithContext head_name name value s)).
Proof.
  destruct s as [e' output]. cbn [fst]. intros H.
  unfold AppendMpsTermWithContext.
  now apply AppendNewLineIfTwoColumns_exporter.
Qed.

Lemma AppendMpsColumns_exporter e integrality transpose s :
  same_but_column e (fst s) ->
  same_but_column e (fst (AppendMpsColumns integrality transpose s)).
Proof.
  destruct s as [e' output]. cbn [fst]. intros H. unfold AppendMpsColumns.
  apply (fold_left_invariant (fun s => same_but_column e (fst s)));
    [|now apply same_but_column_set].
  intros [e1 out1] var_index _ H1. cbn [fst] in H1. unfold AppendMpsColumn.
  destruct (negb _); [exact H1|].
  apply AppendNewLineIfTwoColumns_exporter.
  apply (fold_left_invariant (fun s => same_but_column e (fst s))).
  - intros s entry _ Hs. now apply AppendMpsTermWithContext_exporter.
  - destruct (fne _ _);
      [apply AppendMpsTermWithContext_exporter|];
      now apply same_but_column_set.
Qed.

Lemma MpsRhs_exporter e s cst_index :
  same_but_column e (fst s) -> same_but_column e (fst (MpsRhs s cst_index)).
Proof.
  intros H. unfold MpsRhs.
  destruct (fne _ _); [now apply AppendMpsTermWithContext_exporter|].
  destruct (fne _ _); [now apply AppendMpsTermWithContext_exporter | exact H].
Qed.

Lemma MpsRange_exporter e s cst_index :
  same_but_column e (fst s) -> same_but_column e (fst (MpsRange s cst_index)).
Proof.
  intros H. unfold MpsRange.
  destruct (_ && _); [now apply AppendMpsTermWithContext_exporter | exact H].
Qed.

Lemma MpsTail_exporter e transpose output :
  same_but_column e (fst (MpsTail e transpose output)).
Proof.
  unfold MpsTail.
  pose proof (AppendMpsColumns_exporter e true transpose (e, "")
                (same_but_column_refl e)) as H1.
  destruct (AppendMpsColumns true transpose (e, "")) as [e1 cs1].
  cbn [fst] in H1.
  match goal with |- context [AppendMpsColumns false transpose (e1, ?cs)] =>
    pose proof (AppendMpsColumns_exporter e false transpose (e1, cs) H1) as H2;
    destruct (AppendMpsColumns false transpose (e1, cs)) as [e2 cs2]
  end.
  cbn [fst] in H2.
  match goal with
  | |- context [AppendNewLineIfTwoColumns (fold_left MpsRhs ?l ?s0)] =>
    assert (H3 : same_but_column e
                   (fst (AppendNewLineIfTwoColumns (fold_left MpsRhs l s0))))
      by (apply AppendNewLineIfTwoColumns_exporter;
          apply (fold_left_invariant (fun st => same_but_column e (fst st)));
          [intros; now apply MpsRhs_exporter
          | now apply same_but_column_set]);
    destruct (AppendNewLineIfTwoColumns (fold_left MpsRhs l s0)) as [e3 rhs]
  end.
  cbn [fst] in H3.
  match goal with
  | |- context [AppendNewLineIfTwoColumns (fold_left MpsRange ?l ?s0)] =>
    assert (H4 : same_but_column e
                   (fst (AppendNewLineIfTwoColumns (fold_left MpsRange l s0))))
      by (apply AppendNewLineIfTwoColumns_exporter;
          apply (fold_left_invariant (fun st => same_but_column e (fst st)));
          [intros; now apply MpsRange_exporter
          | now apply same_but_column_set]);
    destruct (AppendNewLineIfTwoColumns (fold_left MpsRange l s0))
      as [e4 ranges]
  end.
  cbn [fst] in *. now apply same_but_column_set.
Qed.

Lemma MpsRender_exporter FLAGS e :
  same_but_column e (exporter_of (MpsRender FLAGS e)).
Proof.
  unfold MpsRender, exporter_of.
  destruct (BuildTranspose _) as [[|] transpose]; cbn [fst].
  - pose proof (MpsTail_exporter (set_column 0 e) transpose
                  (MpsHead FLAGS (set_column 0 e))) as H.
    destruct (MpsTail _ _ _) as [e' out]. cbn [fst] in *.
    unfold same_but_column in *. rewrite H. reflexivity.
  - apply same_but_column_set, same_but_column_refl.
Qed.

Lemma Setup_state e : setup_state (fst (Setup e)).
Proof. unfold Setup. destruct (fold_left _ _ _). split; reflexivity. Qed.

Lemma ensure_setup_state e :
  widths_known e -> setup_state (fst (ensure_setup e)).
Proof.
  intros Hw. unfold ensure_setup. destruct (setup_done_ e) eqn:Hd.
  - destruct Hw as [(H & _) | (_ & H)]; [congruence | exact H].
  - apply Setup_state.
Qed.

(** What the assignments at the head of the export methods leave. *)
Lemma export_head_state e obfuscated fixed_format :
  widths_known e ->
  let e' := set_flags obfuscated fixed_format (fst (ensure_setup e)) in
  proto_ e' = proto_ e
  /\ setup_done_ e' = true /\ setup_state e'
  /\ use_obfuscated_names_ e' = obfuscated.
Proof.
  intros Hw e'. pose proof (ensure_setup_state e Hw) as Hs.
  pose proof (ensure_setup_proto e) as Hp.
  subst e'. destruct (ensure_setup e) as [e1 b]. cbn [fst] in *.
  repeat split; try assumption; apply Hs.
Qed.

Lemma lp_export_exporter FLAGS obfuscated e output :
  negb obfuscated && negb (CheckAllNamesValidity e) = false ->
  exporter_of (ExportModelAsLpFormat FLAGS obfuscated e output)
  = set_flags obfuscated (use_fixed_mps_format_ (fst (ensure_setup e)))
      (fst (ensure_setup e)).
Proof.
  intros Hgate. unfold ExportModelAsLpFormat. rewrite Hgate.
  destruct (ensure_setup e) as [e1 b]. now destruct (LpRender _ _).
Qed.

Lemma mps_export_exporter FLAGS fixed_format obfuscated e output :
  negb obfuscated && negb (CheckAllNamesValidity e) = false ->
  exists fixed,
    same_but_column (set_flags obfuscated fixed (fst (ensure_setup e)))
      (exporter_of
         (ExportModelAsMpsFormat FLAGS fixed_format obfuscated e output)).
Proof.
  intros Hgate. unfold ExportModelAsMpsFormat. rewrite Hgate.
  destruct (ensure_setup e) as [e1 b]. cbn [fst].
  destruct (fixed_format && _);
    eexists; apply MpsRender_exporter.
Qed.

Lemma widths_known_flags e obfuscated fixed e' :
  widths_known e ->
  same_but_column (set_flags obfuscated fixed (fst (ensure_setup e))) e' ->
  proto_ e' = proto_ e /\ widths_known e'
  /\ use_obfuscated_names_ e' = obfuscated.
Proof.
  intros Hw Hsame.
  destruct (export_head_state e obfuscated fixed Hw) as (Hp & Hd & Hs & Ho).
  destruct (same_but_column_fields _ _ Hsame)
    as (Hp' & _ & Ho' & Hd' & Hv' & Hc').
  split; [congruence|]. split; [|congruence]. right. split; [congruence|].
  unfold setup_state in *. rewrite Hp', Hv', Hc'. exact Hs.
Qed.

(** A reachable exporter holds the model it was made for, and its digit
    widths are 0 or those of [Setup]. *)
Lemma reachable_invariant m e :
  reachable m e -> proto_ e = m /\ widths_known e.
Proof.
  induction 1 as [| FLAGS obfuscated e output _ (Hp & Hw)
                  | FLAGS fixed_format obfuscated e output _ (Hp & Hw)].
  - split; [reflexivity|]. left. repeat split.
  - destruct (negb obfuscated && negb (CheckAllNamesValidity e)) eqn:Hgate.
    + unfold ExportModelAsLpFormat. rewrite Hgate. now split.
    + rewrite (lp_export_exporter FLAGS obfuscated e output Hgate).
      destruct (widths_known_flags e obfuscated
                  (use_fixed_mps_format_ (fst (ensure_setup e))) _ Hw
                  (same_but_column_refl _)) as (Hp' & Hw' & _).
      split; [congruence | exact Hw'].
  - destruct (negb obfuscated && negb (CheckAllNamesValidity e)) eqn:Hgate.
    + unfold ExportModelAsMpsFormat. rewrite Hgate. now split.
    + destruct (mps_export_exporter FLAGS fixed_format obfuscated e output
                  Hgate) as (fixed & Hsame).
      destruct (widths_known_flags e obfuscated _ _ Hw Hsame)
        as (Hp' & Hw' & _).
      split; [congruence | exact Hw'].
Qed.

(** ** The shape of the text *)

Lemma terminated_nl (a : string) : terminated (a ++ nl).
Proof. now exists a. Qed.

Lemma terminated_append (a b : string) : terminated b -> terminated (a ++ b).
Proof. intros (p & ->). exists (a ++ p). now assoc. Qed.

Lemma closed_nonempty (a : string) :
  closed a -> is_empty a = false -> terminated a.
Proof. intros [-> | H]; [discriminate | now intros _]. Qed.

Lemma append_section_terminated (title section output : string) :
  terminated output -> closed section ->
  terminated (append_section title section output).
Proof.
  intros Ho Hs. unfold append_section.
  destruct (is_empty section) eqn:He; [exact Ho|].
  do 3 apply terminated_append. now apply closed_nonempty.
Qed.

Lemma last_line_after (line text : string) :
  terminated text -> last_line_is line (text ++ line ++ nl).
Proof. intros (before & ->). exists before. now assoc. Qed.

Lemma last_line_nonempty (line text : string) :
  last_line_is line text -> text <> "".
Proof.
  intros (before & ->). apply is_empty_false.
  rewrite is_empty_append. cbn. apply andb_false_r.
Qed.

Lemma terminated_nl_only : terminated nl.
Proof. now exists "". Qed.

Ltac ends_nl :=
  repeat (apply terminated_append);
  first [apply terminated_nl | apply terminated_nl_only].

(** *** LP *)

Lemma LpBoundLine_terminated e var_index : terminated (LpBoundLine e var_index).
Proof. unfold LpBoundLine. destruct (_ && _); ends_nl. Qed.

Lemma LpTail_last_line e show_variable output :
  last_line_is "End" (LpTail e show_variable output).
Proof.
  unfold LpTail. apply last_line_after.
  assert (H0 : terminated (output ++ "Bounds" ++ nl)) by ends_nl.
  match goal with |- context [if fne ?a ?b then ?x else ?y] =>
    assert (H1 : terminated (if fne a b then x else y))
      by (destruct (fne a b); [ends_nl | exact H0]);
    generalize dependent (if fne a b then x else y)
  end.
  intros out1 H1.
  assert (H2 : terminated
                 (fold_left (LpBound e show_variable)
                    (range (MPModelProto.variable_size (proto_ e))) out1)).
  { apply fold_left_invariant; [|exact H1].
    intros a i _ Ha. unfold LpBound. destruct (shown _ _); [|exact Ha].
    apply terminated_append, LpBoundLine_terminated. }
  generalize dependent (fold_left (LpBound e show_variable)
                          (range (MPModelProto.variable_size (proto_ e))) out1).
  intros out2 H2.
  assert (H3 : terminated
                 (if 0 <? num_binary_variables_ e
                  then fold_left (LpBinary e show_variable)
                         (range (MPModelProto.variable_size (proto_ e)))
                         (out2 ++ "Binaries" ++ nl)
                  else out2)).
  { destruct (0 <? _); [|exact H2].
    apply fold_left_invariant; [|ends_nl].
    intros a i _ Ha. unfold LpBinary.
    destruct (shown _ _); [|exact Ha].
    destruct (IsBoolean _); [ends_nl | exact Ha]. }
  match goal with H : terminated ?t |- terminated (if _ then _ else ?t') =>
    change t' with t; generalize dependent t end.
  intros out3 H3.
  destruct (0 <? _); [|exact H3].
  apply fold_left_invariant; [|ends_nl].
  intros a i _ Ha. unfold LpGeneral.
  destruct (shown _ _); [|exact Ha]. destruct (_ && _); [ends_nl | exact Ha].
Qed.

Lemma LpConstraintTerms_in_range FLAGS e row s :
  forallb (row_in_range (proto_ e)) row = true ->
  fst (for_each (LpConstraintTerm FLAGS e) row s) = true.
Proof.
  intros Hrow. apply for_each_succeeds.
  intros [var_index coeff] [lbk sv] Hentry.
  rewrite forallb_forall in Hrow. specialize (Hrow _ Hentry).
  unfold row_in_range in Hrow. cbn [fst] in Hrow.
  unfold LpConstraintTerm.
  pose proof (WriteLpTerm_in_range e var_index coeff ltac:(lia)) as Hw.
  now destruct (WriteLpTerm e var_index coeff) as [[|] term].
Qed.

Lemma LpConstraint_in_range FLAGS e cst_index s :
  forallb (row_in_range (proto_ e))
    (MPConstraintProto.row (MPModelProto.constraint (proto_ e) cst_index))
  = true ->
  fst (LpConstraint FLAGS e cst_index s) = true.
Proof.
  intros Hrow. unfold LpConstraint. destruct s as [output show_variable].
  match goal with |- context [for_each ?b ?l ?s0] =>
    pose proof (LpConstraintTerms_in_range FLAGS e l s0 Hrow) as Hok;
    destruct (for_each b l s0) as [[|] [lbk sv]]
  end; [reflexivity | discriminate Hok].
Qed.

(** The LP text of a model whose rows are in range ends with [End]. *)
Lemma LpRender_in_range FLAGS e :
  all_in_range (proto_ e) = true ->
  snd (LpRender FLAGS e) = Done
  /\ last_line_is "End" (fst (LpRender FLAGS e)).
Proof.
  intros Hrange. unfold all_in_range in Hrange.
  rewrite forallb_forall in Hrange. unfold LpRender.
  match goal with |- context [for_each (LpObjectiveTerm FLAGS e) ?l ?s0] =>
    pose proof (LpObjective_succeeds FLAGS e s0) as Hobj;
    destruct (for_each (LpObjectiveTerm FLAGS e) l s0) as [[|] [lbk sv]]
  end; [|discriminate Hobj].
  match goal with |- context [for_each (LpConstraint FLAGS e) ?l ?s0] =>
    pose proof (for_each_succeeds (LpConstraint FLAGS e) l) as Hf;
    specialize (fun H => Hf H s0);
    destruct (for_each (LpConstraint FLAGS e) l s0) as [[|] [out sv']]
  end.
  - split; [reflexivity | apply LpTail_last_line].
  - cbn [fst] in Hf. discriminate Hf. intros i s Hi.
    apply LpConstraint_in_range, Hrange. now apply constraint_In.
Qed.

(** *** MPS *)

Lemma AppendNewLineIfTwoColumns_closed s :
  column_closed s -> closed (snd (AppendNewLineIfTwoColumns s)).
Proof.
  destruct s as [e output]. unfold column_closed, AppendNewLineIfTwoColumns.
  cbn [fst snd]. intros [(-> & H) | ->]; cbn [Z.add Z.eqb Pos.eqb snd].
  - exact H.
  - right. apply terminated_nl.
Qed.

Lemma AppendMpsTermWithContext_closed head_name name value s :
  column_closed s ->
  column_closed (AppendMpsTermWithContext head_name name value s).
Proof.
  destruct s as [e output].
  unfold column_closed, AppendMpsTermWithContext, AppendNewLineIfTwoColumns.
  cbn [fst snd]. intros [(-> & H) | ->]; cbn [Z.add Z.eqb Pos.eqb fst snd].
  - now right.
  - left. split; [reflexivity|]. right. apply terminated_nl.
Qed.

Lemma AppendMpsColumns_closed integrality transpose s :
  closed (snd s) -> closed (snd (AppendMpsColumns integrality transpose s)).
Proof.
  destruct s as [e output]. cbn [snd]. intros H. unfold AppendMpsColumns.
  apply (fold_left_invariant (fun st => closed (snd st))); [|exact H].
  intros [e1 out1] var_index _ H1. cbn [snd] in H1. unfold AppendMpsColumn.
  destruct (negb _); [exact H1|].
  apply AppendNewLineIfTwoColumns_closed.
  apply (fold_left_invariant column_closed).
  - intros st entry _ Hst. now apply AppendMpsTermWithContext_closed.
  - assert (H0 : column_closed (set_column 0 e1, out1))
      by (left; now split).
    destruct (fne _ _); [now apply AppendMpsTermWithContext_closed | exact H0].
Qed.

Lemma MpsRhs_closed csts s :
  column_closed s ->
  closed (snd (AppendNewLineIfTwoColumns (fold_left MpsRhs csts s))).
Proof.
  intros Hs. apply AppendNewLineIfTwoColumns_closed.
  apply (fold_left_invariant column_closed); [|exact Hs].
  intros st i _ Hst. unfold MpsRhs.
  destruct (fne _ _); [now apply AppendMpsTermWithContext_closed|].
  destruct (fne _ _); [now apply AppendMpsTermWithContext_closed | exact Hst].
Qed.

Lemma MpsRange_closed csts s :
  column_closed s ->
  closed (snd (AppendNewLineIfTwoColumns (fold_left MpsRange csts s))).
Proof.
  intros Hs. apply AppendNewLineIfTwoColumns_closed.
  apply (fold_left_invariant column_closed); [|exact Hs].
  intros st i _ Hst. unfold MpsRange.
  destruct (_ && _); [now apply AppendMpsTermWithContext_closed | exact Hst].
Qed.

Lemma column_closed_start e : column_closed (set_column 0 e, "").
Proof. left. split; [reflexivity | now left]. Qed.

Lemma AppendMpsBound_terminated e bound_type name value output :
  terminated (AppendMpsBound e bound_type name value output).
Proof. unfold AppendMpsBound. apply terminated_nl. Qed.

Lemma MpsBound_closed e bounds_section var_index :
  closed bounds_section -> closed (MpsBound e bounds_section var_index).
Proof.
  intros H. unfold MpsBound.
  repeat match goal with
         | |- closed (if ?c then _ else _) => destruct c
         end;
    try exact H; right;
    first [apply AppendMpsBound_terminated | ends_nl].
Qed.

Lemma MpsHead_terminated FLAGS e : terminated (MpsHead FLAGS e).
Proof.
  unfold MpsHead. apply append_section_terminated; [ends_nl|].
  apply fold_left_invariant.
  - intros a i _ _. right. unfold MpsRow.
    repeat match goal with
           | |- terminated (if ?c then _ else _) => destruct c
           end; apply terminated_nl.
  - right. apply terminated_nl.
Qed.

Lemma MpsTail_last_line e transpose output :
  terminated output ->
  last_line_is "ENDATA" (snd (MpsTail e transpose output)).
Proof.
  intros Ho. unfold MpsTail.
  pose proof (AppendMpsColumns_closed true transpose (e, "")
                (or_introl eq_refl)) as H1.
  destruct (AppendMpsColumns true transpose (e, "")) as [e1 cs1].
  cbn [snd] in H1.
  match goal with |- context [AppendMpsColumns false transpose (e1, ?cs)] =>
    assert (H2 : closed (snd (AppendMpsColumns false transpose (e1, cs))))
      by (apply AppendMpsColumns_closed; cbn [snd];
          destruct (is_empty cs1); [exact H1 | right; ends_nl]);
    destruct (AppendMpsColumns false transpose (e1, cs)) as [e2 cs2]
  end.
  cbn [snd] in H2.
  match goal with
  | |- context [AppendNewLineIfTwoColumns (fold_left MpsRhs ?l ?s0)] =>
      pose proof (MpsRhs_closed l s0 (column_closed_start e2)) as H3;
      destruct (AppendNewLineIfTwoColumns (fold_left MpsRhs l s0))
        as [e3 rhs]
  end.
  match goal with
  | |- context [AppendNewLineIfTwoColumns (fold_left MpsRange ?l ?s0)] =>
      pose proof (MpsRange_closed l s0 (column_closed_start e3)) as H4;
      destruct (AppendNewLineIfTwoColumns (fold_left MpsRange l s0))
        as [e4 ranges]
  end.
  cbn [fst snd] in *. apply last_line_after.
  apply append_section_terminated.
  - repeat (apply append_section_terminated; [|assumption]). exact Ho.
  - apply fold_left_invariant; [|now left].
    intros a i _ Ha. now apply MpsBound_closed.
Qed.

Lemma TransposeRow_in_range e cst_index transpose :
  forallb (row_in_range (proto_ e))
    (MPConstraintProto.row (MPModelProto.constraint (proto_ e) cst_index))
  = true ->
  fst (TransposeRow e cst_index transpose) = true.
Proof.
  intros Hrow. unfold TransposeRow. apply for_each_succeeds.
  intros [var_index coeff] t Hentry.
  rewrite forallb_forall in Hrow. specialize (Hrow _ Hentry).
  unfold row_in_range in Hrow. cbn [fst] in Hrow. unfold TransposeEntry.
  destruct ((var_index <? 0) || _)%bool eqn:Hc; [lia|].
  now destruct (fne coeff 0%float).
Qed.

(** The MPS text of a model whose rows are in range ends with [ENDATA]. *)
Lemma MpsRender_in_range FLAGS e :
  all_in_range (proto_ e) = true ->
  outcome_of (MpsRender FLAGS e) = Done
  /\ last_line_is "ENDATA" (output_of (MpsRender FLAGS e)).
Proof.
  intros Hrange. unfold all_in_range in Hrange.
  rewrite forallb_forall in Hrange. unfold MpsRender.
  assert (Hf : fst (BuildTranspose (set_column 0 e)) = true).
  { unfold BuildTranspose. apply for_each_succeeds. intros i t Hi.
    apply TransposeRow_in_range. cbn [set_column proto_] in *.
    apply Hrange. now apply constraint_In. }
  destruct (BuildTranspose (set_column 0 e)) as [[|] transpose];
    [|discriminate Hf].
  pose proof (MpsTail_last_line (set_column 0 e) transpose
                (MpsHead FLAGS (set_column 0 e))
                (MpsHead_terminated FLAGS _)) as Hlast.
  destruct (MpsTail _ _ _) as [e' output]. now split.
Qed.

Local Open Scope float_scope.

(** ** A ranged constraint (C3) *)

Lemma AppendMpsLineHeaderWithNewLine_text e id name output :
  AppendMpsLineHeaderWithNewLine e id name output
  = output ++ mps_line_header e id name ++ nl.
Proof.
  unfold AppendMpsLineHeaderWithNewLine.
  rewrite AppendMpsLineHeader_text. now assoc.
Qed.

(** An entry of a section written two entries to the line: the first one
    of a line comes after the line header, the second one ends the line. *)
Lemma AppendMpsTermWithContext_first head_name name value e output :
  current_mps_column_ e = 0%Z ->
  AppendMpsTermWithContext head_name name value (e, output)
  = (set_column 1 e,
     output ++ mps_line_header e "" head_name ++ mps_pair e name value).
Proof.
  intros Hcol. unfold AppendMpsTermWithContext, AppendNewLineIfTwoColumns.
  rewrite Hcol. cbn [Z.eqb Z.add Pos.eqb].
  rewrite AppendMpsPair_text, AppendMpsLineHeader_text. now assoc.
Qed.

Lemma AppendMpsTermWithContext_second head_name name value e output :
  current_mps_column_ e = 1%Z ->
  AppendMpsTermWithContext head_name name value (e, output)
  = (set_column 0 e, output ++ mps_pair e name value ++ nl).
Proof.
  intros Hcol. unfold AppendMpsTermWithContext, AppendNewLineIfTwoColumns.
  rewrite Hcol. cbn [Z.eqb Z.add Pos.eqb Pos.add].
  rewrite AppendMpsPair_text. now assoc.
Qed.




Local Close Scope float_scope.

(** ** Export of a well-formed model (C6) *)

(** C6.  On an exporter made for a model and used in any way since, when
    every declared name passes the name check (or the names are obfuscated)
    and every variable index of every row is within the variables, both
    exports return true, and the text they produce is not empty and has
    [End], respectively [ENDATA], as its last line. *)
Theorem C6_export_succeeds_and_ends_with_sentinel :
  forall (FLAGS : Flags) (fixed_format obfuscated : bool)
         (m : MPModelProto.t) (e : MPModelProtoExporter) (output : string),
    reachable m e ->
    fits_int m ->
    obfuscated = true \/ declared_names_valid m ->
    all_in_range m = true ->
    let lp := ExportModelAsLpFormat FLAGS obfuscated e output in
    let mps := ExportModelAsMpsFormat FLAGS fixed_format obfuscated e output in
    outcome_of lp = Done
    /\ output_of lp <> ""
    /\ last_line_is "End" (output_of lp)
    /\ outcome_of mps = Done
    /\ output_of mps <> ""
    /\ last_line_is "ENDATA" (output_of mps).
Proof.
  intros FLAGS fixed_format obfuscated m e output Hreach Hfits Hnames Hrange
         lp mps.
  destruct (reachable_invariant m e Hreach) as (Hproto & Hw). subst m.
  assert (Hgate : negb obfuscated && negb (CheckAllNamesValidity e) = false).
  { apply gate_passes. destruct Hnames as [-> | Hvalid]; [now left | right].
    now apply CheckAllNamesValidity_holds. }
  pose proof (ensure_setup_proto e) as Hp.
  assert (Hlp : outcome_of lp = Done /\ last_line_is "End" (output_of lp)).
  { subst lp. unfold ExportModelAsLpFormat. rewrite Hgate.
    destruct (ensure_setup e) as [e1 b]. cbn [fst] in Hp.
    match goal with |- context [LpRender FLAGS ?e2] =>
      assert (Hrange2 : all_in_range (proto_ e2) = true)
        by (cbn [set_flags proto_]; now rewrite Hp);
      pose proof (LpRender_in_range FLAGS e2 Hrange2) as Hr;
      destruct (LpRender FLAGS e2) as [out o]
    end. exact Hr. }
  assert (Hmps : outcome_of mps = Done
                 /\ last_line_is "ENDATA" (output_of mps)).
  { subst mps. unfold ExportModelAsMpsFormat. rewrite Hgate.
    destruct (ensure_setup e) as [e1 b]. cbn [fst] in Hp.
    apply MpsRender_in_range.
    destruct (fixed_format && _); cbn [set_flags proto_]; now rewrite Hp. }
  destruct Hlp as (Hlp1 & Hlp2). destruct Hmps as (Hmps1 & Hmps2).
  repeat split; try assumption; eapply last_line_nonempty; eassumption.
Qed.

Lemma C6_witness :
  let lp := ExportModelAsLpFormat default_flags false
              (new_exporter Samples.model) "" in
  let mps := ExportModelAsMpsFormat default_flags true false
               (new_exporter Samples.model) "" in
  outcome_of lp = Done /\ last_line_is "End" (output_of lp)
  /\ outcome_of mps = Done /\ last_line_is "ENDATA" (output_of mps).
Proof.
  assert (Hfits : fits_int Samples.model) by (split; reflexivity).
  assert (Hnames : declared_names_valid Samples.model).
  { split; intros x n Hx Hn; vm_compute in Hx;
      repeat (destruct Hx as [<- | Hx];
              [vm_compute in Hn; injection Hn as <-; reflexivity|]);
      destruct Hx. }
  destruct (C6_export_succeeds_and_ends_with_sentinel default_flags true false
              Samples.model (new_exporter Samples.model) ""
              (reachable_new _) Hfits (or_intror Hnames) eq_refl)
    as (H1 & _ & H2 & H3 & _ & H4).
  exact (conj H1 (conj H2 (conj H3 H4))).
Defined.

(** ** Repeated export (C8) *)

(** The names that passed the check with the declared names in use. *)
Lemma CheckAllNamesValidity_declared (e : MPModelProtoExporter) :
  use_obfuscated_names_ e = false ->
  CheckAllNamesValidity e = true ->
  declared_names_valid (proto_ e).
Proof.
  intros Hobf Hcheck. unfold CheckAllNamesValidity in Hcheck.
  rewrite andb_true_iff, !forallb_forall in Hcheck.
  destruct Hcheck as (Hv & Hc). split.
  - intros v n Hin Hn.
    destruct (In_variables_index _ _ Hin) as (i & Hi & <-).
    specialize (Hv i Hi). unfold GetVariableName in Hv.
    unfold MPVariableProto.has_name, MPVariableProto.name in Hv.
    now rewrite Hobf, Hn in Hv.
  - intros c n Hin Hn.
    destruct (In_constraints_index _ _ Hin) as (i & Hi & <-).
    specialize (Hc i Hi). unfold GetConstraintName in Hc.
    unfold MPConstraintProto.has_name, MPConstraintProto.name in Hc.
    now rewrite Hobf, Hn in Hc.
Qed.

(** The second of two identical calls passes the name check when the
    first one did, provided the first one checked the names it was asked
    to write. *)
Lemma second_call_passes obfuscated fixed e e' :
  widths_known e -> fits_int (proto_ e) ->
  obfuscated = true \/ use_obfuscated_names_ e = false ->
  negb obfuscated && negb (CheckAllNamesValidity e) = false ->
  same_but_column (set_flags obfuscated fixed (fst (ensure_setup e))) e' ->
  negb obfuscated && negb (CheckAllNamesValidity e') = false.
Proof.
  intros Hw Hfits Hfresh Hgate Hsame. apply gate_passes.
  destruct obfuscated; [now left | right].
  destruct Hfresh as [Hf | Hobf]; [discriminate|].
  cbn [negb andb] in Hgate. apply negb_false_iff in Hgate.
  destruct (widths_known_flags e false fixed e' Hw Hsame) as (Hp & Hw' & Ho).
  apply CheckAllNamesValidity_holds; try assumption; rewrite Hp;
    [exact Hfits | now apply CheckAllNamesValidity_declared].
Qed.

(** Two LP exports with the same flags, one after the other, on an exporter
    whose last export wrote the names that this one is asked to write (a new
    exporter, for one): the second call hands back what the first one did. *)
Lemma lp_export_twice FLAGS obfuscated m e output output' :
  reachable m e -> fits_int m ->
  obfuscated = true \/ use_obfuscated_names_ e = false ->
  let first := ExportModelAsLpFormat FLAGS obfuscated e output in
  let second :=
    ExportModelAsLpFormat FLAGS obfuscated (exporter_of first) output' in
  outcome_of second = outcome_of first
  /\ (outcome_of first <> Failed InvalidName -> second = first).
Proof.
  intros Hreach Hfits Hfresh first second.
  destruct (reachable_invariant m e Hreach) as (Hproto & Hw). subst m.
  destruct (negb obfuscated && negb (CheckAllNamesValidity e)) eqn:Hgate.
  - assert (Hfirst : first = (e, output, Failed InvalidName))
      by (subst first; unfold ExportModelAsLpFormat; now rewrite Hgate).
    subst second. rewrite Hfirst. unfold exporter_of, outcome_of. cbn [fst snd].
    unfold ExportModelAsLpFormat. rewrite Hgate. split; [reflexivity|].
    intros H. now contradiction H.
  - pose proof (lp_export_exporter FLAGS obfuscated e output Hgate) as He1.
    fold first in He1.
    assert (Hgate' : negb obfuscated
                     && negb (CheckAllNamesValidity (exporter_of first))
                     = false).
    { apply (second_call_passes obfuscated
               (use_fixed_mps_format_ (fst (ensure_setup e))) e);
        try assumption. rewrite He1. apply same_but_column_refl. }
    assert (Heq : second = first).
    { subst second. unfold ExportModelAsLpFormat at 1. rewrite Hgate'.
      rewrite He1. subst first. unfold ExportModelAsLpFormat.
      rewrite Hgate. destruct (ensure_setup e) as [e1 b]. reflexivity. }
    rewrite Heq. split; [reflexivity | now intros _].
Qed.

(** The same for two MPS exports. *)
Lemma mps_export_twice FLAGS fixed_format obfuscated m e output output' :
  reachable m e -> fits_int m ->
  obfuscated = true \/ use_obfuscated_names_ e = false ->
  let first := ExportModelAsMpsFormat FLAGS fixed_format obfuscated e output in
  let second :=
    ExportModelAsMpsFormat FLAGS fixed_format obfuscated (exporter_of first)
      output' in
  outcome_of second = outcome_of first
  /\ (outcome_of first <> Failed InvalidName -> second = first).
Proof.
  intros Hreach Hfits Hfresh first second.
  destruct (reachable_invariant m e Hreach) as (Hproto & Hw). subst m.
  destruct (negb obfuscated && negb (CheckAllNamesValidity e)) eqn:Hgate.
  - assert (Hfirst : first = (e, output, Failed InvalidName))
      by (subst first; unfold ExportModelAsMpsFormat; now rewrite Hgate).
    subst second. rewrite Hfirst. unfold exporter_of, outcome_of. cbn [fst snd].
    unfold ExportModelAsMpsFormat. rewrite Hgate. split; [reflexivity|].
    intros H. now contradiction H.
  - destruct (mps_export_exporter FLAGS fixed_format obfuscated e output Hgate)
      as (fixed & Hsame).
    fold first in Hsame.
    pose proof (second_call_passes obfuscated fixed e (exporter_of first)
                  Hw Hfits Hfresh Hgate Hsame) as Hgate'.
    assert (Heq : second = first).
    { subst second. unfold ExportModelAsMpsFormat at 1. rewrite Hgate'.
      subst first. unfold ExportModelAsMpsFormat. rewrite Hgate.
      destruct (ensure_setup e) as [e1 b]. clear Hsame Hgate'.
      match goal with |- context [exporter_of (MpsRender FLAGS ?x)] =>
        set (e2 := x) end.
      pose proof (MpsRender_exporter FLAGS e2) as Hs.
      unfold same_but_column in Hs.
      set (e3 := exporter_of (MpsRender FLAGS e2)) in *.
      rewrite Hs. subst e2.
      destruct (fixed_format
                && negb (CanUseFixedMpsFormat
                           (set_flags obfuscated fixed_format e1))) eqn:Hc;
        cbn [ensure_setup set_column set_flags setup_done_];
        match goal with |- context [CanUseFixedMpsFormat ?x] =>
          change (CanUseFixedMpsFormat x)
            with (CanUseFixedMpsFormat (set_flags obfuscated fixed_format e1))
        end; rewrite Hc; reflexivity. }
    rewrite Heq. split; [reflexivity | now intros _].
Qed.

Local Open Scope float_scope.

(** C8 on the code.  On one exporter for [Samples.ill_named], whose variable
    is named [a b], after an export with obfuscated names: the first LP
    export with the declared names returns true, with a text that has the
    name in it, and the second one, with the same flags and the model
    unchanged, returns false and writes nothing.  The name check reads
    [use_obfuscated_names_] before the method assigns it, so that the first
    call checks the synthetic names of the export before it.
    In the same way the header of the LP text of [Samples.model] says
    [Format : Free] on a new exporter and [Format : Fixed] after an MPS
    export in fixed format. *)
Theorem C8_repeated_export_not_identical :
  let obfuscated_once :=
    exporter_of (ExportModelAsLpFormat default_flags true
                   (new_exporter Samples.ill_named) "") in
  let first := ExportModelAsLpFormat default_flags false obfuscated_once "" in
  let second :=
    ExportModelAsLpFormat default_flags false (exporter_of first) "" in
  let lp := ExportModelAsLpFormat default_flags false
              (new_exporter Samples.model) "" in
  let mps := ExportModelAsMpsFormat default_flags true false
               (exporter_of lp) "" in
  let lp_again := ExportModelAsLpFormat default_flags false
                    (exporter_of mps) "" in
  proto_ (exporter_of first) = Samples.ill_named
  /\ outcome_of first = Done
  /\ nth 9 (lines_of (output_of first)) "" = " Obj: +1 a b "
  /\ outcome_of second = Failed InvalidName
  /\ output_of second = ""
  /\ output_of second <> output_of first
  /\ outcome_of lp = Done /\ outcome_of lp_again = Done
  /\ nth 2 (lines_of (output_of lp)) ""
     = backslash ++ "   Format           : Free"
  /\ nth 2 (lines_of (output_of lp_again)) ""
     = backslash ++ "   Format           : Fixed"
  /\ output_of lp_again <> output_of lp.
Proof.
  vm_compute. repeat split; discriminate.
Qed.

Local Close Scope float_scope.

(** * Further properties of the exporter *)

(** ** How the exports return *)

Lemma lp_export_in_range FLAGS obfuscated e output :
  negb obfuscated && negb (CheckAllNamesValidity e) = false ->
  all_in_range (proto_ e) = true ->
  outcome_of (ExportModelAsLpFormat FLAGS obfuscated e output) = Done.
Proof.
  intros Hgate Hrange. unfold ExportModelAsLpFormat. rewrite Hgate.
  pose proof (ensure_setup_proto e) as Hp.
  destruct (ensure_setup e) as [e1 b]. cbn [fst] in Hp.
  match goal with |- context [LpRender FLAGS ?e2] =>
    assert (Hrange2 : all_in_range (proto_ e2) = true)
      by (cbn [set_flags proto_]; now rewrite Hp);
    pose proof (LpRender_in_range FLAGS e2 Hrange2) as (Hr & _);
    destruct (LpRender FLAGS e2) as [out o]
  end. exact Hr.
Qed.

Lemma mps_export_in_range FLAGS fixed_format obfuscated e output :
  negb obfuscated && negb (CheckAllNamesValidity e) = false ->
  all_in_range (proto_ e) = true ->
  outcome_of (ExportModelAsMpsFormat FLAGS fixed_format obfuscated e output)
  = Done.
Proof.
  intros Hgate Hrange. unfold ExportModelAsMpsFormat. rewrite Hgate.
  pose proof (ensure_setup_proto e) as Hp.
  destruct (ensure_setup e) as [e1 b]. cbn [fst] in Hp.
  apply MpsRender_in_range.
  destruct (fixed_format && _); cbn [set_flags proto_]; now rewrite Hp.
Qed.

(** The two exports return in the same way on the same exporter, and the
    way is decided by the name check first and the range check second:
    false through the name check when the names are not obfuscated and
    [CheckAllNamesValidity] fails; otherwise false through the range check
    when some row has an index out of range; otherwise true.  Nothing else
    makes an export fail. *)
Theorem export_outcome_decided_by_names_then_range :
  forall (FLAGS : Flags) (fixed_format obfuscated : bool)
         (e : MPModelProtoExporter) (output : string),
    outcome_of (ExportModelAsLpFormat FLAGS obfuscated e output)
    = expected_outcome obfuscated e
    /\ outcome_of
         (ExportModelAsMpsFormat FLAGS fixed_format obfuscated e output)
       = expected_outcome obfuscated e.
Proof.
  intros FLAGS fixed_format obfuscated e output. unfold expected_outcome.
  destruct (negb obfuscated && negb (CheckAllNamesValidity e)) eqn:Hgate.
  - unfold ExportModelAsLpFormat, ExportModelAsMpsFormat. rewrite Hgate.
    split; reflexivity.
  - destruct (all_in_range (proto_ e)) eqn:Hrange.
    + split; [now apply lp_export_in_range | now apply mps_export_in_range].
    + apply all_in_range_false in Hrange. destruct Hrange as (entry & Hentry).
      split.
      * apply (lp_export_out_of_range FLAGS obfuscated e output _
                 Hentry Hgate).
      * apply (mps_export_out_of_range FLAGS fixed_format obfuscated e output
                 _ Hentry Hgate).
Qed.

(** ** The name check *)

Lemma CheckAllNamesValidity_synthetic (e : MPModelProtoExporter) :
  widths_known e ->
  fits_int (proto_ e) ->
  use_obfuscated_names_ e = true ->
  CheckAllNamesValidity e = true.
Proof.
  intros Hw (Hfv & Hfc) Hobf. unfold CheckAllNamesValidity.
  assert (Hwv : num_digits_for_variables_ e <= 10).
  { destruct Hw as [(_ & -> & _) | (_ & -> & _)]; [lia|].
    apply width_at_most_10. unfold MPModelProto.variable_size in *. lia. }
  assert (Hwc : num_digits_for_constraints_ e <= 10).
  { destruct Hw as [(_ & _ & ->) | (_ & _ & ->)]; [lia|].
    apply width_at_most_10. unfold MPModelProto.constraint_size in *. lia. }
  rewrite andb_true_iff, !forallb_forall. split; intros i Hi;
    apply In_range in Hi;
    unfold GetVariableName, GetConstraintName; rewrite Hobf; cbn [orb];
    apply synthetic_name_valid; try reflexivity; lia.
Qed.

(** Whatever the names of the model are, the names that an export with
    obfuscated names writes all pass [CheckNameValidity]: the exporter it
    leaves renders a [V] or a [C] followed by digits for every variable and
    constraint, and passes [CheckAllNamesValidity]. *)
Theorem obfuscated_export_writes_valid_names :
  forall (FLAGS : Flags) (fixed_format : bool) (m : MPModelProto.t)
         (e : MPModelProtoExporter) (output : string),
    reachable m e ->
    fits_int m ->
    CheckAllNamesValidity
      (exporter_of (ExportModelAsLpFormat FLAGS true e output)) = true
    /\ CheckAllNamesValidity
         (exporter_of
            (ExportModelAsMpsFormat FLAGS fixed_format true e output)) = true.
Proof.
  intros FLAGS fixed_format m e output Hreach Hfits.
  destruct (reachable_invariant m e Hreach) as (Hproto & Hw). subst m.
  split.
  - rewrite (lp_export_exporter FLAGS true e output eq_refl).
    destruct (widths_known_flags e true
                (use_fixed_mps_format_ (fst (ensure_setup e))) _ Hw
                (same_but_column_refl _)) as (Hp & Hw' & Ho).
    apply CheckAllNamesValidity_synthetic; try assumption. now rewrite Hp.
  - destruct (mps_export_exporter FLAGS fixed_format true e output eq_refl)
      as (fixed & Hsame).
    destruct (widths_known_flags e true fixed _ Hw Hsame) as (Hp & Hw' & Ho).
    apply CheckAllNamesValidity_synthetic; try assumption. now rewrite Hp.
Qed.

Lemma obfuscated_export_writes_valid_names_witness :
  CheckAllNamesValidity
    (exporter_of
       (ExportModelAsLpFormat default_flags true
          (new_exporter Samples.ill_named) "")) = true.
Proof.
  assert (Hfits : fits_int Samples.ill_named) by (split; reflexivity).
  exact (proj1 (obfuscated_export_writes_valid_names default_flags true
                  Samples.ill_named (new_exporter Samples.ill_named) ""
                  (reachable_new _) Hfits)).
Defined.

(** On an exporter whose last export, if any, wrote the declared names, the
    name check passes exactly when every declared name passes
    [CheckNameValidity] (a variable or constraint without a name never makes
    it fail); when one does not, both exports with the declared names
    return false at once: the exporter is as it was, [Setup] has not run,
    and the caller's output string is untouched. *)
Theorem invalid_name_aborts_before_any_output :
  forall (m : MPModelProto.t) (e : MPModelProtoExporter),
    reachable m e ->
    fits_int m ->
    use_obfuscated_names_ e = false ->
    (CheckAllNamesValidity e = true <-> declared_names_valid m)
    /\ (~ declared_names_valid m ->
        forall (FLAGS : Flags) (fixed_format : bool) (output : string),
          ExportModelAsLpFormat FLAGS false e output
          = (e, output, Failed InvalidName)
          /\ ExportModelAsMpsFormat FLAGS fixed_format false e output
             = (e, output, Failed InvalidName)).
Proof.
  intros m e Hreach Hfits Hobf.
  destruct (reachable_invariant m e Hreach) as (Hproto & Hw). subst m.
  assert (Hiff : CheckAllNamesValidity e = true
                 <-> declared_names_valid (proto_ e)).
  { split.
    - now apply CheckAllNamesValidity_declared.
    - now apply CheckAllNamesValidity_holds. }
  split; [exact Hiff|].
  intros Hinvalid FLAGS fixed_format output.
  destruct (CheckAllNamesValidity e) eqn:Hcheck;
    [contradiction Hinvalid; now apply Hiff|].
  unfold ExportModelAsLpFormat, ExportModelAsMpsFormat. rewrite Hcheck.
  split; reflexivity.
Qed.

Lemma invalid_name_aborts_before_any_output_witness :
  ExportModelAsLpFormat default_flags false
    (new_exporter Samples.ill_named) "kept"
  = (new_exporter Samples.ill_named, "kept", Failed InvalidName).
Proof.
  assert (Hfits : fits_int Samples.ill_named) by (split; reflexivity).
  destruct (invalid_name_aborts_before_any_output Samples.ill_named
              (new_exporter Samples.ill_named) (reachable_new _) Hfits
              eq_refl) as (_ & H).
  apply (H (fun Hvalid =>
              Bool.diff_false_true
                (proj1 Hvalid _ "a b" (or_introl eq_refl) eq_refl))
           default_flags true "kept").
Defined.

(** ** Synthetic names *)

Lemma parse_decimal_from_linear (s : string) :
  forall acc,
    parse_decimal_from acc s
    = acc * 10 ^ Z.of_nat (String.length s) + parse_decimal_from 0 s.
Proof.
  induction s as [|c s IH]; intros acc.
  - cbn [parse_decimal_from String.length]. change (10 ^ Z.of_nat 0) with 1.
    lia.
  - cbn [parse_decimal_from String.length].
    rewrite (IH (10 * acc + digit_value c)), (IH (10 * 0 + digit_value c)).
    rewrite Nat2Z.inj_succ, Z.pow_succ_r by lia. lia.
Qed.

Lemma digit_value_digit_char (d : Z) :
  0 <= d < 10 -> digit_value (Printf.digit_char d) = d.
Proof.
  intros Hd.
  assert (d = 0 \/ d = 1 \/ d = 2 \/ d = 3 \/ d = 4 \/ d = 5 \/ d = 6
          \/ d = 7 \/ d = 8 \/ d = 9) as H by lia.
  repeat (destruct H as [-> | H]; [reflexivity|]). now subst.
Qed.

Lemma parse_decimal_digits (fuel : nat) :
  forall (n : Z) (acc : string),
    0 <= n < 2 ^ (Z.of_nat fuel + 1) ->
    parse_decimal_from 0 (Printf.decimal_digits fuel n acc)
    = n * 10 ^ Z.of_nat (String.length acc) + parse_decimal_from 0 acc.
Proof.
  assert (Hlast : forall n acc,
            0 <= n < 10 ->
            parse_decimal_from 0 (String (Printf.digit_char n) acc)
            = n * 10 ^ Z.of_nat (String.length acc)
              + parse_decimal_from 0 acc).
  { intros n acc Hn. cbn [parse_decimal_from].
    rewrite parse_decimal_from_linear, digit_value_digit_char by exact Hn.
    lia. }
  induction fuel as [|fuel IH]; intros n acc Hn.
  - cbn [Printf.decimal_digits].
    change (2 ^ (Z.of_nat 0 + 1)) with 2 in Hn.
    rewrite Z.mod_small by lia. apply Hlast. lia.
  - cbn [Printf.decimal_digits]. destruct (n <? 10) eqn:Hlt.
    + rewrite Z.mod_small by lia. apply Hlast. lia.
    + assert (Hdiv : 0 <= n / 10 < 2 ^ (Z.of_nat fuel + 1)).
      { replace (Z.of_nat (S fuel) + 1) with (Z.succ (Z.of_nat fuel + 1)) in Hn
          by lia.
        rewrite Z.pow_succ_r in Hn by lia.
        split; [apply Z.div_pos; lia|].
        apply Z.div_lt_upper_bound; lia. }
      rewrite (IH _ _ Hdiv).
      pose proof (Z.mod_pos_bound n 10 ltac:(lia)) as Hmod.
      rewrite (Hlast _ _ Hmod). cbn [String.length].
      rewrite Nat2Z.inj_succ, Z.pow_succ_r by lia.
      pose proof (Z.div_mod n 10 ltac:(lia)) as Hdm.
      set (p := 10 ^ Z.of_nat (String.length acc)) in *.
      rewrite Hdm at 3. lia.
Qed.

(** Reading back the digits of a number gives the number. *)
Lemma parse_decimal_decimal (n : Z) :
  0 <= n -> parse_decimal (Printf.decimal n) = n.
Proof.
  intros Hn. unfold parse_decimal, Printf.decimal.
  rewrite parse_decimal_digits.
  - cbn [String.length parse_decimal_from]. change (10 ^ Z.of_nat 0) with 1.
    lia.
  - rewrite Z2Nat.id by apply Z.log2_nonneg. split; [exact Hn|].
    destruct (Z.eq_dec n 0) as [-> | Hnz]; [reflexivity|].
    replace (Z.log2 n + 1) with (Z.succ (Z.log2 n)) by lia.
    apply Z.log2_spec. lia.
Qed.

Lemma parse_decimal_zeros (k : nat) (s : string) :
  parse_decimal (replicate k "0" ++ s) = parse_decimal s.
Proof.
  unfold parse_decimal. induction k as [|k IH]; [reflexivity|].
  cbn [replicate append parse_decimal_from]. exact IH.
Qed.

(** The zero padding of [%0*d] does not change the number written. *)
Lemma parse_decimal_fmt_0d (w i : Z) :
  0 <= i -> parse_decimal (Printf.fmt_0d w i) = i.
Proof.
  intros Hi. rewrite fmt_0d_nonneg by exact Hi.
  rewrite parse_decimal_zeros. now apply parse_decimal_decimal.
Qed.

(** With obfuscated names, two variables get the same name only if they are
    the same variable, and so for the constraints; no variable has the name
    of a constraint.  After [Setup] all the names of the variables have the
    same length, one more than the number of digits of the number of
    variables, and so for the constraints. *)
Theorem obfuscated_names_are_distinct_and_aligned :
  forall e : MPModelProtoExporter,
    use_obfuscated_names_ e = true ->
    (forall i j, 0 <= i -> 0 <= j ->
                 GetVariableName e i = GetVariableName e j -> i = j)
    /\ (forall i j, 0 <= i -> 0 <= j ->
                    GetConstraintName e i = GetConstraintName e j -> i = j)
    /\ (forall i j, GetVariableName e i <> GetConstraintName e j)
    /\ (setup_state e ->
        (forall i, 0 <= i < MPModelProto.variable_size (proto_ e) ->
                   size (GetVariableName e i)
                   = 1 + num_digits_for_variables_ e)
        /\ (forall i, 0 <= i < MPModelProto.constraint_size (proto_ e) ->
                      size (GetConstraintName e i)
                      = 1 + num_digits_for_constraints_ e)).
Proof.
  intros e Hobf. unfold GetVariableName, GetConstraintName.
  rewrite Hobf. cbn [orb].
  split; [|split; [|split]].
  - intros i j Hi Hj Heq. injection Heq as Heq.
    apply (f_equal parse_decimal) in Heq.
    now rewrite !parse_decimal_fmt_0d in Heq.
  - intros i j Hi Hj Heq. injection Heq as Heq.
    apply (f_equal parse_decimal) in Heq.
    now rewrite !parse_decimal_fmt_0d in Heq.
  - intros i j Heq. discriminate Heq.
  - intros (Hv & Hc). split; intros i Hi.
    + rewrite Hv. now rewrite (synthetic_name_size "V" _ i Hi).
    + rewrite Hc. now rewrite (synthetic_name_size "C" _ i Hi).
Qed.

Lemma obfuscated_names_are_distinct_and_aligned_witness :
  let e := set_flags true false Samples.exporter in
  GetVariableName e 0 <> GetVariableName e 1
  /\ size (GetVariableName e 2) = 1 + num_digits_for_variables_ e.
Proof.
  destruct (obfuscated_names_are_distinct_and_aligned
              (set_flags true false Samples.exporter) eq_refl)
    as (Hdistinct & _ & _ & Haligned).
  split.
  - intros Heq. apply Hdistinct in Heq; [discriminate Heq | lia | lia].
  - destruct (Haligned (conj eq_refl eq_refl)) as (Hvar & _).
    apply Hvar. split; [lia | reflexivity].
Defined.

(** ** The counters of [Setup] *)

Lemma SetupCount_fold (vars : list MPVariableProto.t) :
  forall counts,
    fold_left SetupCount vars counts
    = (fst counts + Z.of_nat (List.length (filter IsBoolean vars)),
       snd counts
       + Z.of_nat
           (List.length
              (filter (fun var => MPVariableProto.is_integer var
                                  && negb (IsBoolean var)) vars))).
Proof.
  induction vars as [|var vars IH]; intros [nb ni].
  - cbn. f_equal; lia.
  - cbn [fold_left filter]. rewrite IH. unfold SetupCount.
    assert (Hbool : IsBoolean var = true
                    -> MPVariableProto.is_integer var = true).
    { unfold IsBoolean. now destruct (MPVariableProto.is_integer var). }
    destruct (MPVariableProto.is_integer var) eqn:Hint.
    + destruct (IsBoolean var); cbn [andb negb fst snd List.length];
        f_equal; lia.
    + destruct (IsBoolean var); [now discriminate Hbool|].
      cbn [andb fst snd]. reflexivity.
Qed.

Lemma filter_three_way (vars : list MPVariableProto.t) :
  (List.length (filter IsBoolean vars)
   + List.length
       (filter (fun var => MPVariableProto.is_integer var
                           && negb (IsBoolean var)) vars)
   + List.length
       (filter (fun var => negb (MPVariableProto.is_integer var)) vars)
   = List.length vars)%nat.
Proof.
  induction vars as [|var vars IH]; [reflexivity|]. cbn [filter].
  assert (Hbool : IsBoolean var = true
                  -> MPVariableProto.is_integer var = true).
  { unfold IsBoolean. now destruct (MPVariableProto.is_integer var). }
  destruct (MPVariableProto.is_integer var), (IsBoolean var);
    cbn [andb negb List.length]; lia.
Qed.

(** [Setup] always returns true and sorts every variable into exactly one
    of three classes: binary (integer, with bounds that round to [0, 1]),
    integer (integer and not binary) and continuous (not integer); the
    three counters add up to the number of variables.  The digit widths,
    the flags and the model are as [Setup] found them or computes them from
    the model alone. *)
Theorem Setup_classifies_every_variable_once :
  forall e : MPModelProtoExporter,
    let e' := fst (Setup e) in
    let vars := MPModelProto.variables (proto_ e) in
    snd (Setup e) = true
    /\ num_binary_variables_ e' = Z.of_nat (List.length (filter IsBoolean vars))
    /\ num_integer_variables_ e'
       = Z.of_nat
           (List.length
              (filter (fun var => MPVariableProto.is_integer var
                                  && negb (IsBoolean var)) vars))
    /\ num_continuous_variables_ e'
       = Z.of_nat
           (List.length
              (filter (fun var => negb (MPVariableProto.is_integer var)) vars))
    /\ num_binary_variables_ e' + num_integer_variables_ e'
       + num_continuous_variables_ e'
       = MPModelProto.variable_size (proto_ e)
    /\ fst (Setup e') = e'.
Proof.
  intros e e' vars. subst e'. unfold Setup.
  assert (Hfold := SetupCount_fold vars (0, 0)). fold vars.
  pose proof (filter_three_way vars) as Hsum.
  destruct (fold_left SetupCount vars (0, 0)) as [nb ni] eqn:Hcounts.
  cbn [fst snd] in *. injection Hfold as -> ->.
  cbn [proto_ fst snd num_binary_variables_ num_integer_variables_
       num_continuous_variables_ setup_done_ use_fixed_mps_format_
       use_obfuscated_names_ current_mps_column_].
  fold vars. rewrite Hcounts.
  unfold MPModelProto.variable_size. fold vars.
  repeat split; try reflexivity; lia.
Qed.

(** ** The transpose of the constraint matrix *)

Lemma vector_set_length {A} (i : nat) (x : A) (v : list A) :
  List.length (vector_set i x v) = List.length v.
Proof.
  revert i. induction v as [|y v IH]; intros [|i]; cbn; try reflexivity.
  now rewrite IH.
Qed.

Lemma nth_vector_set_eq {A} (i : nat) (x d : A) (v : list A) :
  (i < List.length v)%nat -> nth i (vector_set i x v) d = x.
Proof.
  revert i. induction v as [|y v IH]; intros [|i] Hi; cbn in *;
    try lia; [reflexivity|].
  apply IH. lia.
Qed.

Lemma nth_vector_set_neq {A} (i j : nat) (x d : A) (v : list A) :
  i <> j -> nth j (vector_set i x v) d = nth j v d.
Proof.
  revert i j. induction v as [|y v IH]; intros [|i] [|j] Hij; cbn;
    try reflexivity; try lia.
  apply IH. lia.
Qed.

(** One row: the entries with a coefficient that is not 0 are added to the
    lists of their variables, and nothing else changes. *)
Lemma TransposeRow_entries e cst_index (row : list (Z * float)) :
  forall t t',
    List.length t = Z.to_nat (MPModelProto.variable_size (proto_ e)) ->
    for_each (TransposeEntry e cst_index) row t = (true, t') ->
    List.length t' = List.length t
    /\ forall (v : nat) (c : Z) (k : float),
         In (c, k) (nth v t' [])
         <-> In (c, k) (nth v t [])
             \/ (c = cst_index /\ In (Z.of_nat v, k) row
                 /\ fne k 0%float = true
                 /\ (v < List.length t)%nat).
Proof.
  induction row as [|[var_index coeff] row IH]; intros t t' Hlen Hrun.
  - cbn in Hrun. injection Hrun as <-. split; [reflexivity|].
    intros v c k. cbn [In]. tauto.
  - cbn [for_each] in Hrun. unfold TransposeEntry at 1 in Hrun.
    destruct ((var_index <? 0) || _)%bool eqn:Hc; [discriminate Hrun|].
    assert (Hvi : (Z.to_nat var_index < List.length t)%nat) by lia.
    destruct (fne coeff 0%float) eqn:Hnz.
    + match type of Hrun with for_each _ _ ?t1 = _ =>
        assert (Hlen1 : List.length t1
                        = Z.to_nat (MPModelProto.variable_size (proto_ e)))
          by (rewrite vector_set_length; exact Hlen);
        destruct (IH t1 t' Hlen1 Hrun) as (Hlen' & Hin)
      end.
      rewrite vector_set_length in Hlen'. split; [exact Hlen'|].
      intros v c k. rewrite Hin, vector_set_length. cbn [In].
      destruct (Nat.eq_dec (Z.to_nat var_index) v) as [<- | Hneq].
      * rewrite nth_vector_set_eq by exact Hvi. rewrite in_app_iff.
        cbn [In]. rewrite Z2Nat.id by lia. split.
        -- intros [[H | [H | []]] | (-> & H & Hk & Hv)]; [now left | |].
           ++ injection H as <- <-. right. repeat split; auto.
           ++ right. repeat split; auto.
        -- intros [H | (-> & [H | H] & Hk & Hv)]; [left; now left | |].
           ++ injection H as <-. left. right. now left.
           ++ right. repeat split; auto.
      * rewrite nth_vector_set_neq by exact Hneq. split.
        -- intros [H | (-> & H & Hk & Hv)]; [now left|].
           right. repeat split; auto.
        -- intros [H | (-> & [H | H] & Hk & Hv)]; [now left | |].
           ++ injection H as H _. lia.
           ++ right. repeat split; auto.
    + destruct (IH _ t' Hlen Hrun) as (Hlen' & Hin).
      split; [exact Hlen'|]. intros v c k. rewrite Hin. cbn [In]. split.
      * intros [H | (-> & H & Hk & Hv)]; [now left|].
        right. repeat split; auto.
      * intros [H | (-> & [H | H] & Hk & Hv)]; [now left | |].
        -- injection H as _ <-. congruence.
        -- right. repeat split; auto.
Qed.

Lemma BuildTranspose_entries e (csts : list Z) :
  forall t t',
    List.length t = Z.to_nat (MPModelProto.variable_size (proto_ e)) ->
    for_each (TransposeRow e) csts t = (true, t') ->
    List.length t' = List.length t
    /\ forall (v : nat) (c : Z) (k : float),
         In (c, k) (nth v t' [])
         <-> In (c, k) (nth v t [])
             \/ (In c csts
                 /\ In (Z.of_nat v, k)
                      (MPConstraintProto.row
                         (MPModelProto.constraint (proto_ e) c))
                 /\ fne k 0%float = true
                 /\ (v < List.length t)%nat).
Proof.
  induction csts as [|cst_index csts IH]; intros t t' Hlen Hrun.
  - cbn in Hrun. injection Hrun as <-. split; [reflexivity|].
    intros v c k. cbn [In]. tauto.
  - cbn [for_each] in Hrun.
    destruct (TransposeRow e cst_index t) as [[|] t1] eqn:Hrow;
      [|discriminate Hrun].
    destruct (TransposeRow_entries e cst_index _ t t1 Hlen Hrow)
      as (Hlen1 & Hin1).
    destruct (IH t1 t' ltac:(congruence) Hrun) as (Hlen' & Hin).
    split; [congruence|]. intros v c k.
    rewrite Hin, Hin1, Hlen1. cbn [In]. split.
    + intros [[H | (-> & H)] | (Hc & H)];
        [now left | right | right]; tauto.
    + intros [H | ([<- | Hc] & H)]; [left; now left | | right; tauto].
      left. right. tauto.
Qed.

(** The transpose that the MPS export builds has one list for each variable,
    and the list of a variable holds exactly the pairs of a constraint index
    and a coefficient for which the row of that constraint has an entry with
    that variable and that coefficient, the coefficient not being 0. *)
Theorem BuildTranspose_holds_the_nonzero_entries :
  forall (e : MPModelProtoExporter) (transpose : Transpose),
    BuildTranspose e = (true, transpose) ->
    List.length transpose
    = Z.to_nat (MPModelProto.variable_size (proto_ e))
    /\ forall (var_index cst_index : Z) (coeff : float),
         0 <= var_index < MPModelProto.variable_size (proto_ e) ->
         (In (cst_index, coeff) (nth (Z.to_nat var_index) transpose [])
          <-> 0 <= cst_index < MPModelProto.constraint_size (proto_ e)
              /\ In (var_index, coeff)
                   (MPConstraintProto.row
                      (MPModelProto.constraint (proto_ e) cst_index))
              /\ fne coeff 0%float = true).
Proof.
  intros e transpose Hrun. unfold BuildTranspose in Hrun.
  assert (Hlen0 : List.length
                    (repeat (@nil (Z * float))
                       (Z.to_nat (MPModelProto.variable_size (proto_ e))))
                  = Z.to_nat (MPModelProto.variable_size (proto_ e)))
    by apply repeat_length.
  destruct (BuildTranspose_entries e _ _ _ Hlen0 Hrun) as (Hlen & Hin).
  split; [congruence|]. intros var_index cst_index coeff Hv.
  rewrite Hin, Hlen0, In_range, Z2Nat.id by lia.
  assert (Hempty : nth (Z.to_nat var_index)
                     (repeat (@nil (Z * float))
                        (Z.to_nat (MPModelProto.variable_size (proto_ e))))
                     [] = []).
  { apply nth_repeat_lt. lia. }
  rewrite Hempty. cbn [In]. split.
  - intros [[] | H]. tauto.
  - intros H. right. repeat split; try tauto. lia.
Qed.

Lemma BuildTranspose_holds_the_nonzero_entries_witness :
  In (0, 1%float)
     (nth 0 (snd (BuildTranspose Samples.exporter)) [])
  <-> 0 <= 0 < MPModelProto.constraint_size (proto_ Samples.exporter)
      /\ In (0, 1%float)
           (MPConstraintProto.row
              (MPModelProto.constraint (proto_ Samples.exporter) 0))
      /\ fne 1 0 = true.
Proof.
  refine (proj2 (BuildTranspose_holds_the_nonzero_entries Samples.exporter
                   (snd (BuildTranspose Samples.exporter)) _) 0 0 1%float _).
  - reflexivity.
  - split; [lia | reflexivity].
Defined.

(** ** The COLUMNS section *)

(** A variable that is 0 in the objective and has only coefficients equal
    to 0 in the rows, or none, has an empty list in the transpose, and the
    loop of [AppendMpsColumns] appends nothing for it: the variable is
    missing from the COLUMNS section. *)
Theorem unused_variable_is_absent_from_columns :
  forall (e : MPModelProtoExporter) (transpose : Transpose) (var_index : Z),
    BuildTranspose e = (true, transpose) ->
    0 <= var_index < MPModelProto.variable_size (proto_ e) ->
    PrimFloat.eqb
      (MPVariableProto.objective_coefficient
         (MPModelProto.variable (proto_ e) var_index)) 0 = true ->
    (forall ct coeff,
       In ct (MPModelProto.constraints (proto_ e)) ->
       In (var_index, coeff) (MPConstraintProto.row ct) ->
       PrimFloat.eqb coeff 0 = true) ->
    nth (Z.to_nat var_index) transpose [] = []
    /\ forall (integrality : bool) (e' : MPModelProtoExporter)
              (output : string),
         proto_ e' = proto_ e ->
         snd (AppendMpsColumn integrality transpose (e', output) var_index)
         = output.
Proof.
  intros e transpose var_index Hrun Hv Hobj Hrows.
  assert (Hempty : nth (Z.to_nat var_index) transpose [] = []).
  { unfold BuildTranspose in Hrun.
    destruct (BuildTranspose_entries e _ _ _
                (repeat_length _ _) Hrun) as (_ & Hin).
    destruct (nth (Z.to_nat var_index) transpose []) as [|[c k] l] eqn:Hnth;
      [reflexivity|].
    specialize (Hin (Z.to_nat var_index) c k).
    rewrite Hnth, Z2Nat.id in Hin by lia.
    destruct (proj1 Hin (or_introl eq_refl)) as [Hold | (Hc & Hentry & Hk & _)].
    - rewrite nth_repeat_lt in Hold by lia. destruct Hold.
    - apply constraint_In in Hc. specialize (Hrows _ _ Hc Hentry).
      unfold fne in Hk. rewrite Hrows in Hk. discriminate Hk. }
  split; [exact Hempty|].
  intros integrality e' output Hproto. unfold AppendMpsColumn.
  rewrite Hproto. destruct (negb _); [reflexivity|].
  unfold fne. rewrite Hobj, Hempty. reflexivity.
Qed.

Lemma unused_variable_is_absent_from_columns_witness :
  snd (AppendMpsColumn true (snd (BuildTranspose Samples.exporter))
         (Samples.exporter, "") 1) = "".
Proof.
  refine (proj2 (unused_variable_is_absent_from_columns Samples.exporter
                   (snd (BuildTranspose Samples.exporter)) 1 eq_refl _
                   eq_refl _) true Samples.exporter "" eq_refl).
  - split; [lia | reflexivity].
  - intros ct coeff [<- | []] [Hentry | [Hentry | []]];
      injection Hentry as Hindex _; discriminate Hindex.
Defined.

(** Two entries go on a line: from the start of a line, the first entry is
    written after the line header and leaves the line open; the second one
    is written next to it and ends the line, and the exporter is at the
    start of a line again.  The names are printed through [%s], up to their
    first NUL; the values are not NaN. *)
Theorem two_mps_entries_make_one_line :
  forall (e : MPModelProtoExporter) (head_name name1 name2 : string)
         (value1 value2 : float) (output : string),
    PrimFloat.is_nan value1 = false ->
    PrimFloat.is_nan value2 = false ->
    let start := set_column 0 e in
    let entry name value :=
      "  " ++ (if use_fixed_mps_format_ e
               then Printf.pad_right 8 (c_str name)
               else Printf.pad_right 16 (c_str name))
      ++ "  " ++ mps_value_text e value ++ " " in
    let header :=
      if use_fixed_mps_format_ e
      then "    " ++ Printf.pad_right 8 (c_str head_name)
      else "     " ++ Printf.pad_right 16 (c_str head_name) in
    AppendMpsTermWithContext head_name name1 value1 (start, output)
    = (set_column 1 e, output ++ header ++ entry name1 value1)
    /\ AppendMpsTermWithContext head_name name2 value2
         (AppendMpsTermWithContext head_name name1 value1 (start, output))
       = (start,
          output ++ header ++ entry name1 value1 ++ entry name2 value2 ++ nl).
Proof.
  intros e head_name name1 name2 value1 value2 output _ _ start entry header.
  assert (Hheader : header = mps_line_header start "" head_name)
    by (subst header start; unfold mps_line_header;
        cbn [set_column use_fixed_mps_format_];
        now destruct (use_fixed_mps_format_ e)).
  assert (Hentry : forall c name value,
            entry name value = mps_pair (set_column c e) name value)
    by reflexivity.
  rewrite (AppendMpsTermWithContext_first head_name name1 value1 start output)
    by reflexivity.
  rewrite (AppendMpsTermWithContext_second head_name name2 value2
             (set_column 1 start)) by reflexivity.
  rewrite Hheader, (Hentry 0%Z name1), (Hentry 1%Z name2).
  split; [reflexivity | now assoc].
Qed.

Lemma two_mps_entries_make_one_line_witness :
  AppendMpsTermWithContext "RHS" "c1" 2%float
    (AppendMpsTermWithContext "RHS" "c0" 10%float
       (set_column 0 Samples.exporter, ""))
  = (set_column 0 Samples.exporter,
     "    RHS       c0                  10   c1                   2 " ++ nl).
Proof.
  exact (proj2 (two_mps_entries_make_one_line Samples.exporter "RHS" "c0" "c1"
                  10%float 2%float "" eq_refl eq_refl)).
Defined.

(** ** Fixed format that cannot be used *)

(** When the names are not obfuscated and some variable or constraint has a
    declared name of more than 8 characters, an MPS export that asks for the
    fixed format hands back exactly what the export that asks for the free
    format does: the same return, the same text, the same exporter. *)
Theorem fixed_format_request_falls_back_to_free :
  forall (FLAGS : Flags) (e : MPModelProtoExporter) (output : string),
    (exists var, In var (MPModelProto.variables (proto_ e))
                 /\ 8 < size (MPVariableProto.name var))
    \/ (exists ct, In ct (MPModelProto.constraints (proto_ e))
                   /\ 8 < size (MPConstraintProto.name ct)) ->
    ExportModelAsMpsFormat FLAGS true false e output
    = ExportModelAsMpsFormat FLAGS false false e output.
Proof.
  intros FLAGS e output Hlong. unfold ExportModelAsMpsFormat.
  destruct (negb false && negb (CheckAllNamesValidity e)); [reflexivity|].
  pose proof (ensure_setup_proto e) as Hp.
  destruct (ensure_setup e) as [e1 b]. cbn [fst] in Hp.
  assert (Hcan : CanUseFixedMpsFormat (set_flags false true e1) = false).
  { destruct (CanUseFixedMpsFormat (set_flags false true e1)) eqn:Hcan;
      [|reflexivity].
    apply CanUseFixedMpsFormat_named in Hcan; [|reflexivity].
    cbn [set_flags proto_] in Hcan. rewrite Hp in Hcan.
    destruct Hcan as (Hc & Hv).
    destruct Hlong as [(var & Hin & Hsize) | (ct & Hin & Hsize)].
    - specialize (Hv var Hin). lia.
    - specialize (Hc ct Hin). lia. }
  rewrite Hcan. reflexivity.
Qed.

Lemma fixed_format_request_falls_back_to_free_witness :
  ExportModelAsMpsFormat default_flags true false
    (new_exporter Samples.long_named) ""
  = ExportModelAsMpsFormat default_flags false false
      (new_exporter Samples.long_named) "".
Proof.
  apply fixed_format_request_falls_back_to_free.
  left. exists (MPModelProto.variable Samples.long_named 0).
  split; [left; reflexivity | vm_compute; reflexivity].
Defined.

(** ** Doubles: infinities and finite values *)

Lemma eqb_infinity (x : float) :
  PrimFloat.eqb x infinity = true -> x = infinity.
Proof.
  intros H. rewrite FloatAxioms.eqb_spec in H. apply Prim2SF_inj.
  change (Prim2SF infinity) with (S754_infinity false) in *.
  destruct (Prim2SF x) as [s | s | | s m e'];
    try destruct s; try discriminate H; reflexivity.
Qed.




(** ** The BOUNDS section *)

Lemma terminated_nonempty (s : string) : terminated s -> s <> "".
Proof.
  intros (before & ->). apply is_empty_false.
  rewrite is_empty_append. apply andb_false_r.
Qed.

Lemma append_same_prefix (a b : string) : a ++ b = a -> b = "".
Proof.
  induction a as [|c a IH]; cbn; [trivial|].
  intros H. injection H as H. now apply IH.
Qed.

Lemma MpsBound_extends e bounds_section var_index :
  MpsBound e bounds_section var_index
  = bounds_section ++ MpsBound e "" var_index.
Proof.
  unfold MpsBound.
  repeat match goal with
         | |- context [if ?c then _ else _] => destruct c
         end;
    rewrite ?AppendMpsBound_text, ?AppendMpsLineHeader_text;
    cbn [append]; assoc; rewrite ?append_nil_r; reflexivity.
Qed.

(** The BOUNDS section has at least one row for every variable but the
    integer variables with a lower bound equal to 0 and an upper bound equal
    to +infinity: those, and only those, have none.  A continuous variable
    always has a row. *)
Theorem MpsBound_writes_nothing_iff_default_integer_bounds :
  forall (e : MPModelProtoExporter) (bounds_section : string) (var_index : Z),
    let var := MPModelProto.variable (proto_ e) var_index in
    MpsBound e bounds_section var_index = bounds_section
    <-> MPVariableProto.is_integer var = true
        /\ PrimFloat.eqb (MPVariableProto.lower_bound var) 0 = true
        /\ PrimFloat.eqb (MPVariableProto.upper_bound var) infinity = true.
Proof.
  intros e bounds_section var_index var. rewrite MpsBound_extends. split.
  - intros H. apply append_same_prefix in H. revert H.
    unfold MpsBound. fold var. unfold fne.
    destruct (MPVariableProto.is_integer var).
    + destruct (IsBoolean var);
        [intros H; now apply terminated_nonempty in H; [|ends_nl]|].
      destruct (PrimFloat.eqb (MPVariableProto.lower_bound var) 0),
               (PrimFloat.eqb (MPVariableProto.upper_bound var) infinity);
        cbn [negb]; intros H; try (repeat split; reflexivity);
        now apply terminated_nonempty in H;
          [|apply AppendMpsBound_terminated].
    + destruct (_ && _);
        [intros H; now apply terminated_nonempty in H; [|ends_nl]|].
      destruct (PrimFloat.eqb (MPVariableProto.lower_bound var)
                  (MPVariableProto.upper_bound var));
        [intros H; now apply terminated_nonempty in H;
           [|apply AppendMpsBound_terminated]|].
      destruct (PrimFloat.eqb (MPVariableProto.lower_bound var) 0),
               (PrimFloat.eqb (MPVariableProto.upper_bound var) infinity);
        cbn [negb]; intros H;
        now apply terminated_nonempty in H;
          [|first [apply AppendMpsBound_terminated | ends_nl]].
  - intros (Hint & Hlb & Hub). apply eqb_infinity in Hub.
    unfold MpsBound. fold var.
    rewrite Hint, (IsBoolean_unbounded var Hub). unfold fne.
    rewrite Hlb, Hub. cbn. apply append_nil_r.
Qed.

(** ** Constraints with an infinite bound *)





(** A constraint with no bound at all is left out of the LP text: nothing is
    appended for it under [Subject to].  The MPS text keeps it as an L row,
    its name printed through [%s] (up to its first NUL), with no entry in
    RHS and none in RANGES. *)
Theorem unbounded_constraint_is_dropped_from_lp :
  forall (e : MPModelProtoExporter) (cst_index : Z),
    let ct := MPModelProto.constraint (proto_ e) cst_index in
    let name := GetConstraintName e cst_index in
    MPConstraintProto.lower_bound ct = neg_infinity ->
    MPConstraintProto.upper_bound ct = infinity ->
    (forall line_breaker output,
       LpConstraintLines name neg_infinity infinity line_breaker output
       = output)
    /\ (forall rows_section,
          MpsRow e rows_section cst_index
          = rows_section
            ++ (if use_fixed_mps_format_ e
                then " L  " ++ Printf.pad_right 8 (c_str name)
                else " L   " ++ Printf.pad_right 16 (c_str name))
            ++ nl)
    /\ (forall section, MpsRhs (e, section) cst_index = (e, section))
    /\ (forall section, MpsRange (e, section) cst_index = (e, section)).
Proof.
  intros e cst_index ct name Hlb Hub.
  split; [|split; [|split]].
  - reflexivity.
  - intros rows_section. unfold MpsRow. fold ct. fold name.
    rewrite Hlb, Hub.
    change (PrimFloat.eqb neg_infinity infinity) with false.
    change (PrimFloat.eqb neg_infinity neg_infinity) with true. cbv iota.
    rewrite AppendMpsLineHeaderWithNewLine_text.
    unfold mps_line_header. now destruct (use_fixed_mps_format_ e).
  - intros section. unfold MpsRhs. cbn [fst]. fold ct.
    now rewrite Hlb, Hub.
  - intros section. unfold MpsRange. cbn [fst]. fold ct.
    now rewrite Hlb, Hub.
Qed.

Lemma unbounded_constraint_is_dropped_from_lp_witness :
  MpsRow (new_exporter Samples.one_sided) "" 2
  = " L   C2              " ++ nl
  /\ MpsRhs (new_exporter Samples.one_sided, "") 2
     = (new_exporter Samples.one_sided, "").
Proof.
  destruct (unbounded_constraint_is_dropped_from_lp
              (new_exporter Samples.one_sided) 2 eq_refl eq_refl)
    as (_ & Hrow & Hrhs & _).
  exact (conj (Hrow "") (Hrhs "")).
Defined.

(** ** The length of the lines of a line breaker *)

Lemma lines_of_nonempty (s : string) : lines_of s <> [].
Proof.
  destruct s as [|c s]; cbn [lines_of]; [discriminate|].
  destruct (Ascii.eqb c (ascii_of_nat 10)); [discriminate|].
  destruct (lines_of s); discriminate.
Qed.

Lemma lines_of_no_line_feed (t : string) :
  no_line_feed t = true -> lines_of t = [t].
Proof.
  unfold no_line_feed. induction t as [|c t IH]; [reflexivity|].
  cbn [contains_char lines_of]. rewrite negb_true_iff, orb_false_iff.
  intros (Hc & Ht). rewrite Ascii.eqb_sym, Hc.
  rewrite IH by now rewrite Ht. reflexivity.
Qed.

(** Text after a line feed starts new lines. *)
Lemma lines_of_after_line_feed (a t : string) :
  lines_of (a ++ nl ++ t) = List.app (lines_of a) (lines_of t).
Proof.
  induction a as [|c a IH]; [reflexivity|].
  cbn [append lines_of]. rewrite IH.
  destruct (Ascii.eqb c (ascii_of_nat 10)); [reflexivity|].
  pose proof (lines_of_nonempty a) as Hne.
  destruct (lines_of a) as [|l ls]; [contradiction | reflexivity].
Qed.

(** Text without a line feed goes on the last line. *)
Lemma lines_of_same_line (a t : string) :
  no_line_feed t = true ->
  lines_of (a ++ t)
  = List.app (removelast (lines_of a)) [last (lines_of a) "" ++ t].
Proof.
  intros Ht. induction a as [|c a IH].
  - cbn. now apply lines_of_no_line_feed.
  - cbn [append lines_of]. rewrite IH.
    pose proof (lines_of_nonempty a) as Hne.
    destruct (Ascii.eqb c (ascii_of_nat 10)).
    + destruct (lines_of a) as [|l ls]; [contradiction | reflexivity].
    + destruct (lines_of a) as [|l [|l2 ls]]; [contradiction | |];
        reflexivity.
Qed.

Lemma Forall_removelast {A} (P : A -> Prop) (l : list A) :
  Forall P l -> Forall P (removelast l).
Proof.
  induction 1 as [|x l Hx Hl IH]; [constructor|].
  cbn [removelast]. destruct l; [constructor|]. now constructor.
Qed.

Lemma Append_keeps_lines_short (s : string) (b : LineBreaker.t) :
  no_line_feed s = true ->
  size s <= LineBreaker.max_line_size_ b ->
  let limit := LineBreaker.max_line_size_ b + 1 in
  let inv (b : LineBreaker.t) :=
    Forall (fun l => size l <= limit) (lines_of (LineBreaker.output_ b))
    /\ size (last (lines_of (LineBreaker.output_ b)) "")
       <= LineBreaker.line_size_ b + 1
    /\ LineBreaker.line_size_ b <= LineBreaker.max_line_size_ b in
  inv b ->
  inv (LineBreaker.Append s b)
  /\ LineBreaker.max_line_size_ (LineBreaker.Append s b)
     = LineBreaker.max_line_size_ b.
Proof.
  intros Hs Hsize limit inv (Hall & Hlast & Hcount). subst inv limit.
  unfold LineBreaker.Append.
  destruct (LineBreaker.max_line_size_ b <? _) eqn:Hbreak;
    cbn [LineBreaker.output_ LineBreaker.line_size_
         LineBreaker.max_line_size_]; (split; [|reflexivity]).
  - assert (Hspace : no_line_feed (" " ++ s) = true).
    { unfold no_line_feed in *. cbn [append contains_char].
      now rewrite orb_false_l. }
    rewrite lines_of_after_line_feed, (lines_of_no_line_feed _ Hspace).
    rewrite last_last. change (size (" " ++ s)) with (size (String " " s)).
    assert (Hone : size (String " " s) = 1 + size s)
      by (unfold size; cbn [String.length]; lia).
    repeat split; try lia.
    apply Forall_app. split; [exact Hall|].
    constructor; [|constructor].
    change (" " ++ s) with (String " " s). lia.
  - rewrite (lines_of_same_line _ _ Hs), last_last, size_append.
    repeat split; try lia.
    apply Forall_app. split; [now apply Forall_removelast|].
    constructor; [|constructor]. rewrite size_append. lia.
Qed.

(** With a maximum line size that is not negative and tokens that have no
    line feed in them and are not longer than the maximum, no line of the
    text of a line breaker is longer than the maximum plus one: the one is
    the space that follows the line feed of a break. *)
Theorem LineBreaker_lines_exceed_by_at_most_one :
  forall (max_line_size : Z) (tokens : list string),
    0 <= max_line_size ->
    Forall (fun s => no_line_feed s = true /\ size s <= max_line_size)
           tokens ->
    Forall (fun l => size l <= max_line_size + 1)
           (lines_of
              (LineBreaker.GetOutput
                 (AppendAll tokens (LineBreaker.new max_line_size)))).
Proof.
  intros max_line_size tokens Hmax Htokens.
  assert (Hgen : forall b,
            LineBreaker.max_line_size_ b = max_line_size ->
            Forall (fun l => size l <= max_line_size + 1)
                   (lines_of (LineBreaker.output_ b))
            /\ size (last (lines_of (LineBreaker.output_ b)) "")
               <= LineBreaker.line_size_ b + 1
            /\ LineBreaker.line_size_ b <= max_line_size ->
            Forall (fun l => size l <= max_line_size + 1)
                   (lines_of (LineBreaker.output_ (AppendAll tokens b)))).
  { induction Htokens as [|s tokens (Hs & Hsize) _ IH]; intros b Hb Hinv.
    - exact (proj1 Hinv).
    - cbn [AppendAll fold_left].
      fold (AppendAll tokens (LineBreaker.Append s b)).
      subst max_line_size.
      destruct (Append_keeps_lines_short s b Hs Hsize Hinv) as (Hinv' & Hb').
      apply IH; [exact Hb'|]. cbv zeta in Hinv'. rewrite Hb' in Hinv'.
      exact Hinv'. }
  apply Hgen; [reflexivity|].
  cbn. repeat split; try lia. constructor; [cbn; lia | constructor].
Qed.

Lemma LineBreaker_lines_exceed_by_at_most_one_witness :
  Forall (fun l => size l <= 3 + 1)
         (lines_of
            (LineBreaker.GetOutput
               (AppendAll ["ab"; "abc"] (LineBreaker.new 3)))).
Proof.
  apply LineBreaker_lines_exceed_by_at_most_one; [lia|].
  repeat constructor; vm_compute; discriminate.
Defined.

(** ** Exporting twice *)

(** Two exports through the same method with the same flags, one after the
    other, on an exporter whose last export, if any, rendered the names the
    way this one is asked to (a new exporter, or obfuscated names asked
    for): the second call returns as the first one does, and unless they
    return through the name check it hands back the same text and leaves
    the same exporter, whatever the output strings held before. *)
Theorem repeated_export_is_identical_when_naming_is_unchanged :
  forall (FLAGS : Flags) (fixed_format obfuscated : bool)
         (m : MPModelProto.t) (e : MPModelProtoExporter)
         (output output' : string),
    reachable m e ->
    fits_int m ->
    obfuscated = true \/ use_obfuscated_names_ e = false ->
    let lp := ExportModelAsLpFormat FLAGS obfuscated e output in
    let lp' := ExportModelAsLpFormat FLAGS obfuscated (exporter_of lp)
                 output' in
    let mps := ExportModelAsMpsFormat FLAGS fixed_format obfuscated e output in
    let mps' := ExportModelAsMpsFormat FLAGS fixed_format obfuscated
                  (exporter_of mps) output' in
    outcome_of lp' = outcome_of lp
    /\ (outcome_of lp <> Failed InvalidName -> lp' = lp)
    /\ outcome_of mps' = outcome_of mps
    /\ (outcome_of mps <> Failed InvalidName -> mps' = mps).
Proof.
  intros FLAGS fixed_format obfuscated m e output output' Hreach Hfits Hsame
         lp lp' mps mps'.
  destruct (lp_export_twice FLAGS obfuscated m e output output'
              Hreach Hfits Hsame) as (H1 & H2).
  destruct (mps_export_twice FLAGS fixed_format obfuscated m e output output'
              Hreach Hfits Hsame) as (H3 & H4).
  repeat split; assumption.
Qed.

Lemma repeated_export_is_identical_when_naming_is_unchanged_witness :
  let lp := ExportModelAsLpFormat default_flags false
              (new_exporter Samples.model) "" in
  ExportModelAsLpFormat default_flags false (exporter_of lp) "old text" = lp.
Proof.
  assert (Hfits : fits_int Samples.model) by (split; reflexivity).
  destruct (repeated_export_is_identical_when_naming_is_unchanged
              default_flags true false Samples.model
              (new_exporter Samples.model) "" "old text"
              (reachable_new _) Hfits (or_intror eq_refl))
    as (_ & H & _).
  apply H. vm_compute. discriminate.
Defined.

(** ** Names with a suffix *)

Lemma has_any_of_append (chars a b : string) :
  has_any_of chars (a ++ b) = has_any_of chars a || has_any_of chars b.
Proof.
  induction a as [|c a IH]; [reflexivity|].
  cbn [append has_any_of]. rewrite IH. apply orb_assoc.
Qed.

(** The two lines of a ranged constraint are written under the name of the
    constraint followed by [_rhs] and [_lhs].  For a name that passes
    [CheckNameValidity], the name with the suffix passes it exactly when
    the name has at most 251 characters: the suffix brings no forbidden
    character, only length. *)
Theorem suffixed_name_is_valid_up_to_251_characters :
  forall name : string,
    CheckNameValidity name = true ->
    (CheckNameValidity (name ++ "_rhs") = true <-> size name <= 251)
    /\ (CheckNameValidity (name ++ "_lhs") = true <-> size name <= 251).
Proof.
  intros name Hvalid.
  assert (Hsuffix : forall suffix,
            size suffix = 4 -> has_any_of kForbiddenChars suffix = false ->
            (CheckNameValidity (name ++ suffix) = true <-> size name <= 251)).
  { intros suffix Hsize Hclean. unfold CheckNameValidity in *.
    destruct name as [|c0 name]; [discriminate Hvalid|].
    cbn [append]. change (String c0 (name ++ suffix))
      with (String c0 name ++ suffix).
    rewrite size_append, has_any_of_append, Hclean, orb_false_r, Hsize.
    unfold kMaxNameLength in *.
    destruct (255 <? size (String c0 name)) eqn:Hlen; [discriminate Hvalid|].
    destruct (has_any_of kForbiddenChars (String c0 name));
      [discriminate Hvalid|].
    destruct (contains_char c0 kForbiddenFirstChars); [discriminate Hvalid|].
    destruct (255 <? size (String c0 name) + 4) eqn:Hlen'; split; intros H;
      try reflexivity; try discriminate H; lia. }
  split; apply Hsuffix; reflexivity.
Qed.

Lemma suffixed_name_is_valid_up_to_251_characters_witness :
  CheckNameValidity ("c" ++ "_rhs") = true <-> size "c" <= 251.
Proof.
  exact (proj1 (suffixed_name_is_valid_up_to_251_characters "c" eq_refl)).
Defined.

(** ** Which variables the LP text shows *)


Lemma nth_vector_set_default {A} (i : nat) (d : A) (v : list A) :
  nth i (vector_set i d v) d = d.
Proof.
  revert i. induction v as [|y v IH]; intros [|i]; cbn; try reflexivity.
  apply IH.
Qed.

Lemma WriteLpTerm_succeeds_in_range e var_index coefficient :
  fst (WriteLpTerm e var_index coefficient) = true ->
  0 <= var_index < MPModelProto.variable_size (proto_ e).
Proof.
  unfold WriteLpTerm.
  destruct ((var_index <? 0) || _)%bool eqn:Hc; [discriminate | lia].
Qed.

(** The flags [show_variable] after the two loops of the LP export are
    what every property kept by the assignments to it says. *)
Lemma LpRender_show_variable FLAGS e (P : list bool -> Prop) :
  all_in_range (proto_ e) = true ->
  P (repeat (lp_shows_unused_variables FLAGS)
       (Z.to_nat (MPModelProto.variable_size (proto_ e)))) ->
  (forall show_variable var_index coeff,
     P show_variable ->
     0 <= var_index < MPModelProto.variable_size (proto_ e) ->
     coeff = MPVariableProto.objective_coefficient
               (MPModelProto.variable (proto_ e) var_index)
     \/ (exists ct, In ct (MPModelProto.constraints (proto_ e))
                    /\ In (var_index, coeff) (MPConstraintProto.row ct)) ->
     P (vector_set (Z.to_nat var_index)
          (fne coeff 0%float || lp_shows_unused_variables FLAGS)
          show_variable)) ->
  exists show_variable output,
    LpRender FLAGS e = (LpTail e show_variable output, Done)
    /\ P show_variable.
Proof.
  intros Hrange Hinit Hstep. unfold LpRender.
  match goal with |- context [for_each (LpObjectiveTerm FLAGS e) ?l ?s0] =>
    pose proof (LpObjective_succeeds FLAGS e s0) as Hobj;
    pose proof (for_each_invariant (fun s => P (snd s))
                  (LpObjectiveTerm FLAGS e) l) as Hobj_inv;
    specialize (fun H => Hobj_inv H s0 Hinit);
    destruct (for_each (LpObjectiveTerm FLAGS e) l s0) as [[|] [lbk sv0]]
  end; [|discriminate Hobj].
  assert (Hsv0 : P sv0).
  { apply Hobj_inv. intros i [lbk' sv'] Hi Hsv'. apply In_range in Hi.
    unfold LpObjectiveTerm.
    destruct (WriteLpTerm _ _ _) as [[|] term]; cbn [snd] in *;
      [|exact Hsv']. apply Hstep; [exact Hsv' | exact Hi | now left]. }
  clear Hobj_inv.
  match goal with |- context [for_each (LpConstraint FLAGS e) ?l (?o, sv0)] =>
    pose proof (for_each_succeeds (LpConstraint FLAGS e) l) as Hct;
    specialize (fun H => Hct H (o, sv0));
    pose proof (for_each_invariant (fun s => P (snd s))
                  (LpConstraint FLAGS e) l) as Hct_inv;
    specialize (fun H => Hct_inv H (o, sv0) Hsv0);
    destruct (for_each (LpConstraint FLAGS e) l (o, sv0)) as [[|] [out sv]]
  end.
  - exists sv, out. split; [reflexivity|]. apply Hct_inv.
    intros c [out' sv'] Hc Hsv'. cbn [snd] in Hsv'.
    pose proof (constraint_In _ _ Hc) as Hin.
    unfold LpConstraint.
    match goal with |- context [for_each (LpConstraintTerm FLAGS e) ?l ?s0] =>
      pose proof (for_each_invariant (fun s => P (snd s))
                    (LpConstraintTerm FLAGS e) l) as Hrow;
      specialize (fun H => Hrow H s0 Hsv');
      destruct (for_each (LpConstraintTerm FLAGS e) l s0)
        as [[|] [lbk' sv'']]
    end; cbn [snd] in *; [|exact Hsv'].
    apply Hrow. intros [var_index coeff] [lbk1 sv1] Hentry Hsv1.
    unfold LpConstraintTerm.
    pose proof (WriteLpTerm_succeeds_in_range e var_index coeff) as Hin_range.
    destruct (WriteLpTerm e var_index coeff) as [[|] term]; cbn [snd] in *;
      [|exact Hsv1].
    apply Hstep; [exact Hsv1 | now apply Hin_range |].
    right. now exists (MPModelProto.constraint (proto_ e) c).
  - cbn [fst] in Hct. discriminate Hct. intros i s Hi.
    apply LpConstraint_in_range.
    unfold all_in_range in Hrange. rewrite forallb_forall in Hrange.
    apply Hrange. now apply constraint_In.
Qed.



(** Without [lp_shows_unused_variables], a variable that is 0 in the
    objective and whose coefficients in the rows, if it has any, all equal
    0 is not shown: the Bounds, Binaries and Generals sections of the LP
    text have no line for it. *)
Theorem lp_hides_unused_variable :
  forall (FLAGS : Flags) (e : MPModelProtoExporter) (var_index : Z),
    lp_shows_unused_variables FLAGS = false ->
    all_in_range (proto_ e) = true ->
    0 <= var_index < MPModelProto.variable_size (proto_ e) ->
    PrimFloat.eqb
      (MPVariableProto.objective_coefficient
         (MPModelProto.variable (proto_ e) var_index)) 0 = true ->
    (forall ct coeff,
       In ct (MPModelProto.constraints (proto_ e)) ->
       In (var_index, coeff) (MPConstraintProto.row ct) ->
       PrimFloat.eqb coeff 0 = true) ->
    exists show_variable output,
      LpRender FLAGS e = (LpTail e show_variable output, Done)
      /\ shown show_variable var_index = false
      /\ forall text,
           LpBound e show_variable text var_index = text
           /\ LpBinary e show_variable text var_index = text
           /\ LpGeneral e show_variable text var_index = text.
Proof.
  intros FLAGS e var_index Hflag Hrange Hv Hobj Hrows.
  destruct (LpRender_show_variable FLAGS e
              (fun sv => shown sv var_index = false) Hrange)
    as (sv & out & Hrender & Hsv).
  - rewrite Hflag. unfold shown.
    destruct (Nat.lt_ge_cases (Z.to_nat var_index)
                (Z.to_nat (MPModelProto.variable_size (proto_ e))))
      as [Hlt | Hge]; [now apply nth_repeat_lt|].
    apply nth_overflow. now rewrite repeat_length.
  - intros sv i coeff Hsv Hi Hcoeff. rewrite Hflag, orb_false_r.
    unfold shown in *.
    destruct (Z.eq_dec i var_index) as [-> | Hneq].
    + assert (Hzero : fne coeff 0%float = false).
      { unfold fne. destruct Hcoeff as [-> | (ct & Hct & Hentry)].
        - now rewrite Hobj.
        - now rewrite (Hrows ct coeff Hct Hentry). }
      rewrite Hzero. apply nth_vector_set_default.
    + rewrite nth_vector_set_neq by lia. exact Hsv.
  - exists sv, out. split; [exact Hrender|]. split; [exact Hsv|].
    intros text. unfold LpBound, LpBinary, LpGeneral. now rewrite Hsv.
Qed.

Lemma lp_hides_unused_variable_witness :
  exists show_variable output,
    LpRender default_flags Samples.exporter
    = (LpTail Samples.exporter show_variable output, Done)
    /\ shown show_variable 1 = false
    /\ forall text,
         LpBound Samples.exporter show_variable text 1 = text
         /\ LpBinary Samples.exporter show_variable text 1 = text
         /\ LpGeneral Samples.exporter show_variable text 1 = text.
Proof.
  apply (lp_hides_unused_variable default_flags Samples.exporter 1);
    try reflexivity.
  - split; [lia | reflexivity].
  - intros ct coeff [<- | []] [Hentry | [Hentry | []]];
      injection Hentry as Hindex _; discriminate Hindex.
Defined.

(** ** Variables with an infinite bound *)

(** The integer form of the LP bound line does not ask for finite bounds:
    an integer variable with an integral lower bound and the upper bound
    +infinity gets the line [ lb <= name <= inf], the name printed through
    [%s], that is, up to its first NUL. *)
Theorem lp_bound_line_prints_infinite_integer_bound_as_inf :
  forall (e : MPModelProtoExporter) (var_index : Z),
    let var := MPModelProto.variable (proto_ e) var_index in
    let lb := MPVariableProto.lower_bound var in
    MPVariableProto.is_integer var = true ->
    PrimFloat.eqb lb (round lb) = true ->
    MPVariableProto.upper_bound var = infinity ->
    LpBoundLine e var_index
    = " " ++ Printf.fmt_f0 lb ++ " <= " ++ c_str (GetVariableName e var_index)
      ++ " <= inf" ++ nl.
Proof.
  intros e var_index var lb Hint Hlb Hub. unfold LpBoundLine.
  fold var. fold lb. rewrite Hint, Hlb, Hub. reflexivity.
Qed.

Lemma lp_bound_line_prints_infinite_integer_bound_as_inf_witness :
  LpBoundLine Samples.exporter 2 = " 0 <= n <= inf" ++ nl.
Proof.
  exact (lp_bound_line_prints_infinite_integer_bound_as_inf
           Samples.exporter 2 eq_refl eq_refl eq_refl).
Defined.



(** ** The integer markers of the COLUMNS section *)

(** The pass of [AppendMpsColumns] over the integer variables appends
    nothing when no variable of the model is integer, so that the COLUMNS
    section gets no MARKER lines; and the pass over the continuous
    variables appends nothing when every variable is integer. *)
Theorem columns_pass_skips_the_other_kind :
  forall (e : MPModelProtoExporter) (transpose : Transpose)
         (integrality : bool) (e' : MPModelProtoExporter) (output : string),
    proto_ e' = proto_ e ->
    (forall var, In var (MPModelProto.variables (proto_ e)) ->
                 MPVariableProto.is_integer var = negb integrality) ->
    snd (AppendMpsColumns integrality transpose (e', output)) = output.
Proof.
  intros e transpose integrality e' output Hproto Hkind.
  unfold AppendMpsColumns.
  apply (fold_left_invariant
           (fun s => proto_ (fst s) = proto_ e /\ snd s = output));
    [|now split].
  intros [e1 out1] i Hi (Hp1 & Hout1). cbn [fst snd] in *.
  unfold AppendMpsColumn. rewrite Hp1. rewrite Hproto in Hi.
  rewrite (Hkind _ (variable_In _ _ Hi)).
  destruct integrality; cbn; now split.
Qed.

Lemma columns_pass_skips_the_other_kind_witness :
  snd (AppendMpsColumns true [] (new_exporter Samples.one_sided, "")) = "".
Proof.
  apply (columns_pass_skips_the_other_kind (new_exporter Samples.one_sided));
    [reflexivity|].
  intros var [<- | []]. reflexivity.
Defined.

(** ** The exporter object is new or set up *)

Lemma Setup_set_flags obfuscated fixed e :
  fst (Setup (set_flags obfuscated fixed e))
  = set_flags obfuscated fixed (fst (Setup e)).
Proof.
  unfold Setup. cbn [set_flags proto_ current_mps_column_
                     use_fixed_mps_format_ use_obfuscated_names_ setup_done_].
  now destruct (fold_left _ _ _).
Qed.

Lemma Setup_set_column c e :
  fst (Setup (set_column c e)) = set_column c (fst (Setup e)).
Proof.
  unfold Setup. cbn [set_column proto_ current_mps_column_
                     use_fixed_mps_format_ use_obfuscated_names_ setup_done_].
  now destruct (fold_left _ _ _).
Qed.

Lemma Setup_twice e : fst (Setup (fst (Setup e))) = fst (Setup e).
Proof.
  unfold Setup at 2 3. destruct (fold_left _ _ _) as [nb ni] eqn:Hfold.
  cbn [fst]. unfold Setup.
  cbn [proto_ current_mps_column_ use_fixed_mps_format_
       use_obfuscated_names_ setup_done_].
  now rewrite Hfold.
Qed.

(** An exporter is either as the constructor made it, [Setup] not done, or
    set up: then its counters and digit widths are exactly the ones that
    [Setup] computes from the model, so that running [Setup] again would
    change nothing.  In both cases it holds the model it was made for: no
    export changes the model. *)
Theorem reachable_exporter_is_new_or_set_up :
  forall (m : MPModelProto.t) (e : MPModelProtoExporter),
    reachable m e ->
    proto_ e = m
    /\ (setup_done_ e = false -> e = new_exporter m)
    /\ (setup_done_ e = true -> fst (Setup e) = e).
Proof.
  assert (Hhead : forall m e obfuscated fixed,
            proto_ e = m ->
            (setup_done_ e = false -> e = new_exporter m) ->
            (setup_done_ e = true -> fst (Setup e) = e) ->
            let e' := set_flags obfuscated fixed (fst (ensure_setup e)) in
            proto_ e' = m /\ setup_done_ e' = true /\ fst (Setup e') = e').
  { intros m e obfuscated fixed Hp Hnew Hdone e'. subst e'.
    rewrite Setup_set_flags. cbn [set_flags proto_ setup_done_].
    rewrite ensure_setup_proto. split; [exact Hp|]. split; [reflexivity|].
    f_equal. unfold ensure_setup. destruct (setup_done_ e) eqn:Hd.
    - now apply Hdone.
    - apply Setup_twice. }
  intros m e Hreach.
  induction Hreach as [| FLAGS obfuscated e output _ (Hp & Hnew & Hdone)
                       | FLAGS fixed_format obfuscated e output _
                           (Hp & Hnew & Hdone)].
  - split; [reflexivity|]. split; [reflexivity | discriminate].
  - destruct (negb obfuscated && negb (CheckAllNamesValidity e)) eqn:Hgate.
    + unfold ExportModelAsLpFormat. rewrite Hgate. now repeat split.
    + rewrite (lp_export_exporter FLAGS obfuscated e output Hgate).
      destruct (Hhead m e obfuscated
                  (use_fixed_mps_format_ (fst (ensure_setup e)))
                  Hp Hnew Hdone) as (Hp' & Hd' & Hs').
      split; [exact Hp'|]. split; [congruence | now intros _].
  - destruct (negb obfuscated && negb (CheckAllNamesValidity e)) eqn:Hgate.
    + unfold ExportModelAsMpsFormat. rewrite Hgate. now repeat split.
    + destruct (mps_export_exporter FLAGS fixed_format obfuscated e output
                  Hgate) as (fixed & Hsame).
      destruct (Hhead m e obfuscated fixed Hp Hnew Hdone)
        as (Hp' & Hd' & Hs').
      unfold same_but_column in Hsame. rewrite Hsame.
      rewrite Setup_set_column, Hs'. cbn [set_column proto_ setup_done_].
      split; [exact Hp'|]. split; [congruence | now intros _].
Qed.

Lemma reachable_exporter_is_new_or_set_up_witness :
  proto_ Samples.exporter = Samples.model
  /\ fst (Setup Samples.exporter) = Samples.exporter.
Proof.
  destruct (reachable_exporter_is_new_or_set_up Samples.model
              Samples.exporter
              (reachable_mps _ default_flags true false _ ""
                 (reachable_new _))) as (Hp & _ & Hs).
  split; [exact Hp | exact (Hs eq_refl)].
Defined.

(** ** What the MPS text leaves out *)

Section OtherObjective.

Variable maximize : bool.
Variable objective_offset : float.

Abbreviation other := (other_objective maximize objective_offset).
Abbreviation other_state :=
  (other_objective_state maximize objective_offset).

Lemma fold_left_other_state {I}
    (f f' : MPModelProtoExporter * string -> I -> MPModelProtoExporter * string)
    (l : list I) :
  (forall s i, f' (other_state s) i = other_state (f s i)) ->
  forall s, fold_left f' l (other_state s) = other_state (fold_left f l s).
Proof.
  intros Hstep. induction l as [|i l IH]; intros s; [reflexivity|].
  cbn [fold_left]. rewrite Hstep. apply IH.
Qed.

Lemma AppendNewLineIfTwoColumns_other s :
  AppendNewLineIfTwoColumns (other_state s)
  = other_state (AppendNewLineIfTwoColumns s).
Proof.
  destruct s as [e output]. unfold AppendNewLineIfTwoColumns.
  cbn [other_objective_state fst snd other_objective current_mps_column_].
  destruct (current_mps_column_ e + 1 =? 2); reflexivity.
Qed.

Lemma AppendMpsTermWithContext_other head_name name value s :
  AppendMpsTermWithContext head_name name value (other_state s)
  = other_state (AppendMpsTermWithContext head_name name value s).
Proof.
  destruct s as [e output]. unfold AppendMpsTermWithContext.
  cbn [other_objective_state fst snd].
  rewrite <- AppendNewLineIfTwoColumns_other. reflexivity.
Qed.

Lemma AppendMpsColumn_other integrality transpose s var_index :
  AppendMpsColumn integrality transpose (other_state s) var_index
  = other_state (AppendMpsColumn integrality transpose s var_index).
Proof.
  destruct s as [e output]. unfold AppendMpsColumn.
  cbn [other_objective_state fst snd].
  change (MPModelProto.variable (proto_ (other e)) var_index)
    with (MPModelProto.variable (proto_ e) var_index).
  set (var_proto := MPModelProto.variable (proto_ e) var_index).
  destruct (negb (Bool.eqb (MPVariableProto.is_integer var_proto)
                    integrality)); [reflexivity|].
  rewrite <- AppendNewLineIfTwoColumns_other. f_equal.
  change (set_column 0 (other e), output)
    with (other_state (set_column 0 e, output)).
  set (start := (set_column 0 e, output)).
  assert (Hcost :
    (if fne (MPVariableProto.objective_coefficient var_proto) 0
     then AppendMpsTermWithContext (GetVariableName (other e) var_index)
            "COST" (MPVariableProto.objective_coefficient var_proto)
            (other_state start)
     else other_state start)
    = other_state
        (if fne (MPVariableProto.objective_coefficient var_proto) 0
         then AppendMpsTermWithContext (GetVariableName e var_index)
                "COST" (MPVariableProto.objective_coefficient var_proto)
                start
         else start)).
  { destruct (fne _ 0); [|reflexivity].
    apply AppendMpsTermWithContext_other. }
  rewrite Hcost. apply fold_left_other_state.
  intros s i. apply AppendMpsTermWithContext_other.
Qed.

Lemma AppendMpsColumns_other integrality transpose s :
  AppendMpsColumns integrality transpose (other_state s)
  = other_state (AppendMpsColumns integrality transpose s).
Proof.
  destruct s as [e output]. unfold AppendMpsColumns.
  cbn [other_objective_state fst snd].
  change (set_column 0 (other e), output)
    with (other_state (set_column 0 e, output)).
  apply (fold_left_other_state
           (AppendMpsColumn integrality transpose)
           (AppendMpsColumn integrality transpose)).
  intros s i. apply AppendMpsColumn_other.
Qed.

Lemma MpsRhs_other s cst_index :
  MpsRhs (other_state s) cst_index = other_state (MpsRhs s cst_index).
Proof.
  destruct s as [e output]. unfold MpsRhs.
  cbn [other_objective_state fst snd].
  change (MPModelProto.constraint (proto_ (other e)) cst_index)
    with (MPModelProto.constraint (proto_ e) cst_index).
  destruct (fne _ neg_infinity);
    [apply (AppendMpsTermWithContext_other _ _ _ (e, output))|].
  destruct (fne _ infinity);
    [apply (AppendMpsTermWithContext_other _ _ _ (e, output))|reflexivity].
Qed.

Lemma MpsRange_other s cst_index :
  MpsRange (other_state s) cst_index = other_state (MpsRange s cst_index).
Proof.
  destruct s as [e output]. unfold MpsRange.
  cbn [other_objective_state fst snd].
  change (MPModelProto.constraint (proto_ (other e)) cst_index)
    with (MPModelProto.constraint (proto_ e) cst_index).
  destruct (_ && _);
    [apply (AppendMpsTermWithContext_other _ _ _ (e, output))|reflexivity].
Qed.

Lemma MpsTail_other e transpose output :
  MpsTail (other e) transpose output
  = other_state (MpsTail e transpose output).
Proof.
  unfold MpsTail.
  change (proto_ (other e)) with
    (with_objective maximize objective_offset (proto_ e)).
  change (MPModelProto.constraint_size
            (with_objective maximize objective_offset (proto_ e)))
    with (MPModelProto.constraint_size (proto_ e)).
  change (MPModelProto.variable_size
            (with_objective maximize objective_offset (proto_ e)))
    with (MPModelProto.variable_size (proto_ e)).
  change (other e, "") with (other_state (e, "")).
  rewrite AppendMpsColumns_other.
  destruct (AppendMpsColumns true transpose (e, "")) as [e1 columns].
  cbn [other_objective_state fst snd].
  match goal with
  | |- context [AppendMpsColumns false transpose (other e1, ?c)] =>
      change (other e1, c) with (other_state (e1, c))
  end.
  rewrite AppendMpsColumns_other.
  destruct (AppendMpsColumns false transpose _) as [e2 columns2].
  cbn [other_objective_state fst snd].
  change (set_column 0 (other e2), "")
    with (other_state (set_column 0 e2, "")).
  rewrite (fold_left_other_state MpsRhs MpsRhs) by apply MpsRhs_other.
  rewrite AppendNewLineIfTwoColumns_other.
  destruct (AppendNewLineIfTwoColumns (fold_left MpsRhs _ _)) as [e3 rhs].
  cbn [other_objective_state fst snd].
  change (set_column 0 (other e3), "")
    with (other_state (set_column 0 e3, "")).
  rewrite (fold_left_other_state MpsRange MpsRange) by apply MpsRange_other.
  rewrite AppendNewLineIfTwoColumns_other.
  destruct (AppendNewLineIfTwoColumns (fold_left MpsRange _ _)) as [e4 ranges].
  cbn [other_objective_state fst snd].
  reflexivity.
Qed.

Lemma MpsRender_other FLAGS e :
  MpsRender FLAGS (other e)
  = (other (exporter_of (MpsRender FLAGS e)),
     output_of (MpsRender FLAGS e), outcome_of (MpsRender FLAGS e)).
Proof.
  unfold MpsRender.
  change (set_column 0 (other e)) with (other (set_column 0 e)).
  change (BuildTranspose (other (set_column 0 e)))
    with (BuildTranspose (set_column 0 e)).
  change (MpsHead FLAGS (other (set_column 0 e)))
    with (MpsHead FLAGS (set_column 0 e)).
  destruct (BuildTranspose (set_column 0 e)) as [[|] transpose];
    [|reflexivity].
  rewrite MpsTail_other.
  destruct (MpsTail (set_column 0 e) transpose _) as [e1 output].
  reflexivity.
Qed.

Lemma ensure_setup_other e :
  fst (ensure_setup (other e)) = other (fst (ensure_setup e)).
Proof.
  unfold ensure_setup. cbn [other_objective setup_done_].
  destruct (setup_done_ e); [reflexivity|].
  unfold Setup. cbn [other_objective proto_ with_objective
                     MPModelProto.variables].
  destruct (fold_left SetupCount _ _) as [b i]. reflexivity.
Qed.

(** The MPS export reads neither [maximize] nor [objective_offset]: over a
    model that differs in nothing but the objective sense and offset the
    export returns the same way and writes the same text (and leaves the
    same exporter members).  The maximisation and the minimisation of the
    same objective cannot be told apart in the MPS text, and the offset is
    not in it. *)
Theorem mps_export_ignores_objective_sense_and_offset :
  forall (FLAGS : Flags) (fixed_format obfuscated : bool)
         (e : MPModelProtoExporter) (output : string),
    let mps := ExportModelAsMpsFormat FLAGS fixed_format obfuscated e output in
    ExportModelAsMpsFormat FLAGS fixed_format obfuscated (other e) output
    = (other (exporter_of mps), output_of mps, outcome_of mps).
Proof.
  intros FLAGS fixed_format obfuscated e output mps. subst mps.
  unfold ExportModelAsMpsFormat.
  change (CheckAllNamesValidity (other e)) with (CheckAllNamesValidity e).
  destruct (negb obfuscated && negb (CheckAllNamesValidity e));
    [reflexivity|].
  pose proof (ensure_setup_other e) as Hsetup.
  destruct (ensure_setup (other e)) as [e1' ok'].
  destruct (ensure_setup e) as [e1 ok]. cbn [fst] in Hsetup. subst e1'.
  change (set_flags obfuscated fixed_format (other e1))
    with (other (set_flags obfuscated fixed_format e1)).
  set (e2 := set_flags obfuscated fixed_format e1).
  change (CanUseFixedMpsFormat (other e2)) with (CanUseFixedMpsFormat e2).
  change (set_flags obfuscated false (other e2))
    with (other (set_flags obfuscated false e2)).
  destruct (fixed_format && negb (CanUseFixedMpsFormat e2));
    apply MpsRender_other.
Qed.

End OtherObjective.
